(** * YaoGarbledMax: the 4-bit MAX circuit synthesizer and its harness

    A shallow embedding of [boolean.py] (the Boolean-circuit synthesizer)
    and of the start-up part of [format.py] (input reading, the plaintext
    reference computation, the circuit-file cache), with the properties
    the design document states about them.

    Python integers are [Z]; the mutable [BooleanCircuit] object is a record
    threaded through a small state monad; the wire valuation used to run a
    gate list is a [gmap Z bool]; files are a [gmap] from paths to
    contents. *)

From Stdlib Require Import ZArith QArith List String Ascii Lia.
From Stdlib Require Import Floats.PrimFloat Numbers.Cyclic.Int63.PrimInt63.
From Equations Require Import Equations.
From stdpp Require Import base gmap list strings pretty fin_maps sorting.

Local Open Scope Z_scope.

(** * Python helpers shared by both modules *)

(** [range(n)] for an integer [n]: empty when [n <= 0]. *)
Definition range (n : Z) : list Z := map Z.of_nat (seq 0 (Z.to_nat n)).

(** [range(0, n, step)] for [n >= 0] and a non-zero [step] (a zero step
    raises [ValueError], handled where it is called): empty when the step
    is negative. *)
Definition range_step (n step : Z) : list Z :=
  if step <? 0 then []
  else map (λ j, Z.of_nat j * step) (seq 0 (Z.to_nat ((n + step - 1) / step))).

(** [l[-m:]] for a positive [m]: the last [m] elements, all of [l] when
    it is shorter. *)
Definition last_slice {A} (m : nat) (l : list A) : list A :=
  drop (length l - m)%nat l.

(** [l[i:j]] for non-negative [i <= j]. *)
Definition slice {A} (i j : Z) (l : list A) : list A :=
  take (Z.to_nat (j - i)) (drop (Z.to_nat i) l).

(** Python's true division [a / b] of two integers, as an exact rational.
    The interpreter returns the binary64 nearest to this quotient; for the
    operands met here (below [2^53]) the float compares equal to the
    integer [c] exactly when the quotient is [c]. Only used with [b > 0]. *)
Definition true_div (a b : Z) : Q := (inject_Z a / inject_Z b)%Q.

(** The same quotient in IEEE binary64, as the interpreter computes it
    when both operands are exactly representable: used only to check the
    rational model on the operands the synthesizer meets. *)
Fixpoint uint63_of_pos (p : positive) : PrimInt63.int :=
  match p with
  | xH => 1%uint63
  | xO p' => PrimInt63.lsl (uint63_of_pos p') 1%uint63
  | xI p' => PrimInt63.lor (PrimInt63.lsl (uint63_of_pos p') 1%uint63) 1%uint63
  end.

Definition binary64_of_Z (z : Z) : PrimFloat.float :=
  match z with
  | Z0 => PrimFloat.zero
  | Zpos p => PrimFloat.of_uint63 (uint63_of_pos p)
  | Zneg p => PrimFloat.opp (PrimFloat.of_uint63 (uint63_of_pos p))
  end.

Definition true_div_binary64 (a b : Z) : PrimFloat.float :=
  PrimFloat.div (binary64_of_Z a) (binary64_of_Z b).

(** The binary64 nearest to the quotient [A / B] of two positive integers,
    ties to even, as a mantissa [m] and an exponent [p]: the float is
    [m * 2^p]. [e] is the exponent of the leading bit of the quotient; the
    spacing of the floats around it is [2^(e - 52)], and [2^-1074] in the
    subnormal range. *)
Definition nearest_binary64 (A B : Z) : Z * Z :=
  let e0 := Z.log2 A - Z.log2 B in
  let e := if A * 2 ^ Z.max 0 (- e0) <? B * 2 ^ Z.max 0 e0 then e0 - 1 else e0 in
  let p := Z.max (e - 52) (-1074) in
  let N := A * 2 ^ Z.max 0 (- p) in
  let D := B * 2 ^ Z.max 0 p in
  let q := N / D in
  let r := N mod D in
  let m := if (D <? 2 * r) || ((D =? 2 * r) && Z.odd q) then q + 1 else q in
  (m, p).

(** [a / b] on two integers, as the interpreter computes it: the binary64
    nearest to the exact quotient, as mantissa and exponent. [None] is the
    [ZeroDivisionError] of [b = 0] or the [OverflowError] of a quotient
    that rounds to [2^1024] or more. *)
Definition py_true_div (a b : Z) : option (Z * Z) :=
  if b =? 0 then None
  else if a =? 0 then Some (0, 0)
  else
    let '(m, p) := nearest_binary64 (Z.abs a) (Z.abs b) in
    if (0 <=? p) && (2 ^ 1024 <=? m * 2 ^ p) then None
    else Some (Z.sgn a * Z.sgn b * m, p).

(** [int(x)] on a float: truncation toward zero. *)
Definition py_int (x : Z * Z) : Z :=
  let '(m, p) := x in
  if 0 <=? p then m * 2 ^ p else Z.quot m (2 ^ (- p)).

(** [x == c] for a quotient [x] and an integer [c]. *)
Definition Q_eq_int (x : Q) (c : Z) : bool := Qeq_bool x (inject_Z c).

(** * boolean.py: the model *)

Module Boolean.

(** ** Data model *)

Inductive gate_type := AND | NXOR | NOT | OR.

#[global] Instance gate_type_eq_dec : EqDecision gate_type.
Proof. solve_decision. Defined.

(** A gate is the dictionary [{"id": .., "type": .., "in": [..]}]. *)
Record gate := Gate { gate_id : Z; gate_ty : gate_type; gate_in : list Z }.

#[global] Instance gate_eq_dec : EqDecision gate.
Proof. solve_decision. Defined.

(** The object state. [gen] is the local [gate_n] of the generator
    [get_next_id]: the last identifier it yielded (its start value before
    the first [__next__]). *)
Record BooleanCircuit := mkBC {
  bits : Z;
  set_size : Z;
  gen : Z;
  inputs_alice : list Z;
  inputs_bob : list Z;
  outputs : list Z;
  gates : list gate
}.

(** [get_next_id(start)]: a generator whose counter starts at [start]. *)
Definition get_next_id (start : Z) : Z := start.

(** [BooleanCircuit.__init__] *)
Definition init (bits set_size : Z) : BooleanCircuit :=
  {| bits := bits; set_size := set_size;
     gen := get_next_id (2 * bits);
     inputs_alice := []; inputs_bob := []; outputs := []; gates := [] |}.

(** ** The state monad of the synthesizer *)

Definition M (A : Type) : Type := BooleanCircuit → A * BooleanCircuit.

Definition ret {A} (x : A) : M A := λ s, (x, s).
Definition bind {A B} (m : M A) (k : A → M B) : M B :=
  λ s, let '(x, s') := m s in k x s'.

Notation "x <- m ;; k" := (bind m (λ x, k))
  (at level 100, m at next level, right associativity).
Notation "m ;;; k" := (bind m (λ _, k))
  (at level 100, right associativity).

(** ** Gate emission and the comparator block *)

(** [self.gen.__next__()]: [gate_n += 1; yield gate_n]. *)
Definition gen_next : M Z :=
  λ s, (gen s + 1,
        mkBC (bits s) (set_size s) (gen s + 1) (inputs_alice s)
             (inputs_bob s) (outputs s) (gates s)).

Definition gates_append (g : gate) : M unit :=
  λ s, (tt, mkBC (bits s) (set_size s) (gen s) (inputs_alice s)
                 (inputs_bob s) (outputs s) (gates s ++ [g])).

Definition outputs_append (w : Z) : M unit :=
  λ s, (tt, mkBC (bits s) (set_size s) (gen s) (inputs_alice s)
                 (inputs_bob s) (outputs s ++ [w]) (gates s)).

Definition inputs_alice_extend (ws : list Z) : M unit :=
  λ s, (tt, mkBC (bits s) (set_size s) (gen s) (inputs_alice s ++ ws)
                 (inputs_bob s) (outputs s) (gates s)).

Definition inputs_bob_extend (ws : list Z) : M unit :=
  λ s, (tt, mkBC (bits s) (set_size s) (gen s) (inputs_alice s)
                 (inputs_bob s ++ ws) (outputs s) (gates s)).

(** The common body of [an], [nxor], [no] and [orr]. *)
Definition emit (ty : gate_type) (ins : list Z) (output : bool) : M Z :=
  out <- gen_next ;;
  gates_append (Gate out ty ins) ;;;
  (if output then outputs_append out else ret tt) ;;;
  ret out.

Definition an (a b : Z) (output : bool) : M Z := emit AND [a; b] output.
Definition nxor (a b : Z) (output : bool) : M Z := emit NXOR [a; b] output.
Definition no (a : Z) (output : bool) : M Z := emit NOT [a] output.
Definition orr (a b : Z) (output : bool) : M Z := emit OR [a; b] output.

Definition wires4 : Type := Z * Z * Z * Z.

(** [circuit_block]: the comparator of two 4-bit values. Nested calls are
    sequenced in Python's evaluation order (arguments left to right,
    innermost first). *)
Definition circuit_block (a b : wires4) : M wires4 :=
  let '(a3, a2, a1, a0) := a in
  let '(b3, b2, b1, b0) := b in
  x3 <- nxor a3 b3 false ;;
  x2 <- nxor a2 b2 false ;;
  x1 <- nxor a1 b1 false ;;
  x0 <- nxor a0 b0 false ;;
  nb0 <- no b0 false ;;
  nb1 <- no b1 false ;;
  nb2 <- no b2 false ;;
  nb3 <- no b3 false ;;
  (* z = an(an(x3, x2), an(x1, x0)) *)
  t1 <- an x3 x2 false ;;
  t2 <- an x1 x0 false ;;
  z <- an t1 t2 false ;;
  (* x = orr(orr(orr(..), ..), ..) *)
  g3 <- an a3 nb3 false ;;
  u1 <- an x3 a2 false ;;
  g2 <- an u1 nb2 false ;;
  o1 <- orr g3 g2 false ;;
  u2 <- an x3 x2 false ;;
  u3 <- an a1 nb1 false ;;
  g1 <- an u2 u3 false ;;
  o2 <- orr o1 g1 false ;;
  u4 <- an x3 x2 false ;;
  u5 <- an u4 x1 false ;;
  u6 <- an u5 a0 false ;;
  g0 <- an u6 nb0 false ;;
  x <- orr o2 g0 false ;;
  x <- orr x z false ;;
  nx <- no x false ;;
  z3 <- orr a3 b3 true ;;
  p2 <- an x a2 false ;;
  q2 <- an nx b2 false ;;
  z2 <- orr p2 q2 true ;;
  p1 <- an x a1 false ;;
  q1 <- an nx b1 false ;;
  z1 <- orr p1 q1 true ;;
  p0 <- an x a0 false ;;
  q0 <- an nx b0 false ;;
  z0 <- orr p0 q0 true ;;
  ret (z3, z2, z1, z0).

Definition wires (w : wires4) : list Z :=
  let '(w3, w2, w1, w0) := w in [w3; w2; w1; w0].

(** [for x in xs: st = body(x, st)] *)
Fixpoint for_each {A St} (xs : list A) (body : A → St → M St) (st : St) : M St :=
  match xs with
  | [] => ret st
  | x :: xs' => st' <- body x st ;; for_each xs' body st'
  end.

(** ** Chaining: [complete_circuit]

    The test that flips ownership is a parameter of the section, so that
    the source's test (true division) and the design document's reading of
    it (integer division) can be compared on the same loop. *)
Section Chaining.
Variable switch_test : Z → Z → bool.

(** The locals carried round the loop: [(a3..a0)], [(b3..b0)], [alice]. *)
Definition loop_state : Type := wires4 * wires4 * bool.

Definition loop_body (n i : Z) (st : loop_state) : M loop_state :=
  let '(a, b, alice) := st in
  a <- circuit_block a b ;;
  b3 <- gen_next ;;
  b2 <- gen_next ;;
  b1 <- gen_next ;;
  b0 <- gen_next ;;
  (if alice then inputs_alice_extend [b3; b2; b1; b0]
   else inputs_bob_extend [b3; b2; b1; b0]) ;;;
  let alice := if switch_test (n - 2) (i + 1) then negb alice else alice in
  ret (a, (b3, b2, b1, b0), alice).

(** Lines 114-136 of [complete_circuit]: everything before the last
    block. Returns the locals the last block is called with. *)
Definition chain_with : M loop_state :=
  λ self,
    let n := set_size self * 2 in
    (inputs_alice_extend [1; 2; 3; 4] ;;;
     inputs_bob_extend [5; 6; 7; 8] ;;;
     for_each (range (n - 2)) (loop_body n)
              ((1, 2, 3, 4), (5, 6, 7, 8), true)) self.

(** Lines 114-139: the chain followed by the last block. *)
Definition assemble_with : M wires4 :=
  st <- chain_with ;;
  let '(a, b, _) := st in
  circuit_block a b.
End Chaining.

(** [(n-2) / (i+1) == 2] as the source has it (true division). *)
Definition switch_true_div (m d : Z) : bool := Q_eq_int (true_div m d) 2.

Definition chain : M loop_state := chain_with switch_true_div.
Definition assemble : M wires4 := assemble_with switch_true_div.

(** ** The emitted document *)

(** The circuit entry of the JSON document. *)
Record circuit_entry := mkEntry {
  c_id : string;
  c_alice : list Z;
  c_bob : list Z;
  c_out : list Z;
  c_gates : list gate
}.

Record json_doc := mkDoc { d_name : string; d_circuits : list circuit_entry }.

(** [json_format] of [complete_circuit], from the object after assembly. *)
Definition entry_of (self : BooleanCircuit) : circuit_entry :=
  let n := set_size self * 2 in
  {| c_id := pretty (bits self) +:+ "-bits MAX with " +:+ pretty n +:+ " elements";
     c_alice := inputs_alice self;
     c_bob := inputs_bob self;
     c_out := last_slice 4 (outputs self);
     c_gates := gates self |}.

Definition json_format (self : BooleanCircuit) : json_doc :=
  {| d_name := "max"; d_circuits := [entry_of self] |}.

(** The last character of a string, if it has one. *)
Fixpoint last_char (s : string) : option ascii :=
  match s with
  | EmptyString => None
  | String c EmptyString => Some c
  | String _ s' => last_char s'
  end.

(** [b.startswith("/")] *)
Definition starts_with_slash (b : string) : bool :=
  match b with
  | String c _ => Ascii.eqb c "/"
  | EmptyString => false
  end.

(** One step of [os.path.join] (posixpath):
    [if b.startswith("/"): path = b
     elif not path or path.endswith("/"): path += b
     else: path += "/" + b]. *)
Definition path_join2 (path b : string) : string :=
  if starts_with_slash b then b
  else
    match last_char path with
    | None => path +:+ b
    | Some c => if Ascii.eqb c "/" then path +:+ b else path +:+ "/" +:+ b
    end.

(** [os.path.join(a, *p)] *)
Definition path_join (a : string) (p : list string) : string := foldl path_join2 a p.

(** [os.path.join(os.getcwd(), "circuits", name)] *)
Definition circuits_path (cwd name : string) : string :=
  path_join cwd ["circuits"; name].

(** The directory the circuit files go to: the path above without its
    last component. *)
Definition circuits_dir (cwd : string) : string := path_join cwd ["circuits"].

(** [output_file] of [complete_circuit]; [None] is the [OverflowError] of
    [n / 2]. *)
Definition output_file (cwd : string) (self : BooleanCircuit) : option string :=
  let n := set_size self * 2 in
  half ← py_true_div n 2;
  Some (circuits_path cwd
          ("max_" +:+ pretty (bits self) +:+ "bits_"
                  +:+ pretty (py_int half) +:+ "items.json")).

(** A file is a text, or a JSON document as [json.dump] stored it. *)
Inductive file := TextFile (text : string) | JsonFile (doc : json_doc).

(** What a path names: a regular file or a directory. The file system
    maps a path to what is found there. Paths are keys, looked up as they
    are spelled: two spellings of one location (a relative and an absolute
    path, a link, [..]) are two keys. *)
Inductive node := File (f : file) | Dir.

Notation "'file_system'" := (gmap string node) (only parsing).

(** The regular files of a file system. *)
Definition files_of (fs : file_system) : gmap string file :=
  omap (λ n, match n with File f => Some f | Dir => None end) fs.

Definition is_dir (fs : file_system) (path : string) : bool :=
  match fs !! path with
  | Some Dir => true
  | _ => false
  end.

(** [with open(path, "w+") as fout: json.dump(doc, fout)] for a [path]
    directly under the directory [dir]: the file is created or replaced.
    [None] is an exception of [open]: the [FileNotFoundError] of a
    directory that does not exist (nothing in the program creates it), or
    the [IsADirectoryError] of a path that names a directory. Other
    failures of the operating system (permissions, a full disk) are
    outside the model. *)
Definition write_json (dir path : string) (doc : json_doc)
    (fs : file_system) : option file_system :=
  if is_dir fs dir && negb (is_dir fs path)
  then Some (<[path := File (JsonFile doc)]> fs)
  else None.

(** [complete_circuit]: assemble, compute [output_file], dump the document
    there, return the path. The result [None] is an exception; the object
    has been filled all the same. The loop test of the assembly is the
    exact one, which is the interpreter's for set sizes up to [2^52]. *)
Definition complete_circuit (cwd : string) (self : BooleanCircuit)
    (fs : file_system) : option string * BooleanCircuit * file_system :=
  let self' := snd (assemble self) in
  match output_file cwd self' with
  | None => (None, self', fs)
  | Some path =>
      match write_json (circuits_dir cwd) path (json_format self') fs with
      | None => (None, self', fs)
      | Some fs' => (Some path, self', fs')
      end
  end.

(** The circuit emitted by [BooleanCircuit(bits, k).complete_circuit()]. *)
Definition circuit_of (bits k : Z) : circuit_entry :=
  entry_of (snd (assemble (init bits k))).

(** ** Running a gate list *)

(** Modelled from the spec: the garbled evaluator ([yao.py]) is not among
    the sources; a gate list is run the way the design document fixes it,
    gates in list order, each reading its input wires and writing its own
    wire, with AND, OR, NXOR (logical equivalence) and NOT. A gate that
    reads an undefined wire, or has the wrong arity, makes the run fail. *)
Definition gate_fun (ty : gate_type) (vs : list bool) : option bool :=
  match ty, vs with
  | AND, [a; b] => Some (a && b)
  | OR, [a; b] => Some (a || b)
  | NXOR, [a; b] => Some (Bool.eqb a b)
  | NOT, [a] => Some (negb a)
  | _, _ => None
  end.

Definition eval_gate (E : gmap Z bool) (g : gate) : option (gmap Z bool) :=
  vs ← mapM (λ w, E !! w) (gate_in g);
  v ← gate_fun (gate_ty g) vs;
  Some (<[gate_id g := v]> E).

Fixpoint eval_gates (gs : list gate) (E : gmap Z bool) : option (gmap Z bool) :=
  match gs with
  | [] => Some E
  | g :: gs' => E' ← eval_gate E g; eval_gates gs' E'
  end.

(** ** Four-bit values, MSB first, and what a block computes *)

Definition bool4 : Type := bool * bool * bool * bool.

Definition decode4 (v : bool4) : Z :=
  let '(v3, v2, v1, v0) := v in
  8 * Z.b2z v3 + 4 * Z.b2z v2 + 2 * Z.b2z v1 + Z.b2z v0.

Definition encode4 (n : Z) : bool4 :=
  (Z.testbit n 3, Z.testbit n 2, Z.testbit n 1, Z.testbit n 0).

(** The bits found on four wires. *)
Definition read4 (E : gmap Z bool) (w : wires4) : option bool4 :=
  let '(w3, w2, w1, w0) := w in
  v3 ← E !! w3; v2 ← E !! w2; v1 ← E !! w1; v0 ← E !! w0;
  Some (v3, v2, v1, v0).

(** What the comparator's gates compute, gate for gate. *)
Definition block_select (a b : bool4) : bool :=
  let '(a3, a2, a1, a0) := a in
  let '(b3, b2, b1, b0) := b in
  let x3 := Bool.eqb a3 b3 in
  let x2 := Bool.eqb a2 b2 in
  let x1 := Bool.eqb a1 b1 in
  let x0 := Bool.eqb a0 b0 in
  let z := (x3 && x2) && (x1 && x0) in
  let x := (((a3 && negb b3) || ((x3 && a2) && negb b2))
            || ((x3 && x2) && (a1 && negb b1)))
           || ((((x3 && x2) && x1) && a0) && negb b0) in
  x || z.

Definition mux (x a b : bool) : bool := (x && a) || (negb x && b).

Definition block_fun (a b : bool4) : bool4 :=
  let '(a3, a2, a1, a0) := a in
  let '(b3, b2, b1, b0) := b in
  let x := block_select a b in
  (a3 || b3, mux x a2 b2, mux x a1 b1, mux x a0 b0).

(** The gates one call of [circuit_block] emits when the counter stands at
    [c], and the wires it returns. *)
Definition blank (c : Z) : BooleanCircuit := mkBC 0 0 c [] [] [] [].

Definition block_gates (c : Z) (a b : wires4) : list gate :=
  gates (snd (circuit_block a b (blank c))).

Definition block_out (c : Z) : wires4 := (c + 27, c + 30, c + 33, c + 36).

(** ** Predicates of the correctness proof *)

(** Wire [w] was allocated no later than counter value [c] and carries
    [v] in the valuation [E]. *)
Definition holds (E : gmap Z bool) (c w : Z) (v : bool) : Prop :=
  w ≤ c ∧ E !! w = Some v.

Definition holds4 (E : gmap Z bool) (c : Z) (w : wires4) (v : bool4) : Prop :=
  let '(w3, w2, w1, w0) := w in
  let '(v3, v2, v1, v0) := v in
  holds E c w3 v3 ∧ holds E c w2 v2 ∧ holds E c w1 v1 ∧ holds E c w0 v0.

(** [m] is the maximum of the non-empty list [l]. *)
Definition is_max (m : Z) (l : list Z) : Prop := m ∈ l ∧ Forall (λ x, x ≤ m) l.

(** The four-wire groups [G] carry the four-bit values [vs] in [E]. *)
Definition reads (E : gmap Z bool) (G : list wires4) (vs : list bool4) : Prop :=
  Forall2 (λ g v, read4 E g = Some v) G vs.

(** The input wires an iteration draws after its block. *)
Definition fresh_inputs (c : Z) : wires4 := (c + 37, c + 38, c + 39, c + 40).

(** A call of the comparator: the counter it started from and its
    arguments. *)
Definition block_call : Type := Z * wires4 * wires4.

Definition gates_of_call (x : block_call) : list gate :=
  let '(c, a, b) := x in block_gates c a b.

(** The loop invariant after [j] iterations. [GA] and [GB] are the
    four-wire groups handed to Alice and to Bob so far, [calls] the
    comparator calls made so far. Whatever values the groups carry, the
    gates emitted so far run, leave every wire above the counter alone,
    and put on the locals [a] and [b] two values whose maximum is the
    maximum of all the groups. *)
Definition chain_inv (j : nat) (st : loop_state) (s : BooleanCircuit) : Prop :=
  let '(a, b, _) := st in
  ∃ (GA GB : list wires4) (calls : list block_call),
    inputs_alice s = flat_map wires GA ∧
    inputs_bob s = flat_map wires GB ∧
    length calls = j ∧
    gates s = flat_map gates_of_call calls ∧
    ∀ E vA vB, reads E GA vA → reads E GB vB →
      ∃ E' ma mb,
        eval_gates (gates s) E = Some E' ∧
        (∀ w, gen s < w → E' !! w = E !! w) ∧
        holds4 E' (gen s) a ma ∧ holds4 E' (gen s) b mb ∧
        is_max (Z.max (decode4 ma) (decode4 mb)) (decode4 <$> (vA ++ vB)).

(** ** Reading a circuit entry *)

(** A wire list cut into groups of four; [None] when its length is not a
    multiple of four. *)
Fixpoint chunks4 (ws : list Z) : option (list wires4) :=
  match ws with
  | [] => Some []
  | w3 :: w2 :: w1 :: w0 :: rest => cons (w3, w2, w1, w0) <$> chunks4 rest
  | _ => None
  end.

(** The four-bit values a party holds: its wire list in groups of four,
    each read MSB first. *)
Definition read_values (E : gmap Z bool) (ws : list Z) : option (list Z) :=
  G ← chunks4 ws; vs ← mapM (read4 E) G; Some (decode4 <$> vs).

(** The MSB-first binary encoding of [n] on four bits. *)
Definition bits4 (n : Z) : list bool :=
  [Z.testbit n 3; Z.testbit n 2; Z.testbit n 1; Z.testbit n 0].

(** Run the gates of an entry on an assignment of its input wires and
    read its output wires. *)
Definition run_circuit (c : circuit_entry) (E : gmap Z bool) : option (list bool) :=
  E' ← eval_gates (c_gates c) E; mapM (λ w, E' !! w) (c_out c).

(** ** Valid set sizes and the properties checked on each of them *)

Definition set_sizes : list Z := Z.of_nat <$> seq 1 16.

(** Both parties get [4k] wires. *)
Definition lengths_ok (k : Z) : bool :=
  bool_decide (length (c_alice (circuit_of 4 k)) = Z.to_nat (4 * k)
               ∧ length (c_bob (circuit_of 4 k)) = Z.to_nat (4 * k)).

(** Set size 1, Alice holds 5 ([0101]) and Bob holds 3 ([0011]). *)
Definition E_5_3 : gmap Z bool :=
  list_to_map [(1, false); (2, true); (3, false); (4, true);
               (5, false); (6, false); (7, true); (8, true)].

Definition input_wires (c : circuit_entry) : list Z := c_alice c ++ c_bob c.
Definition gate_ids (c : circuit_entry) : list Z := gate_id <$> c_gates c.

(** Every input id is below every gate id. *)
Definition inputs_below_gates (c : circuit_entry) : Prop :=
  Forall (λ w, Forall (λ i, w < i) (gate_ids c)) (input_wires c).

(** What the numbering does guarantee: the eight initial wires are
    [1..8]; gate ids start at 9 and increase strictly along the gate
    list; no input wire shares its id with a gate; every input wire after
    the initial eight has a gate with a smaller id before it. *)
Definition numbering (c : circuit_entry) : Prop :=
  take 4 (c_alice c) = [1; 2; 3; 4] ∧
  take 4 (c_bob c) = [5; 6; 7; 8] ∧
  head (gate_ids c) = Some 9 ∧
  StronglySorted Z.lt (gate_ids c) ∧
  Forall (λ i, 8 < i) (gate_ids c) ∧
  Forall (λ w, w ∉ gate_ids c) (input_wires c) ∧
  Forall (λ w, Exists (λ i, i < w) (gate_ids c))
         (drop 4 (c_alice c) ++ drop 4 (c_bob c)).

(** Ids the loop hands to input wires in its first [j] iterations. *)
Definition fresh_input_id (j : nat) (w : Z) : Prop :=
  ∃ i, 0 ≤ i < Z.of_nat j ∧ 44 + 40 * i < w ≤ 48 + 40 * i.

(** Ids of the gates of the first [j] comparator calls. *)
Definition block_gate_id (j : nat) (g : Z) : Prop :=
  ∃ i, 0 ≤ i < Z.of_nat j ∧ 8 + 40 * i < g ≤ 44 + 40 * i.

(** The numbering after [j] loop iterations. *)
Definition numbering_inv (j : nat) (s : BooleanCircuit) : Prop :=
  gen s = 8 + 40 * Z.of_nat j ∧
  ∃ A' B',
    inputs_alice s = [1; 2; 3; 4] ++ A' ∧
    inputs_bob s = [5; 6; 7; 8] ++ B' ∧
    Forall (fresh_input_id j) (A' ++ B') ∧
    ((0 < j)%nat → 45 ∈ A' ++ B') ∧
    Forall (block_gate_id j) (gate_id <$> gates s) ∧
    StronglySorted Z.lt (gate_id <$> gates s) ∧
    ((0 < j)%nat → head (gate_id <$> gates s) = Some 9).

(** The lists 'alice' and 'bob' share no wire and each is [k] groups of
    four wires. *)
Definition partitioned (k : Z) (c : circuit_entry) : Prop :=
  Forall (λ w, w ∉ c_bob c) (c_alice c) ∧
  length (c_alice c) = Z.to_nat (4 * k) ∧
  length (c_bob c) = Z.to_nat (4 * k) ∧
  (length <$> chunks4 (c_alice c)) = Some (Z.to_nat k) ∧
  (length <$> chunks4 (c_bob c)) = Some (Z.to_nat k).

#[export] Instance partitioned_dec k c : Decision (partitioned k c).
Proof. unfold partitioned. apply _. Defined.

(** Walking the gate list with the wires defined so far: each gate reads
    only defined wires, then defines its own. *)
Fixpoint defined_before (defined : list Z) (gs : list gate) : Prop :=
  match gs with
  | [] => True
  | g :: gs' =>
      Forall (λ w, w ∈ defined) (gate_in g)
      ∧ defined_before (gate_id g :: defined) gs'
  end.

#[export] Instance defined_before_dec defined gs : Decision (defined_before defined gs).
Proof. revert defined. induction gs as [|g gs IH]; intros defined; cbn; apply _. Defined.

Definition well_formed (c : circuit_entry) : Prop :=
  defined_before (input_wires c) (c_gates c) ∧
  StronglySorted Z.lt (gate_ids c) ∧
  length (c_out c) = 4%nat.

#[export] Instance well_formed_dec c : Decision (well_formed c).
Proof. unfold well_formed. apply _. Defined.

(** ** Ownership of the fresh inputs *)

(** The design document's reading of the switch test: [(n-2) // (i+1) == 2]
    with integer (floor) division. *)
Definition switch_floor_div (m d : Z) : bool := m / d =? 2.

(** The circuit the same loop emits under the integer-division reading. *)
Definition circuit_of_floor_div (bits k : Z) : circuit_entry :=
  entry_of (snd (assemble_with switch_floor_div (init bits k))).

(** The four input wires drawn in loop iteration [i]. *)
Definition iteration_inputs (i : Z) : list Z := wires (fresh_inputs (8 + 40 * i)).

(** Iterations [0 .. k-2] feed Alice, iterations [k-1 .. 2k-3] feed Bob. *)
Definition single_switch (k : Z) (c : circuit_entry) : Prop :=
  c_alice c = [1; 2; 3; 4] ++ flat_map iteration_inputs (range (k - 1)) ∧
  c_bob c = [5; 6; 7; 8]
            ++ flat_map iteration_inputs ((λ i, i + (k - 1)) <$> range (k - 1)).

Definition same_ownership (c c' : circuit_entry) : Prop :=
  c_alice c = c_alice c' ∧ c_bob c = c_bob c'.

#[export] Instance single_switch_dec k c : Decision (single_switch k c).
Proof. unfold single_switch. apply _. Defined.

#[export] Instance same_ownership_dec c c' : Decision (same_ownership c c').
Proof. unfold same_ownership. apply _. Defined.

(** The source's test on binary64 floats. *)
Definition switch_binary64 (m d : Z) : bool :=
  PrimFloat.eqb (true_div_binary64 m d) (binary64_of_Z 2).

Definition ownership_ok (k : Z) : Prop :=
  single_switch k (circuit_of 4 k) ∧
  (k ≤ 4 → same_ownership (circuit_of 4 k) (circuit_of_floor_div 4 k)) ∧
  (5 ≤ k → ¬ same_ownership (circuit_of 4 k) (circuit_of_floor_div 4 k)).

#[export] Instance ownership_ok_dec k : Decision (ownership_ok k).
Proof. unfold ownership_ok. apply _. Defined.

End Boolean.

(** * format.py: the model *)

Module Format.

Import Boolean.

(** ** Reading an input file *)

Definition newline : ascii := Ascii.ascii_of_nat 10.

(** [fin.readlines()] on the decoded text of a file: the lines, each with
    its newline; a last line without newline is kept when it is not
    empty. [cur] is the line being read. *)
Fixpoint readlines_from (cur : string) (s : string) : list string :=
  match s with
  | EmptyString => match cur with EmptyString => [] | _ => [cur] end
  | String ch s' =>
      if Ascii.eqb ch newline
      then (cur +:+ String ch EmptyString) :: readlines_from EmptyString s'
      else readlines_from (cur +:+ String ch EmptyString) s'
  end.

Definition readlines (s : string) : list string := readlines_from EmptyString s.

(** [if character == "1" or character == "0": bits.append(int(character))] *)
Definition bit_of_character (ch : ascii) : list Z :=
  if Ascii.eqb ch "1" then [1]
  else if Ascii.eqb ch "0" then [0]
  else [].

(** [for character in line: ...] *)
Fixpoint bits_of_line (line : string) : list Z :=
  match line with
  | EmptyString => []
  | String ch line' => bit_of_character ch ++ bits_of_line line'
  end.

(** [for line in fin.readlines(): for character in line: ...] *)
Definition read_bits (content : string) : list Z :=
  flat_map bits_of_line (readlines content).

(** [while len(bits) < target: bits.append(0)] *)
Equations? pad_loop (l : list Z) (target : Z) : list Z
  by wf (Z.to_nat (target - Z.of_nat (length l))) lt :=
  pad_loop l target with decide (Z.of_nat (length l) < target) := {
    | left _ => pad_loop (l ++ [0]) target
    | right _ => l }.
Proof. rewrite length_app. cbn. lia. Qed.

(** [while len(bits) > target: bits.pop()]; [pop] on an empty list raises
    [IndexError], which is [None] here. *)
Equations? trunc_loop (l : list Z) (target : Z) : option (list Z)
  by wf (length l) lt :=
  trunc_loop l target with decide (target < Z.of_nat (length l)) := {
    | left _ with l := {
        | [] => None
        | x :: l' => trunc_loop (removelast (x :: l')) target }
    | right _ => Some l }.
Proof.
  assert (x :: l' ≠ []) as Hne by done.
  apply exists_last in Hne as (pre & y & ->).
  rewrite removelast_last, length_app. cbn. lia.
Qed.

(** ** The plaintext reference *)

(** [int(s, 2)] on the strings that [str] of integers can make up: binary
    digits after an optional sign. [None] is the [ValueError] of a string
    without digits or with any other character of such strings. What
    [int] accepts beyond that (blanks around the number, the prefix [0b],
    underscores between digits) does not occur in them and gives [None]
    here. *)
Fixpoint int_base2_from (acc : Z) (s : string) : option Z :=
  match s with
  | EmptyString => Some acc
  | String ch s' =>
      if Ascii.eqb ch "0" then int_base2_from (2 * acc) s'
      else if Ascii.eqb ch "1" then int_base2_from (2 * acc + 1) s'
      else None
  end.

Definition int_base2_digits (s : string) : option Z :=
  match s with
  | EmptyString => None
  | _ => int_base2_from 0 s
  end.

Definition int_base2 (s : string) : option Z :=
  match s with
  | EmptyString => None
  | String ch s' =>
      if Ascii.eqb ch "-" then Z.opp <$> int_base2_digits s'
      else if Ascii.eqb ch "+" then int_base2_digits s'
      else int_base2_digits s
  end.

(** ["".join(xs)] *)
Definition join_empty (xs : list string) : string := foldr String.append EmptyString xs.

(** [" ".join(xs)] *)
Fixpoint join_space (xs : list string) : string :=
  match xs with
  | [] => EmptyString
  | [x] => x
  | x :: xs' => x +:+ " " +:+ join_space xs'
  end.

(** [max(ss)]; [None] is the [ValueError] of an empty list. *)
Definition py_max (ss : list Z) : option Z :=
  match ss with
  | [] => None
  | x :: ss' => Some (foldl (λ m y, if m <? y then y else m) x ss')
  end.

(** The binary digits of a positive number, most significant first. *)
Fixpoint bin_digits (p : positive) : string :=
  match p with
  | xH => "1"
  | xO p' => bin_digits p' +:+ "0"
  | xI p' => bin_digits p' +:+ "1"
  end.

Definition zero_pad (width : Z) (s : string) : string :=
  string_of_list_ascii
    (replicate (Z.to_nat (width - Z.of_nat (String.length s))) ("0" : ascii))
  +:+ s.

(** [f"{c:0{bits}b}"]: binary digits, zero-padded to [bits] characters,
    the sign first when there is one. *)
Definition format_bin (width : Z) (c : Z) : string :=
  match c with
  | Z0 => zero_pad width "0"
  | Zpos p => zero_pad width (bin_digits p)
  | Zneg p => "-" +:+ zero_pad (width - 1) (bin_digits p)
  end.

(** [for x in xs: st = body(x, st)] where the body may raise. *)
Fixpoint for_opt {A St} (xs : list A) (body : A → St → option St) (st : St) : option St :=
  match xs with
  | [] => Some st
  | x :: xs' => st' ← body x st; for_opt xs' body st'
  end.

(** One iteration of the loop of [traditional_compute]. *)
Definition collect (a b : list Z) (bits : Z) (i : Z) (ss : list Z) : option (list Z) :=
  x ← int_base2 (join_empty (pretty <$> slice i (i + bits) a));
  y ← int_base2 (join_empty (pretty <$> slice i (i + bits) b));
  Some ((ss ++ [x]) ++ [y]).

(** [traditional_compute(a, b, bits)], without its two [print]s. [None]
    is an exception: the [ValueError] of [range] with step 0, of [int] on
    an empty slice, or of [max] on an empty list. *)
Definition traditional_compute (a b : list Z) (bits : Z) : option string :=
  if bits =? 0 then None
  else
    ss ← for_opt (range_step (Z.of_nat (length a)) bits) (collect a b bits) [];
    c ← py_max ss;
    Some (format_bin bits c).

(** ** The harness up to the start of the protocol *)

(** How a run of the harness ends, as far as it is modelled: [exit(code)],
    an uncaught exception, or the start of the protocol with the circuit
    file, the two bit vectors and the expected result. *)
Inductive outcome :=
  | Exit (code : Z)
  | Uncaught
  | Run (circuit : string) (bits_a bits_b : list Z) (correct_result : string).


Section Harness.
(** The text [json.dump] writes for a document (library code). *)
Variable json_text : json_doc → string.

Definition file_text (f : file) : string :=
  match f with TextFile s => s | JsonFile d => json_text d end.

(** [os.path.exists]: true of files and of directories. *)
Definition path_exists (fs : file_system) (path : string) : bool :=
  bool_decide (is_Some (fs !! path)).

(** The name [main] looks up: [max_{bits}bits_{set_size}items.json]. *)
Definition circuit_path (cwd : string) (bits set_size : Z) : string :=
  circuits_path cwd
    ("max_" +:+ pretty bits +:+ "bits_" +:+ pretty set_size +:+ "items.json").

(** Lines 106-110 of [main]: re-use the circuit file or generate it. The
    result [None] is an exception of [complete_circuit]. *)
Definition circuit_stage (cwd : string) (bits set_size : Z)
    (fs : file_system) : option string * file_system :=
  let circuit := circuit_path cwd bits set_size in
  if path_exists fs circuit then (Some circuit, fs)
  else
    let '(circuit, _, fs') := complete_circuit cwd (init bits set_size) fs in
    (circuit, fs').

(** One [with open(..)] block of [main] (Alice's and Bob's are the same
    code): read the bits, check their count, pad, truncate. *)
Definition read_input (fs : gmap string file) (path : string)
    (bits set_size : Z) : outcome + list Z :=
  match fs !! path with
  | None => inl Uncaught
  | Some f =>
      let bs := read_bits (file_text f) in
      if bits =? 0 then inl Uncaught
      else if negb (Z.of_nat (length bs) mod bits =? 0) then inl (Exit 1)
      else
        match trunc_loop (pad_loop bs (set_size * bits)) (set_size * bits) with
        | None => inl Uncaught
        | Some bs' => inr bs'
        end
  end.

(** [" ".join([b for b in s])] *)
Definition spaced (s : string) : string :=
  join_space ((λ ch, String ch EmptyString) <$> list_ascii_of_string s).

(** [main], up to the construction of the two parties. An input path
    that names a directory exists, and opening it raises
    ([IsADirectoryError]): it is not among the regular files that
    [read_input] looks at. *)
Definition main (bits set_size : Z) (alice_input_file bob_input_file : string)
    (cwd : string) (fs : file_system) : outcome * file_system :=
  match circuit_stage cwd bits set_size fs with
  | (None, fs) => (Uncaught, fs)
  | (Some circuit, fs) =>
      if negb (path_exists fs alice_input_file) then (Exit 1, fs)
      else if negb (path_exists fs bob_input_file) then (Exit 1, fs)
      else
        match read_input (files_of fs) alice_input_file bits set_size with
        | inl o => (o, fs)
        | inr bits_a =>
            match read_input (files_of fs) bob_input_file bits set_size with
            | inl o => (o, fs)
            | inr bits_b =>
                match traditional_compute bits_a bits_b bits with
                | None => (Uncaught, fs)
                | Some r => (Run circuit bits_a bits_b (spaced r), fs)
                end
            end
        end
  end.





End Harness.

(** The design document's account of the circuit file: a run of
    [complete_circuit] leaves the circuit at the path derived from
    [(bits, set_size)]. *)
Definition written_at_stable_path (cwd : string) (bits k : Z)
    (fs : file_system) : Prop :=
  (complete_circuit cwd (init bits k) fs).1.1 = Some (circuit_path cwd bits k)
  ∧ (complete_circuit cwd (init bits k) fs).2 !! circuit_path cwd bits k
    = Some (File (JsonFile (mkDoc "max" [circuit_of bits k]))).

(** ** Specification-side functions *)

(** The significant characters of a text, as bits. *)
Definition significant (content : string) : list Z :=
  (λ ch : ascii, if Ascii.eqb ch "1" then 1 else 0)
    <$> filter (λ ch : ascii, ch = "0"%char ∨ ch = "1"%char)
               (list_ascii_of_string content).

Definition bit (x : Z) : Prop := x = 0 ∨ x = 1.

(** What [read_input] leaves in the bit list when the count check passes:
    zeros appended when it is short, the tail dropped when it is long. *)
Definition normalised (bs : list Z) (target : Z) : list Z :=
  if decide (Z.of_nat (length bs) ≤ target)
  then bs ++ replicate (Z.to_nat (target - Z.of_nat (length bs))) 0
  else take (Z.to_nat target) bs.

Definition fs_example : gmap string file :=
  {[ "Alice.txt" := TextFile "0101, 11x10"; "Bob.txt" := TextFile "0011" ]}.

(** The same two files where the directory [circuits] has not been
    created, and where it has. *)
Definition fs_bare : file_system := File <$> fs_example.

Definition fs_home : file_system := <["/home/yao/circuits" := Dir]> fs_bare.

(** Consecutive groups of four bits. *)
Fixpoint groups4 (l : list Z) : list (list Z) :=
  match l with
  | x3 :: x2 :: x1 :: x0 :: rest => [x3; x2; x1; x0] :: groups4 rest
  | _ => []
  end.

(** The number a group of bits spells, most significant bit first. *)
Definition value_msb (g : list Z) : Z := foldl (λ acc x, 2 * acc + x) 0 g.

Definition group_values (l : list Z) : list Z := value_msb <$> groups4 l.

(** The four characters of [bits4 m]. *)
Definition bin4_string (m : Z) : string :=
  string_of_list_ascii ((λ b : bool, if b then "1" else "0")%char <$> bits4 m).

Fixpoint interleave (xs ys : list Z) : list Z :=
  match xs, ys with
  | x :: xs', y :: ys' => x :: y :: interleave xs' ys'
  | _, _ => []
  end.

(** ** End-to-end scenarios of the design document *)

(** The assignment the two parties feed: wire [i] of a party's list gets
    bit [i] of its vector. *)
Definition input_env (c : circuit_entry) (bits_a bits_b : list bool) : gmap Z bool :=
  list_to_map (zip (c_alice c) bits_a ++ zip (c_bob c) bits_b).

Definition bools (bs : list Z) : list bool := (λ x, bool_decide (x = 1)) <$> bs.

Definition scenario (k : Z) (bits_a bits_b : list Z) : option (list bool) :=
  run_circuit (circuit_of 4 k) (input_env (circuit_of 4 k) (bools bits_a) (bools bits_b)).

End Format.

(** * boolean.py: invariants and measures for every set size *)

Module Circuit.

Import Boolean.

(** How many gates of a type a gate list has. *)
Definition count_type (ty : gate_type) (gs : list gate) : nat :=
  length (filter (λ g, gate_ty g = ty) gs).

(** The loop invariant behind the single ownership switch ([k ≥ 2]). *)
Definition ownership_inv (k : Z) (j : nat) (st : loop_state) (s : BooleanCircuit) : Prop :=
  gen s = 8 + 40 * Z.of_nat j ∧
  st.2 = bool_decide (Z.of_nat j < k - 1) ∧
  inputs_alice s
    = [1; 2; 3; 4] ++ flat_map iteration_inputs (range (Z.min (Z.of_nat j) (k - 1))) ∧
  inputs_bob s
    = [5; 6; 7; 8]
      ++ flat_map iteration_inputs ((λ i, i + (k - 1)) <$> range (Z.of_nat j - (k - 1))).

(** The loop invariant behind the topological order of the gate list:
    the gates so far read only wires defined before them, whatever wires
    are added to the inputs later; the local [a] is made of input wires or
    gate outputs, the local [b] of input wires. *)
Definition order_inv (st : loop_state) (s : BooleanCircuit) : Prop :=
  let '(a, b, _) := st in
  (∀ D, (∀ w, w ∈ inputs_alice s ++ inputs_bob s → w ∈ D) →
        defined_before D (gates s)) ∧
  (∀ w, w ∈ wires a →
        w ∈ inputs_alice s ++ inputs_bob s ∨ w ∈ gate_id <$> gates s) ∧
  (∀ w, w ∈ wires b → w ∈ inputs_alice s ++ inputs_bob s).

(** The arity the gate type asks for. *)
Definition arity_ok (g : gate) : Prop :=
  length (gate_in g) = match gate_ty g with NOT => 1%nat | _ => 2%nat end.

(** What [complete_circuit] adds to an object in state [s0], whatever the
    state: the lists only grow, the new inputs start with [1..4] and
    [5..8], and the first new gate compares wires 1 and 5 under the id
    that follows the counter of [s0]. *)
Definition grows_from (s0 : BooleanCircuit) (st : loop_state) (s : BooleanCircuit) : Prop :=
  ∃ restA restB G,
    inputs_alice s = inputs_alice s0 ++ [1; 2; 3; 4] ++ restA ∧
    inputs_bob s = inputs_bob s0 ++ [5; 6; 7; 8] ++ restB ∧
    gates s = gates s0 ++ G ∧
    match head G with
    | None => st.1 = ((1, 2, 3, 4), (5, 6, 7, 8)) ∧ gen s = gen s0
    | Some g => g = Gate (gen s0 + 1) NXOR [1; 5]
    end.

End Circuit.

(** * format.py: normalised values and the verification report *)

Module Verification.

Import Boolean Format.

(** The values a party is left with after [read_input]: the first [k]
    values of its file, zeros where the file has fewer. *)
Definition kept_values (k : Z) (bs : list Z) : list Z :=
  take (Z.to_nat k) (group_values bs ++ replicate (Z.to_nat k) 0).

(** [s.replace(' ', '')] *)
Definition remove_spaces (s : string) : string :=
  string_of_list_ascii
    (filter (λ ch : ascii, ch ≠ " "%char) (list_ascii_of_string s)).

(** [verify_output(a, b)] *)
Definition verify_output (a b : string) : bool := bool_decide (a = b).

(** [str] of a Boolean. *)
Definition str_bool (b : bool) : string := if b then "True" else "False".

(** The three lines [main] writes to [verification.json] (lines 188-191),
    without the colour codes of the console copy. [None] is the
    [ValueError] of one of the two [int(.., 2)] calls; the file then holds
    the lines written before it. *)
Definition verification_lines (correct_result result : string) : option (list string) :=
  e ← int_base2 (remove_spaces correct_result);
  a ← int_base2 (remove_spaces result);
  Some [ "Expected output: " +:+ correct_result +:+ " (" +:+ pretty e +:+ ")"
           +:+ String newline EmptyString;
         "Actual output: " +:+ result +:+ " (" +:+ pretty a +:+ ")"
           +:+ String newline EmptyString;
         "Correct: " +:+ str_bool (verify_output result correct_result)
           +:+ String newline EmptyString ].

(** A file system whose input file holds no binary digit. *)
Definition fs_blank : gmap string file := {[ "Alice.txt" := TextFile "no digits here" ]}.

End Verification.

(** * main.py: what the two parties feed the protocol *)

Module Main.

Import Boolean Format.

Section Garbler.
(** The wire keys of the garbled circuit; module [yao] makes them. *)
Variable Key : Type.

(** [t[i]] on the pair [(key0, key1)] that [keys] holds for a wire;
    [None] is the [IndexError]. *)
Definition tuple_get (t : Key * Key) (i : Z) : option Key :=
  if bool_decide (i = 0 ∨ i = -2) then Some t.1
  else if bool_decide (i = 1 ∨ i = -1) then Some t.2
  else None.

(** [Alice._get_encr_bits(pbit, key0, key1)] *)
Definition get_encr_bits (pbit : Z) (key0 key1 : Key) : (Key * Z) * (Key * Z) :=
  ((key0, Z.lxor 0 pbit), (key1, Z.lxor 1 pbit)).

(** One item of the comprehension that builds [b_keys] in [Alice.print]:
    [w: self._get_encr_bits(pbits[w], key0, key1)] when [w in b_wires];
    [None] is the [KeyError] of [pbits[w]]. *)
Definition b_keys_item (pbits : gmap Z Z) (b_wires : list Z)
    (item : Z * (Key * Key)) (acc : gmap Z ((Key * Z) * (Key * Z)))
    : option (gmap Z ((Key * Z) * (Key * Z))) :=
  let '(w, (key0, key1)) := item in
  if bool_decide (w ∈ b_wires)
  then p ← pbits !! w; Some (<[w := get_encr_bits p key0 key1]> acc)
  else Some acc.

(** [b_keys = {w: ... for w, (key0, key1) in keys.items() if w in b_wires}].
    The items are visited in the order of [map_to_list]; the keys of a
    dictionary being distinct, the result does not depend on the order. *)
Definition b_keys (keys : gmap Z (Key * Key)) (pbits : gmap Z Z) (b_wires : list Z)
    : option (gmap Z ((Key * Z) * (Key * Z))) :=
  for_opt (map_to_list keys) (b_keys_item pbits b_wires) ∅.

(** One iteration of the loop that builds [a_inputs] in [Alice.print]:
    [a_inputs[a_wires[i]] = (keys[a_wires[i]][self.in_bits[i]],
                             pbits[a_wires[i]] ^ self.in_bits[i])].
    [None] is a [KeyError] or an [IndexError]. *)
Definition a_inputs_step (keys : gmap Z (Key * Key)) (pbits : gmap Z Z)
    (a_wires in_bits : list Z) (i : nat) (acc : gmap Z (Key * Z))
    : option (gmap Z (Key * Z)) :=
  w ← a_wires !! i;
  ks ← keys !! w;
  x ← in_bits !! i;
  key ← tuple_get ks x;
  p ← pbits !! w;
  Some (<[w := (key, Z.lxor p x)]> acc).

(** [for i in range(len(a_wires)): a_inputs[a_wires[i]] = ...] *)
Definition a_inputs (keys : gmap Z (Key * Key)) (pbits : gmap Z Z)
    (a_wires in_bits : list Z) : option (gmap Z (Key * Z)) :=
  for_opt (seq 0 (length a_wires)) (a_inputs_step keys pbits a_wires in_bits) ∅.

End Garbler.

Arguments tuple_get {Key}.
Arguments get_encr_bits {Key}.
Arguments b_keys_item {Key}.
Arguments b_keys {Key}.
Arguments a_inputs_step {Key}.
Arguments a_inputs {Key}.

(** [b_inputs_clear = {b_wires[i]: self.in_bits[i] for i in range(len(b_wires))}]
    in [Bob.send_evaluation]; [None] is the [IndexError] of [in_bits[i]]. *)
Definition b_inputs_clear (b_wires in_bits : list Z) : option (gmap Z Z) :=
  for_opt (seq 0 (length b_wires))
          (λ i acc, w ← b_wires !! i; x ← in_bits !! i; Some (<[w := x]> acc)) ∅.

(** [str_result = ' '.join([str(result[w]) for w in outputs])] in
    [Alice.print], for a result that maps wires to integers; [None] is
    the [KeyError] of [result[w]]. *)
Definition str_result (result : gmap Z Z) (outputs : list Z) : option string :=
  join_space <$> mapM (λ w, pretty <$> result !! w) outputs.

(** The entry of a pair of [_get_encr_bits] that belongs to a clear bit. *)
Definition entry_for {A} (x : Z) (p : A * A) : A := if x =? 0 then p.1 else p.2.

(** An input dictionary holds, for each wire, the bit at the last position
    where the wire occurs in the wire list. *)
Definition last_wins {V} (m : gmap Z V) (ws : list Z) (val : nat → option V) : Prop :=
  (∀ i w, ws !! i = Some w → (∀ j, (i < j)%nat → ws !! j ≠ Some w) → m !! w = val i)
  ∧ (∀ w, w ∉ ws → m !! w = None).

End Main.

(** * boolean.py: properties *)

Module BooleanSpec.

Import Boolean.

(** ** The comparator block: what it emits *)

Lemma emit_run ty ins output s :
  emit ty ins output s =
    (gen s + 1,
     mkBC (bits s) (set_size s) (gen s + 1) (inputs_alice s) (inputs_bob s)
          (if output then outputs s ++ [gen s + 1] else outputs s)
          (gates s ++ [Gate (gen s + 1) ty ins])).
Proof. by destruct output. Qed.

Ltac run_block :=
  cbv [circuit_block an nxor no orr bind ret];
  repeat (rewrite emit_run;
          cbn [gen bits set_size inputs_alice inputs_bob outputs gates]).

Lemma circuit_block_run a b s :
  circuit_block a b s =
    (block_out (gen s),
     mkBC (bits s) (set_size s) (gen s + 36) (inputs_alice s) (inputs_bob s)
          (outputs s ++ wires (block_out (gen s)))
          (gates s ++ block_gates (gen s) a b)).
Proof.
  destruct a as [[[a3 a2] a1] a0], b as [[[b3 b2] b1] b0].
  unfold block_gates, blank, block_out, wires. run_block.
  cbn [snd gates app].
  rewrite <- !app_assoc. cbn [app].
  repeat match goal with
         | |- (_, _) = (_, _) => apply f_equal2
         | |- mkBC _ _ _ _ _ _ _ = mkBC _ _ _ _ _ _ _ => f_equal
         | |- _ ++ _ = _ ++ _ => apply (f_equal (app _))
         | |- _ :: _ = _ :: _ => apply f_equal2
         | |- @eq Z _ _ => lia
         | |- _ => reflexivity
         end.
Qed.

(** ** The comparator block: what its gates compute *)

Lemma holds_new E c v : holds (<[c + 1 := v]> E) (c + 1) (c + 1) v.
Proof. split; [lia | apply lookup_insert_eq]. Qed.

Lemma holds_step E c w v v' :
  holds E c w v → holds (<[c + 1 := v']> E) (c + 1) w v.
Proof.
  intros [Hle Hw]. split; [lia |].
  rewrite lookup_insert_ne; [done | lia].
Qed.

Lemma holds_mono E c c' w v : c ≤ c' → holds E c w v → holds E c' w v.
Proof. intros ? [? ?]. split; [lia | done]. Qed.

Lemma holds4_read E c w v : holds4 E c w v → read4 E w = Some v.
Proof.
  destruct w as [[[w3 w2] w1] w0], v as [[[v3 v2] v1] v0].
  intros ([_ H3] & [_ H2] & [_ H1] & [_ H0]).
  unfold read4. by rewrite H3, H2, H1, H0.
Qed.

Lemma eval_gates_app gs1 gs2 E :
  eval_gates (gs1 ++ gs2) E = (eval_gates gs1 E ≫= eval_gates gs2).
Proof.
  revert E. induction gs1 as [|g gs1 IH]; intros E; [done |].
  cbn. destruct (eval_gate E g) as [E'|]; cbn; [apply IH | done].
Qed.

Lemma eval_step2 ty E c a b va vb v gs :
  holds E c a va → holds E c b vb → gate_fun ty [va; vb] = Some v →
  eval_gates (Gate (c + 1) ty [a; b] :: gs) E = eval_gates gs (<[c + 1 := v]> E).
Proof.
  intros [_ Ha] [_ Hb] Hv. cbn. unfold eval_gate. cbn.
  rewrite Ha, Hb. cbn. by rewrite Hv.
Qed.

Lemma eval_step1 ty E c a va v gs :
  holds E c a va → gate_fun ty [va] = Some v →
  eval_gates (Gate (c + 1) ty [a] :: gs) E = eval_gates gs (<[c + 1 := v]> E).
Proof.
  intros [_ Ha] Hv. cbn. unfold eval_gate. cbn.
  rewrite Ha. cbn. by rewrite Hv.
Qed.

Ltac solve_holds :=
  repeat first [ apply holds_new | apply holds_step ]; eassumption.

Ltac step_gate :=
  first [ erewrite eval_step2; [| solve_holds | solve_holds | reflexivity]
        | erewrite eval_step1; [| solve_holds | reflexivity] ].

(** One comparator block, run on a valuation in which its eight input
    wires are defined: the run succeeds, the four returned wires carry
    [block_fun], and no wire outside the block's own 36 ids changes. *)
Lemma block_gates_eval E c a b va vb :
  holds4 E c a va → holds4 E c b vb →
  ∃ E', eval_gates (block_gates c a b) E = Some E'
        ∧ holds4 E' (c + 36) (block_out c) (block_fun va vb)
        ∧ (∀ w, w ≤ c ∨ c + 36 < w → E' !! w = E !! w)
        ∧ E' !! (c + 25) = Some (block_select va vb).
Proof.
  destruct a as [[[a3 a2] a1] a0], b as [[[b3 b2] b1] b0].
  destruct va as [[[va3 va2] va1] va0], vb as [[[vb3 vb2] vb1] vb0].
  intros (Ha3 & Ha2 & Ha1 & Ha0) (Hb3 & Hb2 & Hb1 & Hb0).
  unfold block_gates, blank. run_block. cbn [snd gates app].
  do 36 step_gate.
  eexists. split; [reflexivity |]. split; [| split].
  - unfold block_out, block_fun, block_select, mux, holds4.
    replace (c + 27) with (c+1+1+1+1+1+1+1+1+1+1+1+1+1+1+1+1+1+1+1+1+1+1+1+1+1+1+1) by lia.
    replace (c + 30) with (c+1+1+1+1+1+1+1+1+1+1+1+1+1+1+1+1+1+1+1+1+1+1+1+1+1+1+1+1+1+1) by lia.
    replace (c + 33) with (c+1+1+1+1+1+1+1+1+1+1+1+1+1+1+1+1+1+1+1+1+1+1+1+1+1+1+1+1+1+1+1+1+1) by lia.
    replace (c + 36) with (c+1+1+1+1+1+1+1+1+1+1+1+1+1+1+1+1+1+1+1+1+1+1+1+1+1+1+1+1+1+1+1+1+1+1+1+1) by lia.
    split; [| split; [| split]]; solve_holds.
  - intros w Hw. rewrite !lookup_insert_ne by lia. done.
  - rewrite !lookup_insert_ne by lia.
    replace (c + 25) with (c+1+1+1+1+1+1+1+1+1+1+1+1+1+1+1+1+1+1+1+1+1+1+1+1+1) by lia.
    apply lookup_insert_eq.
Qed.

(** The last twelve gates of a block: the select wire [x] (A > B or
    A = B), its negation, the OR gate of the MSB and the three muxes. *)
Lemma block_gates_tail c a3 a2 a1 a0 b3 b2 b1 b0 :
  drop 24 (block_gates c (a3, a2, a1, a0) (b3, b2, b1, b0)) =
    [ Gate (c + 25) OR [c + 24; c + 11];
      Gate (c + 26) NOT [c + 25];
      Gate (c + 27) OR [a3; b3];
      Gate (c + 28) AND [c + 25; a2];
      Gate (c + 29) AND [c + 26; b2];
      Gate (c + 30) OR [c + 28; c + 29];
      Gate (c + 31) AND [c + 25; a1];
      Gate (c + 32) AND [c + 26; b1];
      Gate (c + 33) OR [c + 31; c + 32];
      Gate (c + 34) AND [c + 25; a0];
      Gate (c + 35) AND [c + 26; b0];
      Gate (c + 36) OR [c + 34; c + 35] ].
Proof.
  unfold block_gates, blank. run_block. cbn [snd gates app drop].
  repeat match goal with
         | |- _ :: _ = _ :: _ => apply f_equal2
         | |- Gate _ _ _ = Gate _ _ _ => apply f_equal3
         | |- @eq Z _ _ => lia
         | |- _ => reflexivity
         end.
Qed.

(** ** The comparator block against arithmetic *)

Ltac all_bool4 a b :=
  destruct a as [[[[] []] []] []], b as [[[[] []] []] []].

Lemma decode4_range v : 0 ≤ decode4 v < 16.
Proof. destruct v as [[[[] []] []] []]; cbn; lia. Qed.

Lemma encode4_decode4 v : encode4 (decode4 v) = v.
Proof. by destruct v as [[[[] []] []] []]. Qed.

Lemma block_select_ge a b :
  block_select a b = (decode4 a >? decode4 b) || (decode4 a =? decode4 b).
Proof. all_bool4 a b; reflexivity. Qed.

Lemma block_fun_max a b :
  block_fun a b = encode4 (Z.max (decode4 a) (decode4 b)).
Proof. all_bool4 a b; reflexivity. Qed.

Lemma decode4_block_fun a b :
  decode4 (block_fun a b) = Z.max (decode4 a) (decode4 b).
Proof. all_bool4 a b; reflexivity. Qed.

Lemma msb_is_mux a b :
  let '(a3, _, _, _) := a in
  let '(b3, _, _, _) := b in
  a3 || b3 = mux (block_select a b) a3 b3.
Proof. all_bool4 a b; reflexivity. Qed.

(** ** The chain: one loop iteration and the whole loop *)

Lemma is_max_two m v : is_max (Z.max m v) [m; v].
Proof.
  split.
  - destruct (Z.max_spec m v) as [[_ ->] | [_ ->]];
      [apply list_elem_of_further |]; apply list_elem_of_here.
  - repeat constructor; lia.
Qed.

Lemma is_max_extend M v l l' :
  (∀ x, x ∈ l' ↔ x = v ∨ x ∈ l) → is_max M l → is_max (Z.max M v) l'.
Proof.
  intros Hl' [Hin Hall]. split.
  - apply Hl'. destruct (Z.max_spec M v) as [[_ ->] | [_ ->]]; auto.
  - apply Forall_forall. intros x Hx. apply Hl' in Hx as [-> | Hx]; [lia |].
    rewrite Forall_forall in Hall. specialize (Hall _ Hx). lia.
Qed.

Lemma read4_holds4 E c w v :
  read4 E w = Some v → Forall (λ x, x ≤ c) (wires w) → holds4 E c w v.
Proof.
  destruct w as [[[w3 w2] w1] w0], v as [[[v3 v2] v1] v0].
  unfold read4, holds4, holds, wires. intros Hr Hle.
  destruct (E !! w3) eqn:E3; [| done]. destruct (E !! w2) eqn:E2; [| done].
  destruct (E !! w1) eqn:E1; [| done]. destruct (E !! w0) eqn:E0; [| done].
  cbn in Hr. injection Hr as -> -> -> ->.
  repeat match goal with H : Forall _ (_ :: _) |- _ => inversion_clear H end.
  done.
Qed.

Lemma read4_agree E E' w :
  (∀ x, x ∈ wires w → E' !! x = E !! x) → read4 E' w = read4 E w.
Proof.
  destruct w as [[[w3 w2] w1] w0]. intros H. unfold read4.
  rewrite !H; [done | | | |]; unfold wires;
    repeat first [ apply list_elem_of_here | apply list_elem_of_further ].
Qed.

Lemma holds4_mono E c c' w v : c ≤ c' → holds4 E c w v → holds4 E c' w v.
Proof.
  destruct w as [[[w3 w2] w1] w0], v as [[[v3 v2] v1] v0].
  intros Hc (H3 & H2 & H1 & H0). unfold holds4. eauto 10 using holds_mono.
Qed.

Lemma last_slice_app {A} (l tl : list A) :
  length tl = 4%nat → last_slice 4 (l ++ tl) = tl.
Proof.
  intros Hlen. unfold last_slice. rewrite length_app, Hlen.
  replace (length l + 4 - 4)%nat with (length l) by lia.
  by rewrite drop_app_length.
Qed.

Lemma for_each_ind {A St} (I : nat → St → BooleanCircuit → Prop)
    (body : A → St → M St) (xs : list A) :
  (∀ j x st s, I j st s → I (S j) (body x st s).1 (body x st s).2) →
  ∀ j st s, I j st s →
    I (j + length xs)%nat (for_each xs body st s).1 (for_each xs body st s).2.
Proof.
  intros Hstep. induction xs as [|x xs IH]; intros j st s HI; cbn.
  - by rewrite Nat.add_0_r.
  - unfold bind. specialize (Hstep j x st s HI).
    destruct (body x st s) as [st' s']. cbn in Hstep.
    replace (j + S (length xs))%nat with (S j + length xs)%nat by lia.
    by apply IH.
Qed.

Lemma length_range n : length (range n) = Z.to_nat n.
Proof. unfold range. by rewrite length_map, length_seq. Qed.

Section ChainProofs.
Variable switch_test : Z → Z → bool.

Lemma loop_body_run n i a b alice s :
  loop_body switch_test n i (a, b, alice) s =
    ((block_out (gen s), fresh_inputs (gen s),
      if switch_test (n - 2) (i + 1) then negb alice else alice),
     mkBC (bits s) (set_size s) (gen s + 40)
          (if alice then inputs_alice s ++ wires (fresh_inputs (gen s))
           else inputs_alice s)
          (if alice then inputs_bob s
           else inputs_bob s ++ wires (fresh_inputs (gen s)))
          (outputs s ++ wires (block_out (gen s)))
          (gates s ++ block_gates (gen s) a b)).
Proof.
  unfold loop_body, bind. rewrite circuit_block_run.
  unfold gen_next, fresh_inputs, wires, ret. cbn.
  replace (gen s + 36 + 1) with (gen s + 37) by lia.
  replace (gen s + 37 + 1) with (gen s + 38) by lia.
  replace (gen s + 38 + 1) with (gen s + 39) by lia.
  replace (gen s + 39 + 1) with (gen s + 40) by lia.
  by destruct alice.
Qed.

Lemma reads_snoc E G g vs' :
  reads E (G ++ [g]) vs' →
  ∃ vs v, vs' = vs ++ [v] ∧ reads E G vs ∧ read4 E g = Some v.
Proof.
  intros H. apply Forall2_app_inv_l in H as (vs & vf & HG & Hg & ->).
  inversion Hg as [| ? v ? tl Hv Htl]; subst. inversion Htl; subst.
  by exists vs, v.
Qed.

Lemma chain_inv_sem_step E (c : Z) a b E1 ma mb v' l :
  eval_gates l E = Some E1 →
  (∀ w, c < w → E1 !! w = E !! w) →
  holds4 E1 c a ma → holds4 E1 c b mb →
  read4 E (fresh_inputs c) = Some v' →
  ∃ E2, eval_gates (l ++ block_gates c a b) E = Some E2 ∧
        (∀ w, c + 40 < w → E2 !! w = E !! w) ∧
        holds4 E2 (c + 40) (block_out c) (block_fun ma mb) ∧
        holds4 E2 (c + 40) (fresh_inputs c) v'.
Proof.
  intros Hrun Hframe Ha Hb Hv'.
  destruct (block_gates_eval E1 c a b ma mb Ha Hb) as (E2 & Hrun2 & Hout & Hframe2 & _).
  exists E2. split; [| split; [| split]].
  - rewrite eval_gates_app, Hrun. exact Hrun2.
  - intros w Hw. rewrite Hframe2 by lia. apply Hframe. lia.
  - eapply holds4_mono; [| exact Hout]. lia.
  - apply read4_holds4.
    + rewrite <- Hv'. apply read4_agree. intros x Hx.
      assert (c + 36 < x) as Hgt.
      { unfold fresh_inputs, wires in Hx.
        repeat (apply elem_of_cons in Hx as [-> | Hx]; [lia |]).
        by apply elem_of_nil in Hx. }
      rewrite Hframe2 by lia. apply Hframe. lia.
    + unfold fresh_inputs, wires. repeat constructor; lia.
Qed.

Lemma chain_inv_step n i j st s :
  chain_inv j st s →
  chain_inv (S j) (loop_body switch_test n i st s).1
                  (loop_body switch_test n i st s).2.
Proof.
  destruct st as [[a b] alice].
  intros (GA & GB & calls & HA & HB & Hlen & Hgates & Hsem).
  rewrite loop_body_run. cbn [fst snd chain_inv].
  cbn [gen inputs_alice inputs_bob gates].
  exists (if alice then GA ++ [fresh_inputs (gen s)] else GA),
         (if alice then GB else GB ++ [fresh_inputs (gen s)]),
         (calls ++ [(gen s, a, b)]).
  split; [| split; [| split; [| split]]].
  - destruct alice; [| done]. rewrite flat_map_app, HA. cbn. by rewrite ?app_nil_r.
  - destruct alice; [done |]. rewrite flat_map_app, HB. cbn. by rewrite ?app_nil_r.
  - rewrite length_app, Hlen. cbn. lia.
  - rewrite flat_map_app, Hgates. cbn. by rewrite ?app_nil_r.
  - intros E vA' vB' HrA HrB.
    assert (∃ vA vB v', reads E GA vA ∧ reads E GB vB
              ∧ read4 E (fresh_inputs (gen s)) = Some v'
              ∧ ∀ x, x ∈ decode4 <$> (vA' ++ vB')
                     ↔ x = decode4 v' ∨ x ∈ decode4 <$> (vA ++ vB))
      as (vA & vB & v' & HrA0 & HrB0 & Hv' & Hmem).
    { destruct alice.
      - apply reads_snoc in HrA as (vA & v' & -> & HrA & Hv').
        exists vA, vB', v'. repeat split; try done.
        + rewrite !fmap_app, !elem_of_app. cbn. rewrite list_elem_of_singleton. tauto.
        + rewrite !fmap_app, !elem_of_app. cbn. rewrite list_elem_of_singleton. tauto.
      - apply reads_snoc in HrB as (vB & v' & -> & HrB & Hv').
        exists vA', vB, v'. repeat split; try done.
        + rewrite !fmap_app, !elem_of_app. cbn. rewrite list_elem_of_singleton. tauto.
        + rewrite !fmap_app, !elem_of_app. cbn. rewrite list_elem_of_singleton. tauto. }
    destruct (Hsem E vA vB HrA0 HrB0) as (E1 & ma & mb & Hrun & Hframe & Ha & Hb & Hmax).
    destruct (chain_inv_sem_step E (gen s) a b E1 ma mb v' (gates s) Hrun Hframe Ha Hb Hv')
      as (E2 & Hrun2 & Hframe2 & Hout & Hfresh).
    exists E2, (block_fun ma mb), v'.
    split; [done | split; [done | split; [done | split; [done |]]]].
    rewrite decode4_block_fun. by eapply is_max_extend.
Qed.

Lemma chain_inv_init k :
  chain_inv 0 ((1, 2, 3, 4), (5, 6, 7, 8), true)
    (mkBC 4 k 8 [1; 2; 3; 4] [5; 6; 7; 8] [] []).
Proof.
  exists [(1, 2, 3, 4)], [(5, 6, 7, 8)], [].
  split; [done | split; [done | split; [done | split; [done |]]]].
  intros E vA vB HrA HrB.
  inversion HrA as [| ? va ? tlA Hva HtlA]; subst. inversion HtlA; subst.
  inversion HrB as [| ? vb ? tlB Hvb HtlB]; subst. inversion HtlB; subst.
  exists E, va, vb. cbn [gates gen eval_gates].
  split; [done | split; [done | split; [| split]]].
  - apply read4_holds4; [done |]. cbn. repeat constructor; lia.
  - apply read4_holds4; [done |]. cbn. repeat constructor; lia.
  - apply is_max_two.
Qed.

Lemma chain_with_inv k :
  chain_inv (Z.to_nat (k * 2 - 2))
    (chain_with switch_test (init 4 k)).1 (chain_with switch_test (init 4 k)).2.
Proof.
  unfold chain_with, bind, inputs_alice_extend, inputs_bob_extend, init.
  cbn [set_size bits gen inputs_alice inputs_bob outputs gates app get_next_id].
  change (2 * 4) with 8.
  rewrite <- (length_range (k * 2 - 2)).
  apply (for_each_ind chain_inv (loop_body switch_test (k * 2))
           (range (k * 2 - 2))
           (λ j x st s, chain_inv_step (k * 2) x j st s) 0%nat).
  apply chain_inv_init.
Qed.

(** The assembled circuit, whatever the switch test: the gate list is the
    concatenation of the gates of [2k - 2] loop calls and one last call of
    the comparator, the last four outputs are the wires the last call
    returned, and on any valuation of the input groups the gates run and
    leave the maximum on those wires. *)
Lemma assemble_with_sem k :
  let z := (assemble_with switch_test (init 4 k)).1 in
  let s := (assemble_with switch_test (init 4 k)).2 in
  ∃ (GA GB : list wires4) (calls : list block_call),
    inputs_alice s = flat_map wires GA ∧
    inputs_bob s = flat_map wires GB ∧
    length calls = S (Z.to_nat (k * 2 - 2)) ∧
    gates s = flat_map gates_of_call calls ∧
    last_slice 4 (outputs s) = wires z ∧
    ∀ E vA vB, reads E GA vA → reads E GB vB →
      ∃ E' m,
        eval_gates (gates s) E = Some E' ∧
        read4 E' z = Some (encode4 m) ∧
        is_max m (decode4 <$> (vA ++ vB)).
Proof.
  cbn zeta. unfold assemble_with, bind.
  pose proof (chain_with_inv k) as Hinv.
  destruct (chain_with switch_test (init 4 k)) as [[[a b] alice] s].
  cbn [fst snd] in Hinv.
  destruct Hinv as (GA & GB & calls & HA & HB & Hlen & Hgates & Hsem).
  rewrite circuit_block_run. cbn [fst snd inputs_alice inputs_bob outputs gates].
  exists GA, GB, (calls ++ [(gen s, a, b)]).
  split; [done | split; [done | split; [| split; [| split]]]].
  - rewrite length_app, Hlen. cbn. lia.
  - rewrite flat_map_app, Hgates. cbn. by rewrite ?app_nil_r.
  - apply last_slice_app. done.
  - intros E vA vB HrA HrB.
    destruct (Hsem E vA vB HrA HrB) as (E1 & ma & mb & Hrun & _ & Ha & Hb & Hmax).
    destruct (block_gates_eval E1 (gen s) a b ma mb Ha Hb) as (E2 & Hrun2 & Hout & _ & _).
    exists E2, (Z.max (decode4 ma) (decode4 mb)).
    split; [| split; [| done]].
    + rewrite eval_gates_app, Hrun. exact Hrun2.
    + rewrite <- block_fun_max. by eapply holds4_read.
Qed.

End ChainProofs.

(** ** Reading a circuit entry *)

Lemma chunks4_flat_map G : chunks4 (flat_map wires G) = Some G.
Proof.
  induction G as [| [[[w3 w2] w1] w0] G IH]; [done |].
  cbn. by rewrite IH.
Qed.

Lemma length_flat_map_wires G : length (flat_map wires G) = (4 * length G)%nat.
Proof.
  induction G as [| [[[w3 w2] w1] w0] G IH]; [done |].
  cbn [flat_map wires]. rewrite length_app, IH. cbn. lia.
Qed.

Lemma read_values_groups E G va :
  read_values E (flat_map wires G) = Some va →
  ∃ vs, reads E G vs ∧ va = decode4 <$> vs ∧ length va = length G.
Proof.
  unfold read_values. rewrite chunks4_flat_map. cbn.
  destruct (mapM (read4 E) G) as [vs|] eqn:Hvs; [| done].
  cbn. intros [= <-]. apply mapM_Some in Hvs.
  exists vs. split; [done | split; [done |]].
  rewrite length_fmap. symmetry. by eapply Forall2_length.
Qed.

Lemma read4_bits4 E z m :
  read4 E z = Some (encode4 m) → mapM (λ w, E !! w) (wires z) = Some (bits4 m).
Proof.
  destruct z as [[[z3 z2] z1] z0]. unfold read4, encode4, wires, bits4.
  destruct (E !! z3) eqn:E3; [| done]. destruct (E !! z2) eqn:E2; [| done].
  destruct (E !! z1) eqn:E1; [| done]. destruct (E !! z0) eqn:E0; [| done].
  cbn. intros [= -> -> -> ->]. by rewrite E3, E2, E1, E0.
Qed.

(** ** Claims about the synthesizer *)

Lemma set_sizes_all (f : Z → bool) :
  forallb f set_sizes = true → ∀ k, 1 ≤ k ≤ 16 → f k = true.
Proof.
  intros H k Hk. rewrite forallb_forall in H. apply H.
  apply list_elem_of_In, list_elem_of_fmap. exists (Z.to_nat k).
  split; [lia |]. apply elem_of_seq. lia.
Qed.

Lemma lengths_ok_all k : 1 ≤ k ≤ 16 → lengths_ok k = true.
Proof. apply set_sizes_all. vm_compute. reflexivity. Qed.

Lemma circuit_of_sem k E va vb :
  let c := circuit_of 4 k in
  read_values E (c_alice c) = Some va →
  read_values E (c_bob c) = Some vb →
  (4 * length va = length (c_alice c))%nat ∧
  (4 * length vb = length (c_bob c))%nat ∧
  (∃ m, is_max m (va ++ vb) ∧ run_circuit c E = Some (bits4 m)) ∧
  ∃ calls : list block_call,
    length calls = S (Z.to_nat (k * 2 - 2)) ∧
    c_gates c = flat_map gates_of_call calls.
Proof.
  cbn zeta. unfold circuit_of, assemble, run_circuit, entry_of.
  cbn [c_alice c_bob c_out c_gates].
  destruct (assemble_with_sem switch_true_div k)
    as (GA & GB & calls & HA & HB & Hlen & Hgates & Hout & Hsem).
  rewrite HA, HB, Hout. intros Hva Hvb.
  apply read_values_groups in Hva as (vsA & HrA & -> & HlA).
  apply read_values_groups in Hvb as (vsB & HrB & -> & HlB).
  rewrite !length_flat_map_wires.
  split; [lia | split; [lia | split]].
  - destruct (Hsem E vsA vsB HrA HrB) as (E' & m & Hrun & Hz & Hmax).
    exists m. split; [by rewrite <- fmap_app |].
    rewrite Hrun. cbn. by apply read4_bits4.
  - by exists calls.
Qed.

(** C1. For every set size [k] between 1 and 16 and every assignment of
    bits to the wires of the lists 'alice' and 'bob' of the circuit that
    [BooleanCircuit(4, k).complete_circuit()] emits, each party holds [k]
    four-bit values (MSB first), running the gates in list order succeeds,
    and the four 'out' wires carry the MSB-first encoding of the maximum of
    the [2k] values; the gate list is that of exactly [2k - 1] calls of the
    comparator block. *)
Theorem complete_circuit_computes_max (k : Z) (E : gmap Z bool) (va vb : list Z) :
  1 ≤ k ≤ 16 →
  read_values E (c_alice (circuit_of 4 k)) = Some va →
  read_values E (c_bob (circuit_of 4 k)) = Some vb →
  length va = Z.to_nat k ∧ length vb = Z.to_nat k ∧
  (∃ m, is_max m (va ++ vb) ∧ run_circuit (circuit_of 4 k) E = Some (bits4 m)) ∧
  ∃ calls : list block_call,
    length calls = Z.to_nat (2 * k - 1) ∧
    c_gates (circuit_of 4 k) = flat_map gates_of_call calls.
Proof.
  intros Hk Hva Hvb.
  destruct (circuit_of_sem k E va vb Hva Hvb) as (HlA & HlB & Hmax & calls & Hlen & Hg).
  pose proof (lengths_ok_all k Hk) as Hl. apply bool_decide_eq_true in Hl as [HA HB].
  split; [lia | split; [lia | split; [done |]]].
  exists calls. split; [| done]. rewrite Hlen. lia.
Qed.

Lemma complete_circuit_computes_max_witness :
  ∃ m, is_max m ([5] ++ [3]) ∧ run_circuit (circuit_of 4 1) E_5_3 = Some (bits4 m).
Proof.
  refine (proj1 (proj2 (proj2
            (complete_circuit_computes_max 1 E_5_3 [5] [3] _ _ _)))).
  - lia.
  - vm_compute. reflexivity.
  - vm_compute. reflexivity.
Defined.

(** C2. One call of [circuit_block] on wires carrying the four-bit values
    A = (a3,a2,a1,a0) and B = (b3,b2,b1,b0): the gates it emits run, and
    the returned wires (z3,z2,z1,z0) carry max(A,B), MSB first. The MSB is
    the single gate OR(a3,b3), whose value equals the mux form with
    x = (A > B) or (A = B); the three lower bits are the mux gates
    OR(AND(x,ai), AND(NOT x,bi)) on the select wire. *)
Theorem circuit_block_computes_max (s : BooleanCircuit) (E : gmap Z bool)
    (a3 a2 a1 a0 b3 b2 b1 b0 : Z) (va3 va2 va1 va0 vb3 vb2 vb1 vb0 : bool) :
  let a := (a3, a2, a1, a0) in
  let b := (b3, b2, b1, b0) in
  let A := decode4 (va3, va2, va1, va0) in
  let B := decode4 (vb3, vb2, vb1, vb0) in
  let x := (A >? B) || (A =? B) in
  holds4 E (gen s) a (va3, va2, va1, va0) →
  holds4 E (gen s) b (vb3, vb2, vb1, vb0) →
  ∃ (z3 z2 z1 z0 xw nxw p2 q2 p1 q1 p0 q0 : Z) (G : list gate) (E' : gmap Z bool),
    (circuit_block a b s).1 = (z3, z2, z1, z0) ∧
    gates (circuit_block a b s).2 = gates s ++ G ∧
    eval_gates G E = Some E' ∧
    read4 E' (z3, z2, z1, z0) = Some (encode4 (Z.max A B)) ∧
    Gate z3 OR [a3; b3] ∈ G ∧
    E' !! z3 = Some (va3 || vb3) ∧
    va3 || vb3 = mux x va3 vb3 ∧
    E' !! xw = Some x ∧
    Gate nxw NOT [xw] ∈ G ∧
    Gate p2 AND [xw; a2] ∈ G ∧ Gate q2 AND [nxw; b2] ∈ G ∧ Gate z2 OR [p2; q2] ∈ G ∧
    Gate p1 AND [xw; a1] ∈ G ∧ Gate q1 AND [nxw; b1] ∈ G ∧ Gate z1 OR [p1; q1] ∈ G ∧
    Gate p0 AND [xw; a0] ∈ G ∧ Gate q0 AND [nxw; b0] ∈ G ∧ Gate z0 OR [p0; q0] ∈ G ∧
    E' !! z2 = Some (mux x va2 vb2) ∧
    E' !! z1 = Some (mux x va1 vb1) ∧
    E' !! z0 = Some (mux x va0 vb0).
Proof.
  intros a b A B x Ha Hb. subst a b.
  set (c := gen s) in *.
  destruct (block_gates_eval E c _ _ _ _ Ha Hb) as (E' & Hrun & Hout & _ & Hx).
  exists (c + 27), (c + 30), (c + 33), (c + 36), (c + 25), (c + 26),
         (c + 28), (c + 29), (c + 31), (c + 32), (c + 34), (c + 35),
         (block_gates c (a3, a2, a1, a0) (b3, b2, b1, b0)), E'.
  rewrite circuit_block_run. cbn [fst snd gates]. fold c.
  rewrite block_select_ge in Hx. fold A B x in Hx.
  pose proof (msb_is_mux (va3, va2, va1, va0) (vb3, vb2, vb1, vb0)) as Hmsb.
  cbn beta iota in Hmsb. rewrite block_select_ge in Hmsb. fold A B x in Hmsb.
  assert (∀ g, g ∈ drop 24 (block_gates c (a3, a2, a1, a0) (b3, b2, b1, b0)) →
               g ∈ block_gates c (a3, a2, a1, a0) (b3, b2, b1, b0)) as Hin.
  { intros g. apply subseteq_drop. }
  rewrite block_gates_tail in Hin.
  pose proof Hout as Hout'.
  unfold block_out, block_fun, holds4, holds in Hout'.
  rewrite block_select_ge in Hout'. fold A B x in Hout'.
  destruct Hout' as ((_ & H3) & (_ & H2) & (_ & H1) & (_ & H0)).
  split; [done |]. split; [done |]. split; [done |].
  split.
  { rewrite block_fun_max in Hout. by eapply holds4_read. }
  repeat match goal with
         | |- _ ∧ _ => split
         | |- _ ∈ _ => apply Hin;
             repeat first [ apply list_elem_of_here | apply list_elem_of_further ]
         end; done.
Qed.

Lemma circuit_block_computes_max_witness :
  ∃ z3 z2 z1 z0 E',
    (circuit_block (1, 2, 3, 4) (5, 6, 7, 8) (blank 8)).1 = (z3, z2, z1, z0) ∧
    eval_gates (block_gates 8 (1, 2, 3, 4) (5, 6, 7, 8)) E_5_3 = Some E' ∧
    read4 E' (z3, z2, z1, z0) = Some (encode4 5).
Proof.
  destruct (circuit_block_computes_max (blank 8) E_5_3 1 2 3 4 5 6 7 8
              false true false true false false true true)
    as (z3 & z2 & z1 & z0 & _ & _ & _ & _ & _ & _ & _ & _ & G & E'
        & Hz & HG & Hrun & Hread & _).
  - vm_compute. repeat split; discriminate.
  - vm_compute. repeat split; discriminate.
  - exists z3, z2, z1, z0, E'. cbn [gates blank app] in HG. subst G.
    split; [exact Hz | split; [exact Hrun | exact Hread]].
Defined.

Lemma set_sizes_decide (P : Z → Prop) `{!∀ k, Decision (P k)} :
  forallb (λ k, bool_decide (P k)) set_sizes = true → ∀ k, 1 ≤ k ≤ 16 → P k.
Proof.
  intros Hall k Hk. apply (bool_decide_eq_true_1 (P k)).
  exact (set_sizes_all (λ k, @bool_decide (P k) (H k)) Hall k Hk).
Qed.

(** *** Wire numbering *)

Lemma block_gate_ids c a b :
  gate_id <$> block_gates c a b = (λ i, c + Z.of_nat i) <$> seq 1 36.
Proof.
  destruct a as [[[a3 a2] a1] a0], b as [[[b3 b2] b1] b0].
  unfold block_gates, blank. run_block. cbn [snd gates app fmap list_fmap seq gate_id].
  repeat match goal with
         | |- _ :: _ = _ :: _ => apply f_equal2
         | |- @eq Z _ _ => lia
         | |- _ => reflexivity
         end.
Qed.

Lemma offsets_sorted c a n :
  StronglySorted Z.lt ((λ i, c + Z.of_nat i) <$> seq a n).
Proof.
  revert a. induction n as [| n IH]; intros a; cbn; constructor; [apply IH |].
  apply Forall_fmap, Forall_forall. intros i Hi. apply elem_of_seq in Hi. cbn. lia.
Qed.

Lemma block_gate_ids_range c a b g :
  g ∈ gate_id <$> block_gates c a b → c < g ≤ c + 36.
Proof.
  rewrite block_gate_ids. intros (i & -> & Hi)%list_elem_of_fmap.
  apply elem_of_seq in Hi. lia.
Qed.

Lemma fresh_input_id_mono j w : fresh_input_id j w → fresh_input_id (S j) w.
Proof. intros (i & Hi & Hw). exists i. split; lia. Qed.

Lemma block_gate_id_mono j g : block_gate_id j g → block_gate_id (S j) g.
Proof. intros (i & Hi & Hg). exists i. split; lia. Qed.

(** One more block at counter [8 + 40 j]. *)
Lemma numbering_gates_step j (ids : list Z) a b :
  Forall (block_gate_id j) ids → StronglySorted Z.lt ids →
  ((0 < j)%nat → head ids = Some 9) →
  let ids' := ids ++ (gate_id <$> block_gates (8 + 40 * Z.of_nat j) a b) in
  Forall (block_gate_id (S j)) ids' ∧ StronglySorted Z.lt ids'
  ∧ head ids' = Some 9.
Proof.
  intros Hids Hsorted Hhead ids'. subst ids'. split; [| split].
  - apply Forall_app. split.
    + eapply Forall_impl; [exact Hids |]. apply block_gate_id_mono.
    + apply Forall_forall. intros g Hg%block_gate_ids_range.
      exists (Z.of_nat j). lia.
  - apply StronglySorted_app_2; [| done |].
    + intros x y Hx Hy%block_gate_ids_range.
      rewrite Forall_forall in Hids. destruct (Hids x Hx) as (i & Hi & Hxi). lia.
    + rewrite block_gate_ids. apply offsets_sorted.
  - rewrite head_app. destruct j as [| j].
    + destruct ids as [| x ids]; [| by inversion Hids as [| ? ? (i & ? & _)]; lia].
      cbn [head]. rewrite block_gate_ids. done.
    + by rewrite Hhead by lia.
Qed.

Section NumberingProofs.
Variable switch_test : Z → Z → bool.

Lemma numbering_inv_step n i j st s :
  numbering_inv j s →
  numbering_inv (S j) (loop_body switch_test n i st s).2.
Proof.
  destruct st as [[a b] alice].
  intros (Hgen & A' & B' & HA & HB & Hfresh & H45 & Hids & Hsorted & Hhead).
  rewrite loop_body_run. cbn [snd]. unfold numbering_inv.
  cbn [gen inputs_alice inputs_bob gates].
  split; [lia |].
  exists (if alice then A' ++ wires (fresh_inputs (gen s)) else A'),
         (if alice then B' else B' ++ wires (fresh_inputs (gen s))).
  rewrite fmap_app, Hgen.
  destruct (numbering_gates_step j _ a b Hids Hsorted Hhead) as (Hids' & Hsorted' & Hhead').
  assert (Forall (fresh_input_id (S j)) (wires (fresh_inputs (8 + 40 * Z.of_nat j)))) as Hnew.
  { unfold fresh_inputs, wires. repeat constructor; exists (Z.of_nat j); lia. }
  assert (Forall (fresh_input_id (S j)) (A' ++ B')) as Hold.
  { eapply Forall_impl; [exact Hfresh |]. apply fresh_input_id_mono. }
  assert ((0 < j)%nat ∨ 45 ∈ wires (fresh_inputs (8 + 40 * Z.of_nat j))) as H45'.
  { destruct j; [right | left; lia]. cbn. apply list_elem_of_here. }
  apply Forall_app in Hold as [HoldA HoldB].
  split; [| split; [| split; [| split; [| split; [done | split; [done | done]]]]]].
  - destruct alice; [| done]. by rewrite HA, app_assoc.
  - destruct alice; [done |]. by rewrite HB, app_assoc.
  - destruct alice; rewrite !Forall_app; done.
  - intros _. destruct H45' as [Hj | Hin].
    + specialize (H45 Hj). destruct alice; rewrite !elem_of_app in *; tauto.
    + destruct alice; rewrite !elem_of_app; tauto.
Qed.

Lemma numbering_inv_chain k :
  numbering_inv (Z.to_nat (k * 2 - 2)) (chain_with switch_test (init 4 k)).2.
Proof.
  unfold chain_with, bind, inputs_alice_extend, inputs_bob_extend, init.
  cbn [set_size bits gen inputs_alice inputs_bob outputs gates app get_next_id].
  change (2 * 4) with 8.
  rewrite <- (length_range (k * 2 - 2)).
  apply (for_each_ind (λ j _ s, numbering_inv j s) (loop_body switch_test (k * 2))
           (range (k * 2 - 2))
           (λ j x st s, numbering_inv_step (k * 2) x j st s) 0%nat).
  split; [done |]. exists [], []. cbn.
  repeat split; try done; try constructor; lia.
Qed.

(** The numbering of the assembled circuit, whatever the switch test and
    the set size. *)
Lemma numbering_assemble k :
  let s := (assemble_with switch_test (init 4 k)).2 in
  let J := Z.to_nat (k * 2 - 2) in
  ∃ A' B',
    inputs_alice s = [1; 2; 3; 4] ++ A' ∧
    inputs_bob s = [5; 6; 7; 8] ++ B' ∧
    Forall (fresh_input_id J) (A' ++ B') ∧
    ((0 < J)%nat → 45 ∈ A' ++ B') ∧
    Forall (block_gate_id (S J)) (gate_id <$> gates s) ∧
    StronglySorted Z.lt (gate_id <$> gates s) ∧
    head (gate_id <$> gates s) = Some 9.
Proof.
  cbn zeta. unfold assemble_with, bind.
  pose proof (numbering_inv_chain k) as Hinv.
  destruct (chain_with switch_test (init 4 k)) as [[[a b] alice] s].
  cbn [snd] in Hinv.
  destruct Hinv as (Hgen & A' & B' & HA & HB & Hfresh & H45 & Hids & Hsorted & Hhead).
  rewrite circuit_block_run. cbn [snd inputs_alice inputs_bob gates].
  rewrite fmap_app, Hgen.
  destruct (numbering_gates_step _ _ a b Hids Hsorted Hhead) as (Hids' & Hsorted' & Hhead').
  exists A', B'. done.
Qed.

End NumberingProofs.

(** C3, as stated, fails at set size 2: the input wire 45, drawn from the
    counter after the first block, is larger than the gate id 9. *)
Lemma inputs_below_gates_fails_at_2 : ¬ inputs_below_gates (circuit_of 4 2).
Proof.
  intros H. unfold inputs_below_gates in H. rewrite Forall_forall in H.
  assert (45 ∈ input_wires (circuit_of 4 2)) as H45.
  { apply (bool_decide_unpack _). vm_compute. exact I. }
  specialize (H 45 H45). rewrite Forall_forall in H.
  assert (9 ∈ gate_ids (circuit_of 4 2)) as H9.
  { apply (bool_decide_unpack _). vm_compute. exact I. }
  specialize (H 9 H9). lia.
Qed.

(** C3, amended. For every set size [k ≥ 1]: only the eight initial input
    wires [1..8] are numbered before the gates; the gate counter starts at
    9, strictly above them, and increases strictly along the gate list;
    the input wires added by the loop come from the same counter, so they
    never share an id with a gate but each follows a gate with a smaller
    id. Hence every input id is below every gate id exactly when
    [k = 1]. *)
Theorem wire_numbering (k : Z) :
  1 ≤ k →
  numbering (circuit_of 4 k) ∧
  (k = 1 → inputs_below_gates (circuit_of 4 k)) ∧
  (2 ≤ k → ¬ inputs_below_gates (circuit_of 4 k)).
Proof.
  intros Hk.
  destruct (numbering_assemble switch_true_div k)
    as (A' & B' & HA & HB & Hfresh & H45 & Hids & Hsorted & Hhead).
  unfold numbering, inputs_below_gates, input_wires, gate_ids, circuit_of, entry_of, assemble.
  cbn [c_alice c_bob c_gates].
  set (s := (assemble_with switch_true_div (init 4 k)).2) in *. clearbody s.
  rewrite HA, HB.
  change (drop 4 ([1; 2; 3; 4] ++ A') ++ drop 4 ([5; 6; 7; 8] ++ B')) with (A' ++ B').
  assert (9 ∈ gate_id <$> gates s) as H9 by by apply head_Some_elem_of.
  assert (∀ g, g ∈ gate_id <$> gates s → 8 < g) as Hgt.
  { intros g Hg. rewrite Forall_forall in Hids. destruct (Hids g Hg) as (i & Hi & Hgi). lia. }
  assert (∀ w, w ∈ A' ++ B' → 44 < w ∧ w ∉ gate_id <$> gates s) as Hin.
  { intros w Hw. rewrite Forall_forall in Hfresh. destruct (Hfresh w Hw) as (i & Hi & Hwi).
    split; [lia |]. intros Hg. rewrite Forall_forall in Hids.
    destruct (Hids w Hg) as (i' & Hi' & Hgi'). lia. }
  assert (∀ w, w ∈ ([1; 2; 3; 4] ++ A') ++ [5; 6; 7; 8] ++ B' →
               1 ≤ w ≤ 8 ∨ w ∈ A' ++ B') as Hsplit.
  { intros w Hw. rewrite !elem_of_app in Hw. rewrite elem_of_app.
    destruct Hw as [[Hw | Hw] | [Hw | Hw]]; [left | by right; left | left | by right; right];
      repeat (apply elem_of_cons in Hw as [-> | Hw]; [lia |]); by apply elem_of_nil in Hw. }
  split; [| split].
  - split; [done | split; [done | split; [done | split; [done | split; [| split]]]]].
    + apply Forall_forall. exact Hgt.
    + apply Forall_forall. intros w Hw Hg.
      destruct (Hsplit w Hw) as [Hw' | Hw'].
      * specialize (Hgt w Hg). lia.
      * by destruct (Hin w Hw').
    + apply Forall_forall. intros w Hw. apply Exists_exists. exists 9.
      split; [done |]. destruct (Hin w Hw). lia.
  - intros ->. cbn in Hfresh.
    assert (A' ++ B' = []) as Hnil.
    { destruct (A' ++ B') as [| w l]; [done |].
      inversion Hfresh as [| ? ? (i & ? & _)]; lia. }
    apply Forall_forall. intros w Hw. apply Forall_forall. intros g Hg.
    specialize (Hgt g Hg). destruct (Hsplit w Hw) as [Hw' | Hw']; [lia |].
    rewrite Hnil in Hw'. by apply elem_of_nil in Hw'.
  - intros Hk2 Hbelow. rewrite Forall_forall in Hbelow.
    assert (45 ∈ A' ++ B') as H45' by (apply H45; lia).
    assert (45 ∈ ([1; 2; 3; 4] ++ A') ++ [5; 6; 7; 8] ++ B') as Hw.
    { rewrite !elem_of_app in *. tauto. }
    specialize (Hbelow 45 Hw). rewrite Forall_forall in Hbelow.
    specialize (Hbelow 9 H9). lia.
Qed.

Lemma wire_numbering_witness :
  numbering (circuit_of 4 3) ∧ ¬ inputs_below_gates (circuit_of 4 3).
Proof.
  pose proof (wire_numbering 3 ltac:(lia)) as (Hn & _ & Hnot).
  split; [exact Hn | apply Hnot; lia].
Defined.

(** *** Input partition *)

(** C4. For every set size [k] between 1 and 16 the lists 'alice' and
    'bob' have no wire in common and each has exactly [4k] wires, that is
    [k] groups of four. *)
Theorem inputs_partition (k : Z) :
  1 ≤ k ≤ 16 → partitioned k (circuit_of 4 k).
Proof.
  revert k. apply (set_sizes_decide (λ k, partitioned k (circuit_of 4 k))).
  vm_compute. reflexivity.
Qed.

Lemma inputs_partition_witness : partitioned 5 (circuit_of 4 5).
Proof. apply (inputs_partition 5). lia. Defined.

(** *** Well-formedness *)

Lemma defined_before_split defined gs pre g post :
  defined_before defined gs → gs = pre ++ g :: post →
  Forall (λ w, w ∈ defined ∨ w ∈ gate_id <$> pre) (gate_in g).
Proof.
  revert defined gs. induction pre as [|p pre IH]; intros defined gs Hd ->.
  - destruct Hd as [Hg _]. eapply Forall_impl; [exact Hg |]. cbn. auto.
  - destruct Hd as [_ Hd]. specialize (IH _ _ Hd eq_refl).
    eapply Forall_impl; [exact IH |]. cbn. intros w [Hw | Hw].
    + apply elem_of_cons in Hw as [-> | Hw]; [right; left | by left].
    + right. by right.
Qed.

Lemma StronglySorted_lt_NoDup (l : list Z) : StronglySorted Z.lt l → NoDup l.
Proof.
  induction 1 as [| x l Hs IH Hall]; constructor; [| done].
  intros Hx. rewrite Forall_forall in Hall. specialize (Hall _ Hx). lia.
Qed.

Lemma well_formed_all k : 1 ≤ k ≤ 16 → well_formed (circuit_of 4 k).
Proof.
  revert k. apply (set_sizes_decide (λ k, well_formed (circuit_of 4 k))).
  vm_compute. reflexivity.
Qed.

(** The 'out' wires are the wires the last comparator call returns, and
    they are ids of OR gates of that call (any bit width, any set size). *)
Lemma out_is_last_block bits k :
  let '((a, b, _), s) := chain (init bits k) in
  let c := circuit_of bits k in
  c_out c = wires (circuit_block a b s).1 ∧
  c_gates c = gates s ++ block_gates (gen s) a b ∧
  Forall (λ w, ∃ i j, Gate w OR [i; j] ∈ block_gates (gen s) a b) (c_out c).
Proof.
  unfold circuit_of, assemble, assemble_with, bind. fold chain.
  destruct (chain (init bits k)) as [[[a b] alice] s].
  rewrite circuit_block_run. cbn [entry_of c_out c_gates fst snd outputs gates].
  rewrite last_slice_app by done.
  split; [done | split; [done |]].
  destruct a as [[[a3 a2] a1] a0], b as [[[b3 b2] b1] b0].
  assert (∀ g, g ∈ drop 24 (block_gates (gen s) (a3, a2, a1, a0) (b3, b2, b1, b0)) →
               g ∈ block_gates (gen s) (a3, a2, a1, a0) (b3, b2, b1, b0)) as Hin.
  { intros g. apply subseteq_drop. }
  rewrite block_gates_tail in Hin.
  unfold block_out, wires.
  repeat (apply Forall_cons; split;
          [do 2 eexists; apply Hin;
           repeat first [ apply list_elem_of_here | apply list_elem_of_further ] |]).
  apply Forall_nil_2.
Qed.

(** C6. Every circuit synthesized for bit width 4 and a set size between
    1 and 16 is well-formed: each gate reads only input wires (members of
    'alice' or 'bob') or ids of gates earlier in the list; gate ids increase
    strictly along the list, hence are pairwise distinct; 'out' has exactly
    four wires, the ones the last comparator call returns, each the id of a
    gate of that call. *)
Theorem circuit_well_formed (k : Z) :
  1 ≤ k ≤ 16 →
  let c := circuit_of 4 k in
  (∀ pre g post, c_gates c = pre ++ g :: post →
     Forall (λ w, w ∈ c_alice c ++ c_bob c ∨ w ∈ gate_id <$> pre) (gate_in g)) ∧
  StronglySorted Z.lt (gate_id <$> c_gates c) ∧
  NoDup (gate_id <$> c_gates c) ∧
  length (c_out c) = 4%nat ∧
  let '((a, b, _), s) := chain (init 4 k) in
  c_out c = wires (circuit_block a b s).1 ∧
  c_gates c = gates s ++ block_gates (gen s) a b ∧
  Forall (λ w, ∃ i j, Gate w OR [i; j] ∈ block_gates (gen s) a b) (c_out c).
Proof.
  intros Hk c. destruct (well_formed_all k Hk) as (Hdef & Hsorted & Hout).
  split; [| split; [| split; [| split]]].
  - intros pre g post Hsplit. by eapply defined_before_split.
  - done.
  - by apply StronglySorted_lt_NoDup.
  - done.
  - apply (out_is_last_block 4 k).
Qed.

Lemma circuit_well_formed_witness :
  StronglySorted Z.lt (gate_id <$> c_gates (circuit_of 4 2)) ∧
  length (c_out (circuit_of 4 2)) = 4%nat.
Proof.
  pose proof (circuit_well_formed 2 ltac:(lia)) as (_ & Hs & _ & Hl & _).
  exact (conj Hs Hl).
Defined.

(** *** Ownership of the fresh inputs *)

Lemma switch_true_div_exact m d : 0 < d → switch_true_div m d = (m =? 2 * d).
Proof.
  intros Hd. unfold switch_true_div, Q_eq_int, true_div.
  destruct d as [| p | p]; [lia | | lia].
  apply eq_true_iff_eq. rewrite Qeq_bool_iff, Z.eqb_eq.
  unfold Qeq, Qdiv, Qmult, Qinv, inject_Z. cbn. lia.
Qed.

(** On every operand pair the loop meets for set sizes up to 16
    ([n - 2 ≤ 30], [1 ≤ i + 1 ≤ 30]) the float test and the rational test
    agree. *)
Lemma switch_binary64_agrees m d :
  0 ≤ m ≤ 30 → 1 ≤ d ≤ 30 → switch_binary64 m d = switch_true_div m d.
Proof.
  intros Hm Hd.
  assert (forallb (λ m, forallb (λ d, bool_decide
            (switch_binary64 m d = switch_true_div m d))
            (Z.of_nat <$> seq 1 30)) (Z.of_nat <$> seq 0 31) = true) as Hall
    by (vm_compute; reflexivity).
  rewrite forallb_forall in Hall. specialize (Hall m).
  rewrite forallb_forall in Hall.
  apply (bool_decide_eq_true_1 (switch_binary64 m d = switch_true_div m d)), Hall.
  - apply list_elem_of_In, list_elem_of_fmap. exists (Z.to_nat m).
    split; [lia |]. apply elem_of_seq. lia.
  - apply list_elem_of_In, list_elem_of_fmap. exists (Z.to_nat d).
    split; [lia |]. apply elem_of_seq. lia.
Qed.

(** C5, as stated, fails at set size 5: with [n - 2 = 8] the integer
    quotient is 2 both at [i + 1 = 3] and at [i + 1 = 4], so the
    integer-division reading flips ownership twice. *)
Lemma floor_div_differs_at_5 :
  ¬ (single_switch 5 (circuit_of 4 5)
     ∧ same_ownership (circuit_of 4 5) (circuit_of_floor_div 4 5)).
Proof.
  intros [_ [Ha _]]. revert Ha. vm_compute. discriminate.
Qed.

(** C5, amended. For every set size [k] between 1 and 16 the fresh inputs
    of iterations [0 .. k-2] go to Alice and those of iterations
    [k-1 .. 2k-3] go to Bob: one switch, after iteration [k-2]. The
    true-division test [(n-2)/(i+1) == 2] holds exactly when
    [n-2 = 2(i+1)], on the exact quotient and on its binary64 value alike;
    the integer-division test gives the same ownership only for [k ≤ 4]
    and a different one for every [5 ≤ k ≤ 16]. *)
Theorem ownership_single_switch (k : Z) :
  1 ≤ k ≤ 16 →
  single_switch k (circuit_of 4 k) ∧
  (∀ i, 0 ≤ i → switch_true_div (k * 2 - 2) (i + 1) = (k * 2 - 2 =? 2 * (i + 1))) ∧
  (∀ i, 0 ≤ i < k * 2 - 2 →
     switch_binary64 (k * 2 - 2) (i + 1) = (k * 2 - 2 =? 2 * (i + 1))) ∧
  (k ≤ 4 → same_ownership (circuit_of 4 k) (circuit_of_floor_div 4 k)) ∧
  (5 ≤ k → ¬ same_ownership (circuit_of 4 k) (circuit_of_floor_div 4 k)).
Proof.
  intros Hk.
  assert (ownership_ok k) as (H1 & H2 & H3).
  { revert k Hk. apply (set_sizes_decide ownership_ok). vm_compute. reflexivity. }
  split; [done | split; [| split; [| done]]].
  - intros i Hi. apply switch_true_div_exact. lia.
  - intros i Hi. rewrite switch_binary64_agrees by lia.
    apply switch_true_div_exact. lia.
Qed.

Lemma ownership_single_switch_witness :
  single_switch 3 (circuit_of 4 3)
  ∧ same_ownership (circuit_of 4 3) (circuit_of_floor_div 4 3).
Proof.
  pose proof (ownership_single_switch 3 ltac:(lia)) as (H1 & _ & _ & H2 & _).
  split; [exact H1 | apply H2; lia].
Defined.

(** *** The output path *)

(** A quotient that is an integer below [2^53] is a float: nothing is
    rounded. *)
Lemma nearest_binary64_exact z B :
  0 < z < 2 ^ 53 → 0 < B →
  ∃ p, p ≤ 0 ∧ nearest_binary64 (z * B) B = (z * 2 ^ (- p), p).
Proof.
  intros Hz HB. unfold nearest_binary64.
  set (e0 := Z.log2 (z * B) - Z.log2 B).
  assert (Z.log2 z < 53) as Hlz by (apply Z.log2_lt_pow2; lia).
  assert (e0 ≤ Z.log2 z + 1) as He0.
  { subst e0. pose proof (Z.log2_mul_above z B ltac:(lia) ltac:(lia)). lia. }
  set (e := if _ <? _ then e0 - 1 else e0).
  assert (e ≤ 52) as He.
  { subst e.
    destruct (Z.ltb_spec (z * B * 2 ^ Z.max 0 (- e0)) (B * 2 ^ Z.max 0 e0))
      as [Hlt | Hge]; [lia |].
    destruct (decide (e0 ≤ 52)) as [| Hbig]; [done |].
    assert (e0 = 53) as He53 by lia. exfalso.
    rewrite He53 in Hge. change (Z.max 0 (- 53)) with 0 in Hge.
    change (Z.max 0 53) with 53 in Hge. rewrite Z.pow_0_r, Z.mul_1_r in Hge.
    destruct Hz as [_ Hz]. revert Hz Hge. generalize (2 ^ 53). intros c Hz Hge. nia. }
  clearbody e. clear e0 He0.
  set (p := Z.max (e - 52) (-1074)).
  assert (p ≤ 0) as Hp by lia. clearbody p.
  exists p. split; [done |].
  replace (Z.max 0 (- p)) with (- p) by lia.
  replace (Z.max 0 p) with 0 by lia.
  rewrite Z.pow_0_r, Z.mul_1_r.
  replace (z * B * 2 ^ (- p)) with (z * 2 ^ (- p) * B) by lia.
  rewrite Z.div_mul, Z.mod_mul by lia.
  replace (B <? 2 * 0) with false by (symmetry; apply Z.ltb_ge; lia).
  replace (B =? 2 * 0) with false by (symmetry; apply Z.eqb_neq; lia).
  done.
Qed.

(** [int(n / 2)] for [n = 2k]: below [2^53] in size it is [k]. *)
Lemma py_int_half k :
  - 2 ^ 53 < k < 2 ^ 53 → py_int <$> py_true_div (k * 2) 2 = Some k.
Proof.
  intros Hk. unfold py_true_div. change (2 =? 0) with false. cbn iota.
  destruct (Z.eqb_spec (k * 2) 0) as [H0 | Hne].
  { cbn. f_equal. lia. }
  destruct (nearest_binary64_exact (Z.abs k) 2) as (p & Hp & Heq); [lia | lia |].
  replace (Z.abs (k * 2)) with (Z.abs k * 2) by lia.
  change (Z.abs 2) with 2. rewrite Heq.
  assert (0 < 2 ^ (- p)) as Hpow by (apply Z.pow_pos_nonneg; lia).
  assert (Z.sgn (k * 2) * Z.sgn 2 * (Z.abs k * 2 ^ (- p)) = k * 2 ^ (- p)) as ->.
  { change (Z.sgn 2) with 1. replace (Z.sgn (k * 2)) with (Z.sgn k) by lia.
    rewrite Z.mul_1_r, Z.mul_assoc. f_equal. lia. }
  destruct (Z.leb_spec 0 p) as [Hp0 | Hpn].
  - assert (p = 0) as -> by lia. cbn [Z.opp] in *. rewrite Z.pow_0_r, !Z.mul_1_r.
    replace (2 ^ 1024 <=? Z.abs k) with false by (symmetry; apply Z.leb_gt; lia).
    cbn. f_equal. lia.
  - cbn [andb fmap option_fmap option_map py_int].
    replace (0 <=? p) with false by (symmetry; apply Z.leb_gt; lia).
    f_equal. apply Z.quot_mul. lia.
Qed.

Lemma last_char_app s c t : last_char (s +:+ String c t) = last_char (String c t).
Proof.
  induction s as [| c' s IH]; [done |].
  change (String c' s +:+ String c t) with (String c' (s +:+ String c t)).
  cbn [last_char]. rewrite IH.
  by destruct s.
Qed.

Lemma last_char_None s : last_char s = None → s = EmptyString.
Proof.
  induction s as [| c s IH]; [done |].
  cbn [last_char]. destruct s as [| c' s]; [done |].
  intros H. by specialize (IH H).
Qed.

(** The directory is [cwd] and ["circuits"], with a slash between them
    unless [cwd] is empty or ends with one. *)
Lemma circuits_dir_cases cwd :
  circuits_dir cwd
  = match last_char cwd with
    | None => "circuits"
    | Some c => if Ascii.eqb c "/" then cwd +:+ "circuits" else cwd +:+ "/circuits"
    end.
Proof.
  unfold circuits_dir, path_join, path_join2. cbn [foldl starts_with_slash].
  change (Ascii.eqb "c" "/") with false. cbn iota.
  destruct (last_char cwd) eqn:Hl; [done |].
  by rewrite (last_char_None cwd Hl).
Qed.

Lemma circuits_dir_last cwd : last_char (circuits_dir cwd) = Some "s"%char.
Proof.
  rewrite circuits_dir_cases.
  destruct (last_char cwd) as [c |]; [| done].
  destruct (Ascii.eqb c "/").
  - by rewrite (last_char_app cwd "c" "ircuits").
  - by rewrite (last_char_app cwd "/" "circuits").
Qed.

(** The circuit path is the directory, a slash and the file name. *)
Lemma circuits_path_dir cwd name :
  starts_with_slash name = false →
  circuits_path cwd name = circuits_dir cwd +:+ "/" +:+ name.
Proof.
  intros Hname. pose proof (circuits_dir_last cwd) as Hl.
  unfold circuits_path, circuits_dir, path_join in *. cbn [foldl] in *.
  set (d := path_join2 cwd "circuits") in *. clearbody d.
  unfold path_join2. by rewrite Hname, Hl.
Qed.

Lemma length_string_app s t :
  String.length (s +:+ t) = (String.length s + String.length t)%nat.
Proof.
  induction s as [| c s IH]; [done |].
  change (String c s +:+ t) with (String c (s +:+ t)).
  cbn [String.length]. by rewrite IH.
Qed.

Lemma circuits_path_not_dir cwd name :
  starts_with_slash name = false → circuits_dir cwd ≠ circuits_path cwd name.
Proof.
  intros Hname Heq. rewrite circuits_path_dir in Heq by done.
  apply (f_equal String.length) in Heq.
  rewrite !length_string_app in Heq. cbn in Heq. lia.
Qed.

Lemma assemble_with_fields sw self :
  bits (assemble_with sw self).2 = bits self
  ∧ set_size (assemble_with sw self).2 = set_size self.
Proof.
  unfold assemble_with, chain_with, bind, inputs_alice_extend, inputs_bob_extend.
  cbn [bits set_size gen inputs_alice inputs_bob outputs gates].
  set (s0 := mkBC _ _ _ _ _ _ _).
  pose proof (for_each_ind
    (λ (_ : nat) (_ : loop_state) s, bits s = bits self ∧ set_size s = set_size self)
    (loop_body sw (set_size self * 2)) (range (set_size self * 2 - 2))) as Hind.
  cbn beta in Hind.
  specialize (Hind (λ j x st s H,
    ltac:(destruct st as [[a b] alice]; rewrite loop_body_run; exact H))
    0%nat ((1, 2, 3, 4), (5, 6, 7, 8), true) s0 (conj eq_refl eq_refl)).
  destruct (for_each _ _ _ s0) as [[[a b] alice] s].
  rewrite circuit_block_run. exact Hind.
Qed.

(** The path written is the one derived from [(bits, set_size)], for set
    sizes below [2^53]. *)
Lemma output_file_stable cwd b k :
  - 2 ^ 53 < k < 2 ^ 53 →
  output_file cwd (assemble (init b k)).2
  = Some (circuits_path cwd
            ("max_" +:+ pretty b +:+ "bits_" +:+ pretty k +:+ "items.json")).
Proof.
  intros Hk. unfold output_file, assemble.
  destruct (assemble_with_fields switch_true_div (init b k)) as [-> ->].
  cbn [bits set_size init].
  pose proof (py_int_half k Hk) as Hhalf.
  destruct (py_true_div (k * 2) 2) as [half |]; [| done].
  cbn in Hhalf |- *. by injection Hhalf as ->.
Qed.

End BooleanSpec.

(** * format.py: properties *)

Module FormatSpec.

Import Boolean Format BooleanSpec.

(** ** Input reading *)

Lemma bits_of_line_app s1 s2 :
  bits_of_line (s1 +:+ s2) = bits_of_line s1 ++ bits_of_line s2.
Proof.
  induction s1 as [| ch s1 IH]; [done |].
  change (String ch s1 +:+ s2) with (String ch (s1 +:+ s2)).
  cbn [bits_of_line]. by rewrite IH, app_assoc.
Qed.

Lemma readlines_from_bits cur s :
  flat_map bits_of_line (readlines_from cur s) = bits_of_line cur ++ bits_of_line s.
Proof.
  revert cur. induction s as [| ch s IH]; intros cur; cbn.
  - destruct cur; cbn; by rewrite ?app_nil_r.
  - destruct (Ascii.eqb ch newline) eqn:Hnl.
    + cbn. rewrite IH, bits_of_line_app. cbn. by rewrite app_nil_r, app_assoc.
    + rewrite IH, bits_of_line_app. cbn. by rewrite app_nil_r, app_assoc.
Qed.

Lemma bits_of_line_significant s : bits_of_line s = significant s.
Proof.
  unfold significant. induction s as [| ch s IH]; [done |].
  cbn [bits_of_line list_ascii_of_string]. rewrite IH. unfold bit_of_character.
  destruct (Ascii.eqb ch "1") eqn:H1.
  - apply Ascii.eqb_eq in H1 as ->. by rewrite filter_cons_True by by right.
  - destruct (Ascii.eqb ch "0") eqn:H0.
    + apply Ascii.eqb_eq in H0 as ->. by rewrite filter_cons_True by by left.
    + apply Ascii.eqb_neq in H1, H0. rewrite filter_cons_False; [done |].
      intros [? | ?]; congruence.
Qed.

Lemma read_bits_significant content : read_bits content = significant content.
Proof.
  unfold read_bits, readlines. rewrite readlines_from_bits. cbn.
  apply bits_of_line_significant.
Qed.

Lemma significant_bits content : Forall bit (significant content).
Proof.
  unfold significant. apply Forall_fmap, Forall_forall. intros ch _. cbn.
  unfold bit. destruct (Ascii.eqb ch "1"); auto.
Qed.

Lemma pad_loop_spec l target :
  pad_loop l target = l ++ replicate (Z.to_nat (target - Z.of_nat (length l))) 0.
Proof.
  funelim (pad_loop l target).
  - match goal with IH : pad_loop _ _ = _ ++ replicate _ _ |- _ => rewrite IH end.
    rewrite length_app, <- app_assoc. cbn [length]. f_equal.
    replace (Z.to_nat (target - Z.of_nat (length l)))
      with (S (Z.to_nat (target - Z.of_nat (length l + 1)%nat))) by lia.
    done.
  - replace (Z.to_nat (target - Z.of_nat (length l))) with 0%nat by lia.
    by rewrite app_nil_r.
Qed.

Lemma trunc_loop_spec l target :
  0 ≤ target → trunc_loop l target = Some (take (Z.to_nat target) l).
Proof.
  intros Ht. funelim (trunc_loop l target).
  - by rewrite take_ge by lia.
  - cbn in *. lia.
  - match goal with IH : 0 ≤ _ → trunc_loop _ _ = _ |- _ => rewrite IH by done end.
    f_equal. assert (x :: l' ≠ []) as Hne by done.
    apply exists_last in Hne as (pre & y & Hpre).
    assert (target < Z.of_nat (length (pre ++ [y]))) as Hlt by by rewrite <- Hpre.
    rewrite Hpre, removelast_last. rewrite length_app in Hlt. cbn [length] in Hlt.
    by rewrite take_app_le by lia.
Qed.

Lemma normalise_loops bs target :
  0 ≤ target →
  trunc_loop (pad_loop bs target) target = Some (normalised bs target)
  ∧ Z.of_nat (length (normalised bs target)) = target.
Proof.
  intros Ht. rewrite trunc_loop_spec, pad_loop_spec by done. unfold normalised.
  destruct (decide (Z.of_nat (length bs) ≤ target)) as [Hle | Hgt].
  - split.
    + rewrite take_ge; [done |]. rewrite length_app, length_replicate. lia.
    + rewrite length_app, length_replicate. lia.
  - replace (Z.to_nat (target - Z.of_nat (length bs))) with 0%nat by lia.
    cbn [replicate]. rewrite app_nil_r. split; [done |].
    rewrite length_take. lia.
Qed.

(** C7. Reading an input file keeps only the characters '0' and '1', in
    order, and ignores every other character; when the number of bits read
    is a multiple of 4, the list handed on has exactly [4k] bits: the bits
    read followed by zeros when there were fewer, the first [4k] of them
    when there were more. *)
Theorem read_input_normalises (json_text : json_doc → string)
    (fs : gmap string file) (path content : string) (k : Z) :
  0 ≤ k →
  fs !! path = Some (TextFile content) →
  Z.of_nat (length (significant content)) mod 4 = 0 →
  read_bits content = significant content ∧
  read_input json_text fs path 4 k = inr (normalised (significant content) (k * 4)) ∧
  Z.of_nat (length (normalised (significant content) (k * 4))) = k * 4 ∧
  (Z.of_nat (length (significant content)) ≤ k * 4 →
     normalised (significant content) (k * 4)
     = significant content
       ++ replicate (Z.to_nat (k * 4 - Z.of_nat (length (significant content)))) 0) ∧
  (k * 4 < Z.of_nat (length (significant content)) →
     normalised (significant content) (k * 4)
     = take (Z.to_nat (k * 4)) (significant content)).
Proof.
  intros Hk Hfile Hmod.
  destruct (normalise_loops (significant content) (k * 4)) as [Hloops Hlen]; [lia |].
  split; [apply read_bits_significant |].
  split; [| split; [done | split]].
  - unfold read_input. rewrite Hfile. cbn [file_text].
    rewrite read_bits_significant, Hmod. cbn. by rewrite Hloops.
  - intros Hle. unfold normalised. by rewrite decide_True.
  - intros Hgt. unfold normalised. by rewrite decide_False by lia.
Qed.

Lemma read_input_normalises_witness :
  read_input (λ _, EmptyString) fs_example "Alice.txt" 4 1 = inr [0; 1; 0; 1].
Proof.
  refine (proj1 (proj2 (read_input_normalises (λ _, EmptyString) fs_example
                          "Alice.txt" "0101, 11x10" 1 _ _ _))).
  - lia.
  - vm_compute. reflexivity.
  - vm_compute. reflexivity.
Defined.

(** ** The plaintext reference *)

Lemma group_parse x3 x2 x1 x0 :
  bit x3 → bit x2 → bit x1 → bit x0 →
  int_base2 (join_empty (pretty <$> [x3; x2; x1; x0]))
  = Some (value_msb [x3; x2; x1; x0])
  ∧ 0 ≤ value_msb [x3; x2; x1; x0] < 16.
Proof.
  intros [-> | ->] [-> | ->] [-> | ->] [-> | ->]; vm_compute; by repeat split.
Qed.

Lemma collect_head x3 x2 x1 x0 y3 y2 y1 y0 a b ss :
  bit x3 → bit x2 → bit x1 → bit x0 → bit y3 → bit y2 → bit y1 → bit y0 →
  collect (x3 :: x2 :: x1 :: x0 :: a) (y3 :: y2 :: y1 :: y0 :: b) 4 0 ss
  = Some ((ss ++ [value_msb [x3; x2; x1; x0]]) ++ [value_msb [y3; y2; y1; y0]]).
Proof.
  intros Hx3 Hx2 Hx1 Hx0 Hy3 Hy2 Hy1 Hy0. unfold collect, slice.
  change (Z.to_nat (0 + 4 - 0)) with 4%nat. change (Z.to_nat 0) with 0%nat.
  change (take 4 (drop 0 (x3 :: x2 :: x1 :: x0 :: a))) with [x3; x2; x1; x0].
  change (take 4 (drop 0 (y3 :: y2 :: y1 :: y0 :: b))) with [y3; y2; y1; y0].
  destruct (group_parse x3 x2 x1 x0) as [-> _]; [done.. |].
  destruct (group_parse y3 y2 y1 y0) as [-> _]; [done.. |].
  done.
Qed.

Lemma collect_shift ga gb a b i ss :
  0 ≤ i → length ga = 4%nat → length gb = 4%nat →
  collect (ga ++ a) (gb ++ b) 4 (i + 4) ss = collect a b 4 i ss.
Proof.
  intros Hi Hga Hgb. unfold collect, slice.
  replace (Z.to_nat (i + 4)) with (length ga + Z.to_nat i)%nat by lia.
  rewrite drop_app_add.
  replace (length ga) with (length gb) by lia.
  rewrite drop_app_add.
  replace (i + 4 + 4 - (i + 4)) with (i + 4 - i) by lia.
  done.
Qed.

Lemma for_opt_shift ga gb a b k s ss :
  length ga = 4%nat → length gb = 4%nat →
  for_opt ((λ j, Z.of_nat j * 4) <$> seq (S s) k) (collect (ga ++ a) (gb ++ b) 4) ss
  = for_opt ((λ j, Z.of_nat j * 4) <$> seq s k) (collect a b 4) ss.
Proof.
  intros Hga Hgb. revert s ss. induction k as [| k IH]; intros s ss; [done |].
  cbn [seq fmap list_fmap for_opt].
  replace (Z.of_nat (S s) * 4) with (Z.of_nat s * 4 + 4) by lia.
  rewrite collect_shift by (done || lia).
  destruct (collect a b 4 (Z.of_nat s * 4) ss) as [ss' |]; cbn; [apply IH | done].
Qed.

Lemma range_step_4 (k : nat) :
  range_step (Z.of_nat (4 * k)) 4 = (λ j, Z.of_nat j * 4) <$> seq 0 k.
Proof.
  unfold range_step. change (4 <? 0) with false. cbn iota.
  replace ((Z.of_nat (4 * k) + 4 - 1) / 4) with (Z.of_nat k).
  - by rewrite Nat2Z.id.
  - apply Z.div_unique with (r := 3); lia.
Qed.

Lemma collect_all (k : nat) (a b ss : list Z) :
  length a = (4 * k)%nat → length b = (4 * k)%nat →
  Forall bit a → Forall bit b →
  for_opt ((λ j, Z.of_nat j * 4) <$> seq 0 k) (collect a b 4) ss
  = Some (ss ++ interleave (group_values a) (group_values b))
  ∧ length (group_values a) = k ∧ length (group_values b) = k
  ∧ Forall (λ v, 0 ≤ v < 16) (group_values a)
  ∧ Forall (λ v, 0 ≤ v < 16) (group_values b).
Proof.
  revert a b ss. induction k as [| k IH]; intros a b ss Hla Hlb Ha Hb.
  - destruct a; [| done]. destruct b; [| done]. cbn. by rewrite app_nil_r.
  - destruct a as [| x3 [| x2 [| x1 [| x0 a]]]]; try (cbn in Hla; lia).
    destruct b as [| y3 [| y2 [| y1 [| y0 b]]]]; try (cbn in Hlb; lia).
    repeat match goal with H : Forall bit (_ :: _) |- _ => apply Forall_cons in H as [? H] end.
    destruct (IH a b ((ss ++ [value_msb [x3; x2; x1; x0]]) ++ [value_msb [y3; y2; y1; y0]]))
      as (Hrun & Hga & Hgb & Hra & Hrb); [cbn in *; lia.. | done | done |].
    destruct (group_parse x3 x2 x1 x0) as [_ Hvx]; [done.. |].
    destruct (group_parse y3 y2 y1 y0) as [_ Hvy]; [done.. |].
    split; [| split; [| split; [| split]]].
    + cbn [seq fmap list_fmap for_opt].
      change (Z.of_nat 0 * 4) with 0. rewrite collect_head by done. cbn [mbind option_bind].
      rewrite (for_opt_shift [x3; x2; x1; x0] [y3; y2; y1; y0] a b k 0) by done.
      rewrite Hrun. unfold group_values. cbn [groups4 fmap list_fmap interleave].
      by rewrite <- !app_assoc.
    + unfold group_values in *. cbn [groups4 fmap list_fmap length]. by rewrite Hga.
    + unfold group_values in *. cbn [groups4 fmap list_fmap length]. by rewrite Hgb.
    + unfold group_values in *. cbn [groups4 fmap list_fmap]. by constructor.
    + unfold group_values in *. cbn [groups4 fmap list_fmap]. by constructor.
Qed.

Lemma py_max_fold x l :
  let m := foldl (λ m y, if m <? y then y else m) x l in
  m ∈ x :: l ∧ x ≤ m ∧ Forall (λ y, y ≤ m) l.
Proof.
  revert x. induction l as [| y l IH]; intros x; cbn.
  - split; [apply list_elem_of_here | split; [lia | constructor]].
  - destruct (IH (if x <? y then y else x)) as (Hin & Hle & Hall).
    destruct (Z.ltb_spec x y).
    + split; [by apply list_elem_of_further | split; [lia | constructor; [lia | done]]].
    + split; [| split; [lia | constructor; [lia | done]]].
      apply elem_of_cons in Hin as [-> | Hin];
        [apply list_elem_of_here | by do 2 apply list_elem_of_further].
Qed.

Lemma py_max_is_max x l : ∃ m, py_max (x :: l) = Some m ∧ is_max m (x :: l).
Proof.
  destruct (py_max_fold x l) as (Hin & Hle & Hall).
  eexists. split; [reflexivity |]. split; [done | by constructor].
Qed.

Lemma elem_of_interleave x xs ys :
  length xs = length ys → x ∈ interleave xs ys ↔ x ∈ xs ++ ys.
Proof.
  revert ys. induction xs as [| a xs IH]; intros [| b ys] Hlen; try done.
  cbn [interleave]. rewrite !elem_of_cons, IH by (cbn in Hlen; lia).
  rewrite !elem_of_app, !elem_of_cons. tauto.
Qed.

Lemma format_bin_4 m : 0 ≤ m < 16 → format_bin 4 m = bin4_string m.
Proof.
  intros Hm.
  assert (m ∈ Z.of_nat <$> seq 0 16) as Hin.
  { apply list_elem_of_fmap. exists (Z.to_nat m). split; [lia |].
    apply elem_of_seq. lia. }
  cbn in Hin.
  repeat (apply elem_of_cons in Hin as [-> | Hin]; [reflexivity |]).
  by apply elem_of_nil in Hin.
Qed.

Lemma traditional_compute_groups (k : Z) (a b : list Z) :
  1 ≤ k →
  Z.of_nat (length a) = k * 4 → Z.of_nat (length b) = k * 4 →
  Forall bit a → Forall bit b →
  ∃ m, is_max m (group_values a ++ group_values b)
       ∧ Z.of_nat (length (group_values a ++ group_values b)) = 2 * k
       ∧ traditional_compute a b 4 = Some (bin4_string m)
       ∧ String.length (bin4_string m) = 4%nat.
Proof.
  intros Hk Hla Hlb Ha Hb.
  destruct (collect_all (Z.to_nat k) a b []) as (Hrun & Hga & Hgb & Hra & Hrb);
    [lia | lia | done | done |].
  unfold traditional_compute. change (4 =? 0) with false. cbn iota.
  replace (Z.of_nat (length a)) with (Z.of_nat (4 * Z.to_nat k)) by lia.
  rewrite range_step_4, Hrun. cbn [app mbind option_bind].
  destruct (group_values a) as [| va vas] eqn:Eva; [cbn in Hga; lia |].
  destruct (group_values b) as [| vb vbs] eqn:Evb; [cbn in Hgb; lia |].
  cbn [interleave].
  destruct (py_max_is_max va (vb :: interleave vas vbs)) as (m & -> & Hin & Hall).
  assert (∀ x, x ∈ va :: vb :: interleave vas vbs ↔ x ∈ (va :: vas) ++ vb :: vbs)
    as Hmem.
  { intros x. change (va :: vb :: interleave vas vbs)
      with (interleave (va :: vas) (vb :: vbs)).
    apply elem_of_interleave. cbn in *. lia. }
  assert (0 ≤ m < 16) as Hm.
  { apply Hmem, elem_of_app in Hin as [Hin | Hin].
    - rewrite Forall_forall in Hra. by apply Hra.
    - rewrite Forall_forall in Hrb. by apply Hrb. }
  exists m. split; [| split; [| split]].
  - split; [by apply Hmem |].
    apply Forall_forall. intros x Hx. apply Hmem in Hx.
    rewrite Forall_forall in Hall. by apply Hall.
  - rewrite length_app. cbn [length] in *. lia.
  - cbn. by rewrite format_bin_4.
  - done.
Qed.

(** C10. On two bit lists of length [4k] each ([k ≥ 1], entries 0 or 1)
    [traditional_compute(a, b, 4)] returns the four-character, MSB-first
    binary string of the maximum of the [2k] values spelled by the
    consecutive four-bit groups of [a] and of [b]. *)
Theorem traditional_compute_max (k : Z) (a b : list Z) :
  1 ≤ k →
  Z.of_nat (length a) = k * 4 → Z.of_nat (length b) = k * 4 →
  Forall bit a → Forall bit b →
  ∃ m, is_max m (group_values a ++ group_values b)
       ∧ Z.of_nat (length (group_values a ++ group_values b)) = 2 * k
       ∧ traditional_compute a b 4 = Some (bin4_string m)
       ∧ String.length (bin4_string m) = 4%nat.
Proof. apply traditional_compute_groups. Qed.

Lemma traditional_compute_max_witness :
  ∃ m, is_max m (group_values [0; 1; 0; 1] ++ group_values [0; 0; 1; 1])
       ∧ traditional_compute [0; 1; 0; 1] [0; 0; 1; 1] 4 = Some (bin4_string m).
Proof.
  destruct (traditional_compute_max 1 [0; 1; 0; 1] [0; 0; 1; 1])
    as (m & Hmax & _ & Hrun & _).
  - lia.
  - reflexivity.
  - reflexivity.
  - repeat constructor; (by left) || (by right).
  - repeat constructor; (by left) || (by right).
  - exists m. exact (conj Hmax Hrun).
Defined.

(** ** Start-up errors and the circuit file *)

Lemma normalised_bits bs target : Forall bit bs → Forall bit (normalised bs target).
Proof.
  intros Hbs. unfold normalised. case_decide.
  - apply Forall_app. split; [done |]. apply Forall_replicate. by left.
  - by apply Forall_take.
Qed.


Lemma lookup_files_of (fs : file_system) path :
  files_of fs !! path
  = match fs !! path with
    | Some (File f) => Some f
    | _ => None
    end.
Proof. unfold files_of. rewrite lookup_omap. by destruct (fs !! path) as [[f |] |]. Qed.

Lemma is_dir_true (fs : file_system) path : is_dir fs path = true ↔ fs !! path = Some Dir.
Proof. unfold is_dir. by destruct (fs !! path) as [[f |] |]. Qed.

Lemma is_dir_false (fs : file_system) path : is_dir fs path = false ↔ fs !! path ≠ Some Dir.
Proof. unfold is_dir. by destruct (fs !! path) as [[f |] |]. Qed.

Lemma path_exists_true (fs : file_system) path :
  path_exists fs path = true ↔ is_Some (fs !! path).
Proof. unfold path_exists. apply bool_decide_eq_true. Qed.

Lemma path_exists_false (fs : file_system) path :
  path_exists fs path = false ↔ fs !! path = None.
Proof.
  unfold path_exists. rewrite bool_decide_eq_false, <- eq_None_not_Some. done.
Qed.

(** The path [main] looks up is the directory, a slash and the name. *)
Lemma circuit_path_dir cwd b k :
  circuit_path cwd b k
  = circuits_dir cwd +:+ "/" +:+ "max_" +:+ pretty b +:+ "bits_"
      +:+ pretty k +:+ "items.json".
Proof. unfold circuit_path. by rewrite circuits_path_dir. Qed.

Lemma circuit_path_not_dir cwd b k : circuits_dir cwd ≠ circuit_path cwd b k.
Proof. unfold circuit_path. by apply circuits_path_not_dir. Qed.

(** [complete_circuit] on a fresh object, for set sizes below [2^53]: the
    path is the one [main] looks up; the file is written when the
    directory exists and the path names no directory, and the method
    raises otherwise. *)
Lemma complete_circuit_run cwd b k (fs : file_system) :
  - 2 ^ 53 < k < 2 ^ 53 →
  complete_circuit cwd (init b k) fs
  = if is_dir fs (circuits_dir cwd) && negb (is_dir fs (circuit_path cwd b k))
    then (Some (circuit_path cwd b k), (assemble (init b k)).2,
          <[circuit_path cwd b k
            := File (JsonFile (json_format (assemble (init b k)).2))]> fs)
    else (None, (assemble (init b k)).2, fs).
Proof.
  intros Hk. unfold complete_circuit. cbn zeta. rewrite output_file_stable by done.
  fold (circuit_path cwd b k). unfold write_json.
  by destruct (is_dir fs (circuits_dir cwd) && negb (is_dir fs (circuit_path cwd b k))).
Qed.

Lemma circuit_stage_reuse cwd b k (fs : file_system) :
  is_Some (fs !! circuit_path cwd b k) →
  circuit_stage cwd b k fs = (Some (circuit_path cwd b k), fs).
Proof.
  intros Hsome. unfold circuit_stage.
  apply path_exists_true in Hsome. by rewrite Hsome.
Qed.

Lemma circuit_stage_generate cwd b k (fs : file_system) :
  - 2 ^ 53 < k < 2 ^ 53 →
  fs !! circuit_path cwd b k = None →
  fs !! circuits_dir cwd = Some Dir →
  circuit_stage cwd b k fs
  = (Some (circuit_path cwd b k),
     <[circuit_path cwd b k
       := File (JsonFile (json_format (assemble (init b k)).2))]> fs).
Proof.
  intros Hk Hnone Hdir. unfold circuit_stage.
  rewrite (proj2 (path_exists_false _ _) Hnone).
  rewrite complete_circuit_run by done.
  rewrite (proj2 (is_dir_true _ _) Hdir).
  rewrite (proj2 (is_dir_false fs (circuit_path cwd b k))) by congruence.
  done.
Qed.

Lemma circuit_stage_raises cwd b k (fs : file_system) :
  - 2 ^ 53 < k < 2 ^ 53 →
  fs !! circuit_path cwd b k = None →
  fs !! circuits_dir cwd ≠ Some Dir →
  circuit_stage cwd b k fs = (None, fs).
Proof.
  intros Hk Hnone Hdir. unfold circuit_stage.
  rewrite (proj2 (path_exists_false _ _) Hnone).
  rewrite complete_circuit_run by done.
  by rewrite (proj2 (is_dir_false _ _) Hdir).
Qed.

(** The three ways the circuit stage can go. *)
Lemma circuit_stage_cases cwd b k (fs : file_system) :
  - 2 ^ 53 < k < 2 ^ 53 →
  (is_Some (fs !! circuit_path cwd b k)
   ∧ circuit_stage cwd b k fs = (Some (circuit_path cwd b k), fs))
  ∨ (fs !! circuit_path cwd b k = None ∧ fs !! circuits_dir cwd = Some Dir
     ∧ circuit_stage cwd b k fs
       = (Some (circuit_path cwd b k),
          <[circuit_path cwd b k
            := File (JsonFile (json_format (assemble (init b k)).2))]> fs))
  ∨ (fs !! circuit_path cwd b k = None ∧ fs !! circuits_dir cwd ≠ Some Dir
     ∧ circuit_stage cwd b k fs = (None, fs)).
Proof.
  intros Hk. destruct (fs !! circuit_path cwd b k) as [n |] eqn:Hc.
  - left. split; [by eexists |]. apply circuit_stage_reuse. by rewrite Hc.
  - right. destruct (is_dir fs (circuits_dir cwd)) eqn:Hd.
    + apply is_dir_true in Hd. left. split; [done | split; [done |]].
      by apply circuit_stage_generate.
    + apply is_dir_false in Hd. right. split; [done | split; [done |]].
      by apply circuit_stage_raises.
Qed.


(** C9. Synthesis is a function of [(bits, set_size)], and its file is
    written and re-used where the directory [circuits] exists: for set
    sizes up to [2^52] in size and any two file systems that have the
    directory, [complete_circuit] on a fresh object returns the same path
    [<cwd>/circuits/max_<bits>bits_<set_size>items.json] and stores the
    same document there; storing it again changes nothing; and the
    harness, started without the circuit file, generates it once and
    re-uses it on the next run. *)
Theorem circuit_file_stable (cwd : string) (b k : Z) (fs fs' : file_system) :
  - 2 ^ 52 ≤ k ≤ 2 ^ 52 →
  fs !! circuits_dir cwd = Some Dir → fs' !! circuits_dir cwd = Some Dir →
  fs !! circuit_path cwd b k = None → fs' !! circuit_path cwd b k ≠ Some Dir →
  let path := circuit_path cwd b k in
  let doc := mkDoc "max" [circuit_of b k] in
  path = circuits_dir cwd +:+ "/" +:+ "max_" +:+ pretty b +:+ "bits_"
           +:+ pretty k +:+ "items.json" ∧
  (∀ c, last_char cwd = Some c → c ≠ "/"%char →
        circuits_dir cwd = cwd +:+ "/circuits") ∧
  (complete_circuit cwd (init b k) fs).1.1 = Some path ∧
  (complete_circuit cwd (init b k) fs').1.1 = Some path ∧
  (complete_circuit cwd (init b k) fs).2 !! path = Some (File (JsonFile doc)) ∧
  (complete_circuit cwd (init b k) fs').2 !! path = Some (File (JsonFile doc)) ∧
  (complete_circuit cwd (init b k) (complete_circuit cwd (init b k) fs).2).2
    = (complete_circuit cwd (init b k) fs).2 ∧
  circuit_stage cwd b k fs = (Some path, <[path := File (JsonFile doc)]> fs) ∧
  circuit_stage cwd b k (circuit_stage cwd b k fs).2
    = (Some path, (circuit_stage cwd b k fs).2).
Proof.
  intros Hk Hdir Hdir' Hnone Hnd' path doc.
  assert (- 2 ^ 53 < k < 2 ^ 53) as Hk' by lia.
  pose proof (circuit_path_not_dir cwd b k) as Hne. fold path in Hne.
  split; [apply circuit_path_dir |].
  split.
  { intros c Hc Hslash. rewrite circuits_dir_cases, Hc.
    destruct (Ascii.eqb_spec c "/") as [-> | _]; done. }
  rewrite !complete_circuit_run by done. fold path.
  change (json_format (assemble (init b k)).2) with doc.
  rewrite (proj2 (is_dir_true fs _) Hdir), (proj2 (is_dir_true fs' _) Hdir').
  rewrite (proj2 (is_dir_false fs path)) by (fold path in Hnone; congruence).
  rewrite (proj2 (is_dir_false fs' path) Hnd').
  cbn [andb negb fst snd].
  rewrite !lookup_insert_eq.
  assert (is_dir (<[path := File (JsonFile doc)]> fs) (circuits_dir cwd) = true) as ->.
  { apply is_dir_true. by rewrite lookup_insert_ne. }
  assert (is_dir (<[path := File (JsonFile doc)]> fs) path = false) as ->.
  { apply is_dir_false. by rewrite lookup_insert_eq. }
  cbn [andb negb snd]. rewrite insert_insert_eq.
  rewrite circuit_stage_generate by done. fold path.
  change (json_format (assemble (init b k)).2) with doc. cbn [snd].
  repeat split; try done.
  apply circuit_stage_reuse. fold path. by rewrite lookup_insert_eq.
Qed.

(** Without the directory [circuits] nothing is written: the method
    raises, here on a fresh object for one value per party. *)
Lemma not_written_without_directory :
  ¬ written_at_stable_path "/home/yao" 4 1 fs_bare.
Proof.
  unfold written_at_stable_path. rewrite complete_circuit_run by lia.
  intros [Hpath _]. vm_compute in Hpath. discriminate.
Qed.

(** Beyond [2^53] the name written is not the one [main] looks up:
    [int(n / 2)] is [2^53] for the set size [2^53 + 1]. *)
Remark output_file_rounds :
  output_file "/home/yao" (init 4 (2 ^ 53 + 1))
  = Some "/home/yao/circuits/max_4bits_9007199254740992items.json".
Proof. vm_compute. reflexivity. Qed.

(** The claim is about fresh objects, as the harness builds them. A second
    [complete_circuit] on the same object would go on from its state: the
    input lists and the gate list grow. *)
Remark second_call_same_object :
  inputs_alice (assemble (assemble (init 4 1)).2).2 = [1; 2; 3; 4; 1; 2; 3; 4]
  ∧ length (gates (assemble (assemble (init 4 1)).2).2) = 72%nat.
Proof. vm_compute. done. Qed.

Lemma circuit_file_stable_witness :
  circuit_stage "/home/yao" 4 5 fs_home
  = (Some "/home/yao/circuits/max_4bits_5items.json",
     <["/home/yao/circuits/max_4bits_5items.json"
       := File (JsonFile (mkDoc "max" [circuit_of 4 5]))]> fs_home).
Proof.
  refine (proj1 (proj2 (proj2 (proj2 (proj2 (proj2 (proj2 (proj2
            (circuit_file_stable "/home/yao" 4 5 fs_home fs_home _ _ _ _ _))))))))).
  - lia.
  - reflexivity.
  - reflexivity.
  - reflexivity.
  - discriminate.
Defined.






(** ** End-to-end scenarios of the design document *)

Example scenario_1 : scenario 1 [0;1;0;1] [0;0;1;1] = Some (bools [0;1;0;1]).
Proof. vm_compute. reflexivity. Qed.

Example scenario_2 : scenario 1 [1;1;1;1] [0;0;0;0] = Some (bools [1;1;1;1]).
Proof. vm_compute. reflexivity. Qed.

Example scenario_3 :
  scenario 2 [0;0;0;1; 0;0;1;0] [0;0;1;1; 0;1;0;0] = Some (bools [0;1;0;0]).
Proof. vm_compute. reflexivity. Qed.

Example scenario_4 :
  scenario 3 [0;1;1;1; 0;0;0;1; 0;0;1;0] [0;0;1;1; 1;0;0;0; 0;1;0;0]
  = Some (bools [1;0;0;0]).
Proof. vm_compute. reflexivity. Qed.

Example scenario_5 :
  scenario 5 [0;0;0;1; 0;0;1;0; 0;0;1;1; 0;1;0;0; 0;1;0;1]
             [0;1;1;0; 0;1;1;1; 1;0;0;0; 1;0;0;1; 1;0;1;0]
  = Some (bools [1;0;1;0]).
Proof. vm_compute. reflexivity. Qed.

Example scenario_6 :
  scenario 2 [1;0;1;0; 0;0;0;0] [1;0;1;0; 0;0;0;0] = Some (bools [1;0;1;0]).
Proof. vm_compute. reflexivity. Qed.

Example scenario_5_reference :
  traditional_compute [0;0;0;1; 0;0;1;0; 0;0;1;1; 0;1;0;0; 0;1;0;1]
                      [0;1;1;0; 0;1;1;1; 1;0;0;0; 1;0;0;1; 1;0;1;0] 4
  = Some "1010".
Proof. vm_compute. reflexivity. Qed.

End FormatSpec.

(** * boolean.py: the synthesizer beyond sixteen values *)

Module CircuitSpec.

Import Boolean BooleanSpec Circuit.

Ltac solve_mem :=
  repeat first [ apply list_elem_of_here | apply list_elem_of_further ].

Lemma block_gates_census c a b :
  length (block_gates c a b) = 36%nat
  ∧ count_type NXOR (block_gates c a b) = 4%nat
  ∧ count_type NOT (block_gates c a b) = 5%nat
  ∧ count_type AND (block_gates c a b) = 19%nat
  ∧ count_type OR (block_gates c a b) = 8%nat.
Proof.
  destruct a as [[[a3 a2] a1] a0], b as [[[b3 b2] b1] b0].
  unfold block_gates, blank. run_block. cbn [snd gates app].
  repeat split; reflexivity.
Qed.

Lemma block_gates_defined c a b :
  defined_before (wires a ++ wires b) (block_gates c a b).
Proof.
  destruct a as [[[a3 a2] a1] a0], b as [[[b3 b2] b1] b0].
  unfold block_gates, blank. run_block. cbn [snd gates app wires defined_before gate_in gate_id].
  repeat match goal with
         | |- _ ∧ _ => split
         | |- Forall _ (_ :: _) => apply Forall_cons
         | |- Forall _ [] => apply Forall_nil_2
         | |- _ ∈ _ => solve [solve_mem]
         | |- True => exact I
         end.
Qed.

(** X1. One call of [circuit_block], from any state of the object and on
    any eight wires: it appends exactly 36 gates to [gates] and the four
    wires it returns to [outputs], leaves [inputs_alice], [inputs_bob],
    [bits] and [set_size] alone and advances the counter by 36; the new
    gates carry the ids [gen+1 .. gen+36] in list order, are 4 NXOR, 5 NOT,
    19 AND and 8 OR gates, and each reads only argument wires of the call
    or outputs of gates emitted earlier in the same call. *)
Theorem circuit_block_frame (s : BooleanCircuit) (a b : wires4) :
  let r := circuit_block a b s in
  let G := block_gates (gen s) a b in
  gates r.2 = gates s ++ G ∧
  outputs r.2 = outputs s ++ wires r.1 ∧
  inputs_alice r.2 = inputs_alice s ∧
  inputs_bob r.2 = inputs_bob s ∧
  bits r.2 = bits s ∧ set_size r.2 = set_size s ∧
  gen r.2 = gen s + 36 ∧
  gate_id <$> G = (λ i, gen s + Z.of_nat i) <$> seq 1 36 ∧
  (count_type NXOR G, count_type NOT G, count_type AND G, count_type OR G)
    = (4, 5, 19, 8)%nat ∧
  defined_before (wires a ++ wires b) G.
Proof.
  cbn zeta. rewrite circuit_block_run. cbn [fst snd gates outputs inputs_alice inputs_bob bits set_size gen].
  destruct (block_gates_census (gen s) a b) as (_ & -> & -> & -> & ->).
  repeat split; try done.
  - apply block_gate_ids.
  - apply block_gates_defined.
Qed.

(** ** The chain for every set size *)

Lemma for_each_seq_ind {St} (I : nat → St → BooleanCircuit → Prop)
    (body : Z → St → M St) (n : nat) :
  (∀ j st s, (j < n)%nat → I j st s →
     I (S j) (body (Z.of_nat j) st s).1 (body (Z.of_nat j) st s).2) →
  ∀ m a st s, (a + m = n)%nat → I a st s →
    I n (for_each (Z.of_nat <$> seq a m) body st s).1
        (for_each (Z.of_nat <$> seq a m) body st s).2.
Proof.
  intros Hstep m. induction m as [| m IH]; intros a st s Ham HI.
  - cbn. by replace n with a by lia.
  - cbn [seq fmap list_fmap for_each]. unfold bind.
    pose proof (Hstep a st s ltac:(lia) HI) as HI'.
    destruct (body (Z.of_nat a) st s) as [st' s']. cbn [fst snd] in HI'.
    apply IH; [lia | done].
Qed.

Lemma for_each_range_ind {St} (I : nat → St → BooleanCircuit → Prop)
    (body : Z → St → M St) (n : nat) :
  (∀ j st s, (j < n)%nat → I j st s →
     I (S j) (body (Z.of_nat j) st s).1 (body (Z.of_nat j) st s).2) →
  ∀ st s, I 0%nat st s →
    I n (for_each (range (Z.of_nat n)) body st s).1
        (for_each (range (Z.of_nat n)) body st s).2.
Proof.
  intros Hstep st s HI. unfold range. rewrite Nat2Z.id.
  by apply (for_each_seq_ind I body n Hstep n 0%nat).
Qed.

Lemma range_nonpos n : n ≤ 0 → range n = [].
Proof. intros Hn. unfold range. by replace (Z.to_nat n) with 0%nat by lia. Qed.

Lemma range_succ n : 0 ≤ n → range (n + 1) = range n ++ [n].
Proof.
  intros Hn. unfold range.
  replace (Z.to_nat (n + 1)) with (S (Z.to_nat n)) by lia.
  rewrite seq_S, map_app. cbn. by rewrite Z2Nat.id.
Qed.

Lemma ownership_inv_step k j st s :
  2 ≤ k → (j < Z.to_nat (k * 2 - 2))%nat →
  ownership_inv k j st s →
  ownership_inv k (S j) (loop_body switch_true_div (k * 2) (Z.of_nat j) st s).1
                        (loop_body switch_true_div (k * 2) (Z.of_nat j) st s).2.
Proof.
  intros Hk Hj. destruct st as [[a b] alice].
  intros (Hgen & Hflag & HA & HB). cbn [snd] in Hflag.
  rewrite loop_body_run. unfold ownership_inv.
  cbn [fst snd gen inputs_alice inputs_bob].
  rewrite switch_true_div_exact by lia.
  replace (Z.of_nat (S j)) with (Z.of_nat j + 1) by lia.
  split; [lia |].
  assert (wires (fresh_inputs (gen s)) = iteration_inputs (Z.of_nat j)) as Hfresh.
  { unfold iteration_inputs. by rewrite Hgen. }
  rewrite Hfresh, Hflag.
  destruct (decide (Z.of_nat j < k - 1)) as [Hlt | Hge].
  - rewrite (bool_decide_eq_true_2 _ Hlt).
    split; [| split].
    + destruct (Z.eqb_spec (k * 2 - 2) (2 * (Z.of_nat j + 1))) as [Heq | Hne]; cbn [negb].
      * by rewrite bool_decide_eq_false_2 by lia.
      * by rewrite bool_decide_eq_true_2 by lia.
    + rewrite HA. replace (Z.min (Z.of_nat j) (k - 1)) with (Z.of_nat j) by lia.
      replace (Z.min (Z.of_nat j + 1) (k - 1)) with (Z.of_nat j + 1) by lia.
      rewrite range_succ by lia. rewrite flat_map_app. cbn [flat_map].
      by rewrite app_nil_r, app_assoc.
    + rewrite HB. by rewrite !(range_nonpos (_ - (k - 1))) by lia.
  - rewrite (bool_decide_eq_false_2 _ Hge).
    split; [| split].
    + destruct (Z.eqb_spec (k * 2 - 2) (2 * (Z.of_nat j + 1))) as [Heq | Hne]; [lia |].
      by rewrite bool_decide_eq_false_2 by lia.
    + rewrite HA. by replace (Z.min (Z.of_nat j + 1) (k - 1))
        with (Z.min (Z.of_nat j) (k - 1)) by lia.
    + rewrite HB.
      replace (Z.of_nat j + 1 - (k - 1)) with (Z.of_nat j - (k - 1) + 1) by lia.
      rewrite range_succ by lia. rewrite fmap_app, flat_map_app. cbn [fmap list_fmap flat_map].
      replace (Z.of_nat j - (k - 1) + (k - 1)) with (Z.of_nat j) by lia.
      by rewrite app_nil_r, app_assoc.
Qed.

Lemma circuit_of_inputs (k : Z) : single_switch k (circuit_of 4 k).
Proof.
  unfold single_switch, circuit_of, entry_of, assemble, assemble_with, bind.
  cbn [c_alice c_bob].
  destruct (decide (k ≤ 1)) as [Hk1 | Hk2].
  - unfold chain_with, bind, inputs_alice_extend, inputs_bob_extend, init.
    cbn [set_size bits gen inputs_alice inputs_bob outputs gates app get_next_id].
    rewrite (range_nonpos (k * 2 - 2)), (range_nonpos (k - 1)) by lia.
    cbn [for_each ret]. rewrite circuit_block_run. done.
  - assert (ownership_inv k (Z.to_nat (k * 2 - 2))
              (chain_with switch_true_div (init 4 k)).1
              (chain_with switch_true_div (init 4 k)).2) as Hinv.
    { unfold chain_with, bind, inputs_alice_extend, inputs_bob_extend, init.
      cbn [set_size bits gen inputs_alice inputs_bob outputs gates app get_next_id].
      change (2 * 4) with 8.
      rewrite <- (Z2Nat.id (k * 2 - 2)) at 2 3 by lia.
      apply (for_each_range_ind (ownership_inv k) (loop_body switch_true_div (k * 2))).
      - intros j st s Hj. apply ownership_inv_step; lia.
      - unfold ownership_inv. cbn.
        rewrite bool_decide_eq_true_2 by lia.
        by rewrite !range_nonpos by lia. }
    destruct (chain_with switch_true_div (init 4 k)) as [[[a b] alice] s].
    destruct Hinv as (_ & _ & HA & HB). cbn [fst snd] in HA, HB.
    rewrite circuit_block_run. cbn [snd inputs_alice inputs_bob].
    rewrite HA, HB.
    replace (Z.min (Z.of_nat (Z.to_nat (k * 2 - 2))) (k - 1)) with (k - 1) by lia.
    by replace (Z.of_nat (Z.to_nat (k * 2 - 2)) - (k - 1)) with (k - 1) by lia.
Qed.

(** X2. For every set size [k] up to [2^52] (not only up to 16, and also
    for [k <= 1], where the loop does not run): 'alice' is [1..4] followed
    by the fresh inputs of loop iterations [0 .. k-2], and 'bob' is [5..8]
    followed by those of iterations [k-1 .. 2k-3]; iteration [i] draws the
    ids [45+40i .. 48+40i]. The true-division test switches the owner
    once. *)
Theorem single_switch_every_size (k : Z) :
  k ≤ 2 ^ 52 → single_switch k (circuit_of 4 k).
Proof. intros _. apply circuit_of_inputs. Qed.

Lemma single_switch_every_size_witness : single_switch 20 (circuit_of 4 20).
Proof. apply (single_switch_every_size 20). lia. Defined.

(** ** The input partition for every set size *)

Lemma elem_of_range n i : i ∈ range n ↔ 0 ≤ i < n.
Proof.
  unfold range. change (map Z.of_nat) with (fmap (M := list) Z.of_nat).
  rewrite list_elem_of_fmap. split.
  - intros (j & -> & Hj). apply elem_of_seq in Hj. lia.
  - intros Hi. exists (Z.to_nat i). split; [lia |]. apply elem_of_seq. lia.
Qed.

Lemma NoDup_range n : NoDup (range n).
Proof.
  unfold range. change (map Z.of_nat) with (fmap (M := list) Z.of_nat).
  apply NoDup_fmap_2; [apply _ | apply NoDup_seq].
Qed.

Lemma elem_of_iteration_inputs i w :
  w ∈ iteration_inputs i ↔ 44 + 40 * i < w ≤ 48 + 40 * i.
Proof.
  unfold iteration_inputs, fresh_inputs, wires.
  rewrite !elem_of_cons, elem_of_nil. lia.
Qed.

Lemma elem_of_flat_map_iteration w l :
  w ∈ flat_map iteration_inputs l ↔ ∃ i, i ∈ l ∧ 44 + 40 * i < w ≤ 48 + 40 * i.
Proof.
  induction l as [| i l IH]; cbn [flat_map].
  - rewrite elem_of_nil. split; [done | intros (i & Hi & _); by apply elem_of_nil in Hi].
  - rewrite elem_of_app, IH, elem_of_iteration_inputs. split.
    + intros [Hw | (i' & Hi' & Hw)]; [exists i | exists i'];
        (split; [| done]); [apply list_elem_of_here | by apply list_elem_of_further].
    + intros (i' & Hi' & Hw). apply elem_of_cons in Hi' as [-> | Hi']; [by left |].
      right. by exists i'.
Qed.

Lemma NoDup_flat_map_iteration l : NoDup l → NoDup (flat_map iteration_inputs l).
Proof.
  induction 1 as [| i l Hi Hl IH]; cbn [flat_map]; [constructor |].
  apply NoDup_app. split; [| split; [| done]].
  - unfold iteration_inputs, fresh_inputs, wires.
    repeat (apply NoDup_cons; split; [rewrite ?elem_of_cons, elem_of_nil; lia |]).
    constructor.
  - intros w Hw%elem_of_iteration_inputs (i' & Hi' & Hw')%elem_of_flat_map_iteration.
    assert (i = i') by lia. by subst.
Qed.

Lemma length_flat_map_iteration l :
  length (flat_map iteration_inputs l) = (4 * length l)%nat.
Proof.
  induction l as [| i l IH]; [done |].
  cbn [flat_map]. rewrite length_app, IH. cbn. lia.
Qed.

Lemma flat_map_iteration_groups l :
  flat_map iteration_inputs l
  = flat_map wires ((λ i, fresh_inputs (8 + 40 * i)) <$> l).
Proof. induction l as [| i l IH]; [done |]. cbn. by rewrite IH. Qed.

Lemma circuit_of_partitioned (k : Z) :
  1 ≤ k →
  partitioned k (circuit_of 4 k) ∧
  NoDup (c_alice (circuit_of 4 k) ++ c_bob (circuit_of 4 k)).
Proof.
  intros Hk. destruct (circuit_of_inputs k) as [HA HB].
  set (c := circuit_of 4 k) in *. clearbody c.
  assert (length (range (k - 1)) = Z.to_nat (k - 1)) as Hlen by apply length_range.
  assert (NoDup ((λ i, i + (k - 1)) <$> range (k - 1))) as Hnd.
  { apply NoDup_fmap_2_strong; [| apply NoDup_range]. intros; lia. }
  assert (∀ w, w ∈ c_alice c → 1 ≤ w ≤ 4 ∨ ∃ i, 0 ≤ i < k - 1 ∧ 44 + 40 * i < w ≤ 48 + 40 * i) as HinA.
  { intros w. rewrite HA, elem_of_app, elem_of_flat_map_iteration.
    intros [Hw | (i & Hi%elem_of_range & Hw)]; [left | right; eauto].
    repeat (apply elem_of_cons in Hw as [-> | Hw]; [lia |]). by apply elem_of_nil in Hw. }
  assert (∀ w, w ∈ c_bob c → 5 ≤ w ≤ 8 ∨ ∃ i, k - 1 ≤ i ∧ 44 + 40 * i < w ≤ 48 + 40 * i) as HinB.
  { intros w. rewrite HB, elem_of_app, elem_of_flat_map_iteration.
    intros [Hw | (i & Hi & Hw)]; [left | right].
    - repeat (apply elem_of_cons in Hw as [-> | Hw]; [lia |]). by apply elem_of_nil in Hw.
    - apply list_elem_of_fmap in Hi as (i0 & -> & Hi0%elem_of_range).
      exists (i0 + (k - 1)). split; [lia | done]. }
  assert (∀ w, w ∈ c_alice c → w ∉ c_bob c) as Hdisj.
  { intros w [HwA | (i & Hi & HwA)]%HinA [HwB | (i' & Hi' & HwB)]%HinB; lia. }
  split; [split; [| split; [| split; [| split]]] |].
  - apply Forall_forall. exact Hdisj.
  - rewrite HA, length_app, length_flat_map_iteration, Hlen. cbn. lia.
  - rewrite HB, length_app, length_flat_map_iteration, length_fmap, Hlen. cbn. lia.
  - rewrite HA, flat_map_iteration_groups.
    change ([1; 2; 3; 4] ++ ?l) with (flat_map wires ((1, 2, 3, 4) :: []) ++ l).
    rewrite <- flat_map_app, chunks4_flat_map. cbn.
    rewrite length_fmap, Hlen. f_equal. lia.
  - rewrite HB, flat_map_iteration_groups.
    change ([5; 6; 7; 8] ++ ?l) with (flat_map wires ((5, 6, 7, 8) :: []) ++ l).
    rewrite <- flat_map_app, chunks4_flat_map. cbn.
    rewrite !length_fmap, Hlen. f_equal. lia.
  - apply NoDup_app. split; [| split; [done |]].
    + rewrite HA. apply NoDup_app. split; [| split].
      * repeat (apply NoDup_cons; split; [rewrite ?elem_of_cons, elem_of_nil; lia |]).
        constructor.
      * intros w Hw (i & Hi%elem_of_range & Hw')%elem_of_flat_map_iteration.
        repeat (apply elem_of_cons in Hw as [-> | Hw]; [lia |]). by apply elem_of_nil in Hw.
      * apply NoDup_flat_map_iteration, NoDup_range.
    + rewrite HB. apply NoDup_app. split; [| split].
      * repeat (apply NoDup_cons; split; [rewrite ?elem_of_cons, elem_of_nil; lia |]).
        constructor.
      * intros w Hw (i & Hi & Hw')%elem_of_flat_map_iteration.
        apply list_elem_of_fmap in Hi as (i0 & -> & Hi0%elem_of_range).
        repeat (apply elem_of_cons in Hw as [-> | Hw]; [lia |]). by apply elem_of_nil in Hw.
      * by apply NoDup_flat_map_iteration.
Qed.

(** X3. For every set size [k] from 1 to [2^52]: 'alice' and 'bob' share
    no wire, have [4k] wires each, in [k] groups of four, and no wire id
    occurs twice among all [8k] of them. *)
Theorem inputs_partition_every_size (k : Z) :
  1 ≤ k ≤ 2 ^ 52 →
  partitioned k (circuit_of 4 k) ∧
  NoDup (c_alice (circuit_of 4 k) ++ c_bob (circuit_of 4 k)).
Proof. intros [Hk _]. by apply circuit_of_partitioned. Qed.

Lemma inputs_partition_every_size_witness :
  partitioned 20 (circuit_of 4 20) ∧
  NoDup (c_alice (circuit_of 4 20) ++ c_bob (circuit_of 4 20)).
Proof. apply (inputs_partition_every_size 20). lia. Defined.

(** ** Topological order and arity, for every set size *)

Lemma defined_before_mono D D' gs :
  (∀ w, w ∈ D → w ∈ D') → defined_before D gs → defined_before D' gs.
Proof.
  revert D D'. induction gs as [| g gs IH]; intros D D' Hsub; [done |].
  cbn. intros [Hg Hgs]. split.
  - eapply Forall_impl; [exact Hg | exact Hsub].
  - apply (IH (gate_id g :: D)); [| done].
    intros w [-> | Hw]%elem_of_cons; [apply list_elem_of_here |].
    apply list_elem_of_further. by apply Hsub.
Qed.

Lemma defined_before_app D D2 g1 g2 :
  defined_before D g1 → defined_before D2 g2 →
  (∀ w, w ∈ D2 → w ∈ D ∨ w ∈ gate_id <$> g1) →
  defined_before D (g1 ++ g2).
Proof.
  revert D. induction g1 as [| g g1 IH]; intros D H1 H2 Hsub.
  - cbn. apply (defined_before_mono D2); [| done].
    intros w Hw. destruct (Hsub w Hw) as [? | Hnil]; [done |].
    by apply elem_of_nil in Hnil.
  - destruct H1 as [Hg H1]. cbn. split; [done |].
    apply IH; [done | done |].
    intros w Hw. destruct (Hsub w Hw) as [HD | Hid].
    + left. by apply list_elem_of_further.
    + cbn in Hid. apply elem_of_cons in Hid as [-> | Hid];
        [left; apply list_elem_of_here | by right].
Qed.

Lemma block_gates_arity c a b : Forall arity_ok (block_gates c a b).
Proof.
  destruct a as [[[a3 a2] a1] a0], b as [[[b3 b2] b1] b0].
  unfold block_gates, blank. run_block. cbn [snd gates app].
  repeat constructor.
Qed.

Lemma block_out_ids c a b w :
  w ∈ wires (block_out c) → w ∈ gate_id <$> block_gates c a b.
Proof.
  rewrite block_gate_ids. unfold block_out, wires. intros Hw.
  apply list_elem_of_fmap. rewrite !elem_of_cons, elem_of_nil in Hw.
  destruct Hw as [-> | [-> | [-> | [-> | []]]]];
    [exists 27%nat | exists 30%nat | exists 33%nat | exists 36%nat];
    (split; [lia | apply elem_of_seq; lia]).
Qed.

Section OrderProofs.
Variable switch_test : Z → Z → bool.

Lemma order_inv_step n i (j : nat) st s :
  order_inv st s →
  order_inv (loop_body switch_test n i st s).1 (loop_body switch_test n i st s).2.
Proof.
  clear j. destruct st as [[a b] alice]. intros (Hdef & Ha & Hb).
  rewrite loop_body_run. cbn [fst snd order_inv inputs_alice inputs_bob gates].
  set (new := wires (fresh_inputs (gen s))).
  assert (∀ w, w ∈ inputs_alice s ++ inputs_bob s →
               w ∈ (if alice then inputs_alice s ++ new else inputs_alice s)
                   ++ (if alice then inputs_bob s else inputs_bob s ++ new)) as Hgrow.
  { intros w. destruct alice; rewrite !elem_of_app; tauto. }
  split; [| split].
  - intros D HD. apply (defined_before_app D (wires a ++ wires b)).
    + apply Hdef. intros w Hw. by apply HD, Hgrow.
    + apply block_gates_defined.
    + intros w [Hw | Hw]%elem_of_app.
      * destruct (Ha w Hw) as [Hin | Hid]; [left; by apply HD, Hgrow | by right].
      * left. by apply HD, Hgrow, Hb.
  - intros w Hw. right. rewrite fmap_app, elem_of_app. right.
    by apply block_out_ids.
  - intros w Hw. fold new in Hw. destruct alice; rewrite !elem_of_app; tauto.
Qed.

Lemma order_inv_assemble bw k :
  let s := (assemble_with switch_test (init bw k)).2 in
  defined_before (inputs_alice s ++ inputs_bob s) (gates s).
Proof.
  cbn zeta. unfold assemble_with, bind.
  assert (order_inv (chain_with switch_test (init bw k)).1
                    (chain_with switch_test (init bw k)).2) as Hinv.
  { unfold chain_with, bind, inputs_alice_extend, inputs_bob_extend, init.
    cbn [set_size bits gen inputs_alice inputs_bob outputs gates app get_next_id].
    apply (for_each_ind (λ _ st s, order_inv st s) (loop_body switch_test (k * 2))
             (range (k * 2 - 2))
             (λ j x st s, order_inv_step (k * 2) x j st s) 0%nat).
    unfold order_inv. cbn [inputs_alice inputs_bob gates].
    split; [done | split].
    - intros w Hw. left. apply elem_of_app. by left.
    - intros w Hw. apply elem_of_app. by right. }
  destruct (chain_with switch_test (init bw k)) as [[[a b] alice] s].
  destruct Hinv as (Hdef & Ha & Hb).
  rewrite circuit_block_run. cbn [snd inputs_alice inputs_bob gates].
  apply (defined_before_app _ (wires a ++ wires b)).
  - by apply Hdef.
  - apply block_gates_defined.
  - intros w [Hw | Hw]%elem_of_app; [by apply Ha | left; by apply Hb].
Qed.

End OrderProofs.

Lemma flat_map_calls_Forall (P : gate → Prop) calls :
  (∀ c a b, Forall P (block_gates c a b)) →
  Forall P (flat_map gates_of_call calls).
Proof.
  intros HP. induction calls as [| [[c a] b] calls IH]; cbn; [constructor |].
  apply Forall_app. split; [apply HP | done].
Qed.

Lemma count_type_calls ty calls n :
  (∀ c a b, count_type ty (block_gates c a b) = n) →
  count_type ty (flat_map gates_of_call calls) = (n * length calls)%nat.
Proof.
  intros Hn. induction calls as [| [[c a] b] calls IH]; cbn [flat_map length]; [cbn; lia |].
  unfold count_type in *. rewrite filter_app, length_app, IH.
  cbn [gates_of_call]. rewrite Hn. lia.
Qed.

Lemma length_calls calls :
  length (flat_map gates_of_call calls) = (36 * length calls)%nat.
Proof.
  induction calls as [| [[c a] b] calls IH]; cbn [flat_map length]; [done |].
  rewrite length_app, IH. cbn [gates_of_call].
  destruct (block_gates_census c a b) as [-> _]. lia.
Qed.

(** X4. For every set size [k], whatever its value: each gate of the
    emitted list reads only wires of 'alice' or 'bob' or outputs of gates
    before it in the list; NOT gates have one input and the others two;
    gate ids increase strictly along the list, so no id is used twice; the
    entry has four 'out' wires and each is the id of a gate. *)
Theorem circuit_well_formed_every_size (k : Z) :
  let c := circuit_of 4 k in
  (∀ pre g post, c_gates c = pre ++ g :: post →
     Forall (λ w, w ∈ c_alice c ++ c_bob c ∨ w ∈ gate_id <$> pre) (gate_in g)) ∧
  Forall arity_ok (c_gates c) ∧
  StronglySorted Z.lt (gate_id <$> c_gates c) ∧
  NoDup (gate_id <$> c_gates c) ∧
  length (c_out c) = 4%nat ∧
  Forall (λ w, w ∈ gate_id <$> c_gates c) (c_out c).
Proof.
  cbn zeta.
  pose proof (order_inv_assemble switch_true_div 4 k) as Hdef. cbn zeta in Hdef.
  destruct (numbering_assemble switch_true_div k)
    as (_ & _ & _ & _ & _ & _ & _ & Hsorted & _).
  destruct (assemble_with_sem switch_true_div k)
    as (_ & _ & calls & _ & _ & _ & Hgates & _).
  pose proof (out_is_last_block 4 k) as Hout.
  unfold circuit_of, entry_of, assemble in *. cbn [c_alice c_bob c_gates c_out] in *.
  destruct (chain (init 4 k)) as [[[a b] alice] s0].
  destruct Hout as (Hout & Hg & Hor).
  set (s := (assemble_with switch_true_div (init 4 k)).2) in *. clearbody s.
  split; [| split; [| split; [| split; [| split]]]].
  - intros pre g post Hsplit. by eapply defined_before_split.
  - rewrite Hgates. apply flat_map_calls_Forall, block_gates_arity.
  - done.
  - by apply StronglySorted_lt_NoDup.
  - rewrite Hout, circuit_block_run. done.
  - eapply Forall_impl; [exact Hor |]. cbn. intros w (i & j & Hin).
    rewrite Hg, fmap_app, elem_of_app. right.
    apply list_elem_of_fmap. by exists (Gate w OR [i; j]).
Qed.

Lemma circuit_well_formed_every_size_witness :
  Forall (λ w, w ∈ c_alice (circuit_of 4 1) ++ c_bob (circuit_of 4 1) ∨ w ∈ gate_id <$> [])
         (gate_in (Gate 9 NXOR [1; 5])).
Proof.
  refine (proj1 (circuit_well_formed_every_size 1) [] (Gate 9 NXOR [1; 5])
            (tail (c_gates (circuit_of 4 1))) _).
  vm_compute. reflexivity.
Defined.

(** X5. The size of the circuit for every set size [k] from 1 to [2^52]:
    [36(2k-1)] gates, of which [4(2k-1)] NXOR, [5(2k-1)] NOT, [19(2k-1)]
    AND and [8(2k-1)] OR, and [8k] input wires. *)
Theorem circuit_size (k : Z) :
  1 ≤ k ≤ 2 ^ 52 →
  let c := circuit_of 4 k in
  Z.of_nat (length (c_gates c)) = 36 * (2 * k - 1) ∧
  Z.of_nat (count_type NXOR (c_gates c)) = 4 * (2 * k - 1) ∧
  Z.of_nat (count_type NOT (c_gates c)) = 5 * (2 * k - 1) ∧
  Z.of_nat (count_type AND (c_gates c)) = 19 * (2 * k - 1) ∧
  Z.of_nat (count_type OR (c_gates c)) = 8 * (2 * k - 1) ∧
  Z.of_nat (length (c_alice c ++ c_bob c)) = 8 * k.
Proof.
  intros [Hk _]. cbn zeta.
  destruct (circuit_of_partitioned k Hk) as [(_ & HlA & HlB & _) _].
  rewrite length_app, HlA, HlB.
  destruct (assemble_with_sem switch_true_div k)
    as (_ & _ & calls & _ & _ & Hlen & Hgates & _).
  unfold circuit_of, entry_of, assemble. cbn [c_gates].
  rewrite Hgates, length_calls.
  rewrite (count_type_calls NXOR calls 4), (count_type_calls NOT calls 5),
          (count_type_calls AND calls 19), (count_type_calls OR calls 8), Hlen;
    try (intros c a b; by destruct (block_gates_census c a b) as (_ & ? & ? & ? & ?)).
  repeat split; lia.
Qed.

Lemma circuit_size_witness :
  Z.of_nat (length (c_gates (circuit_of 4 20))) = 36 * (2 * 20 - 1).
Proof. apply (circuit_size 20). lia. Defined.

(** ** What a call adds to an object in any state *)

Lemma block_gates_head c a3 a2 a1 a0 b3 b2 b1 b0 :
  ∃ rest, block_gates c (a3, a2, a1, a0) (b3, b2, b1, b0)
          = Gate (c + 1) NXOR [a3; b3] :: rest.
Proof.
  unfold block_gates, blank. run_block. cbn [snd gates app]. by eexists.
Qed.

Section GrowthProofs.
Variable switch_test : Z → Z → bool.

Lemma grows_block s0 a b (s : BooleanCircuit) G :
  gates s = gates s0 ++ G →
  match head G with
  | None => (a, b) = ((1, 2, 3, 4), (5, 6, 7, 8)) ∧ gen s = gen s0
  | Some g => g = Gate (gen s0 + 1) NXOR [1; 5]
  end →
  gates s ++ block_gates (gen s) a b = gates s0 ++ (G ++ block_gates (gen s) a b)
  ∧ head (G ++ block_gates (gen s) a b) = Some (Gate (gen s0 + 1) NXOR [1; 5]).
Proof.
  intros Hg Hhead. split; [by rewrite Hg, app_assoc |].
  destruct G as [| g G]; cbn [head] in *.
  - destruct Hhead as [[= -> ->] ->].
    destruct (block_gates_head (gen s0) 1 2 3 4 5 6 7 8) as [rest ->]. done.
  - by subst g.
Qed.

Lemma grows_step s0 n i (j : nat) st s :
  grows_from s0 st s →
  grows_from s0 (loop_body switch_test n i st s).1 (loop_body switch_test n i st s).2.
Proof.
  clear j. destruct st as [[a b] alice].
  intros (restA & restB & G & HA & HB & Hg & Hhead). cbn [fst snd] in Hhead.
  rewrite loop_body_run. unfold grows_from.
  cbn [fst snd inputs_alice inputs_bob gates gen].
  destruct (grows_block s0 a b s G Hg Hhead) as [Hg' Hhead'].
  exists (if alice then restA ++ wires (fresh_inputs (gen s)) else restA),
         (if alice then restB else restB ++ wires (fresh_inputs (gen s))),
         (G ++ block_gates (gen s) a b).
  rewrite Hhead'. split; [| split; [| done]].
  - destruct alice; [| done]. rewrite HA. by rewrite <- !app_assoc.
  - destruct alice; [done |]. rewrite HB. by rewrite <- !app_assoc.
Qed.

(** What [assemble] adds, from any state and under any switch test. *)
Lemma assemble_with_grows s0 :
  let s := (assemble_with switch_test s0).2 in
  ∃ restA restB G,
    inputs_alice s = inputs_alice s0 ++ [1; 2; 3; 4] ++ restA ∧
    inputs_bob s = inputs_bob s0 ++ [5; 6; 7; 8] ++ restB ∧
    gates s = gates s0 ++ G ∧
    head G = Some (Gate (gen s0 + 1) NXOR [1; 5]).
Proof.
  cbn zeta. unfold assemble_with, bind.
  assert (grows_from s0 (chain_with switch_test s0).1 (chain_with switch_test s0).2) as Hinv.
  { unfold chain_with, bind, inputs_alice_extend, inputs_bob_extend.
    cbn [set_size bits gen inputs_alice inputs_bob outputs gates].
    apply (for_each_ind (λ _ st s, grows_from s0 st s)
             (loop_body switch_test (set_size s0 * 2))
             (range (set_size s0 * 2 - 2))
             (λ j x st s, grows_step s0 (set_size s0 * 2) x j st s) 0%nat).
    exists [], [], []. cbn. by rewrite !app_nil_r. }
  destruct (chain_with switch_test s0) as [[[a b] alice] s].
  destruct Hinv as (restA & restB & G & HA & HB & Hg & Hhead). cbn [fst snd] in *.
  rewrite circuit_block_run. cbn [snd inputs_alice inputs_bob gates].
  destruct (grows_block s0 a b s G Hg Hhead) as [Hg' Hhead'].
  by exists restA, restB, (G ++ block_gates (gen s) a b).
Qed.

End GrowthProofs.

(** X6. [complete_circuit] is not re-entrant: a second call on the same
    object, whatever its parameters, extends the lists of the first call
    instead of starting over. Wire 1 then occurs twice in [inputs_alice],
    the gate list of the first call is a strict prefix of the new one, and
    the entry written differs from the first. *)
Theorem second_call_duplicates (bw k : Z) :
  let s1 := (assemble (init bw k)).2 in
  let s2 := (assemble s1).2 in
  (∃ l1 l2 l3, inputs_alice s2 = l1 ++ 1 :: l2 ++ 1 :: l3) ∧
  ¬ NoDup (inputs_alice s2) ∧
  (∃ g G, gates s2 = gates s1 ++ g :: G) ∧
  entry_of s2 ≠ entry_of s1.
Proof.
  cbn zeta. unfold assemble.
  destruct (assemble_with_grows switch_true_div (init bw k))
    as (rA1 & _ & _ & HA1 & _ & _ & _).
  set (s1 := (assemble_with switch_true_div (init bw k)).2) in *. clearbody s1.
  destruct (assemble_with_grows switch_true_div s1)
    as (rA2 & _ & G & HA2 & _ & Hg & Hhead).
  set (s2 := (assemble_with switch_true_div s1).2) in *. clearbody s2.
  cbn [init inputs_alice app] in HA1.
  destruct G as [| g G]; [done |].
  assert (inputs_alice s2 = 1 :: ([2; 3; 4] ++ rA1) ++ 1 :: ([2; 3; 4] ++ rA2)) as Hdup.
  { by rewrite HA2, HA1. }
  split; [by exists [], ([2; 3; 4] ++ rA1), ([2; 3; 4] ++ rA2) | split; [| split]].
  - rewrite Hdup. intros [Hnot _]%NoDup_cons. apply Hnot.
    apply elem_of_app. right. apply list_elem_of_here.
  - by exists g, G.
  - intros Heq. apply (f_equal (λ c, length (c_gates c))) in Heq.
    cbn [entry_of c_gates] in Heq. rewrite Hg, length_app in Heq. cbn in Heq. lia.
Qed.

(** X7. The [bits] argument only sets the start of the gate counter to
    [2 * bits]: whatever its value, 'alice' starts with [1..4], 'bob' with
    [5..8], the entry has four 'out' wires and the first gate is
    NXOR(1, 5) with id [2 * bits + 1]. For [bits] from 0 to 3 that id is
    also the id of one of the first eight input wires: a gate and an input
    wire share an id. *)
Theorem bits_argument (bw k : Z) :
  let c := circuit_of bw k in
  take 4 (c_alice c) = [1; 2; 3; 4] ∧
  take 4 (c_bob c) = [5; 6; 7; 8] ∧
  length (c_out c) = 4%nat ∧
  head (c_gates c) = Some (Gate (2 * bw + 1) NXOR [1; 5]) ∧
  (0 ≤ bw ≤ 3 → 2 * bw + 1 ∈ input_wires c ∧ 2 * bw + 1 ∈ gate_ids c).
Proof.
  cbn zeta.
  pose proof (out_is_last_block bw k) as Hout.
  destruct (assemble_with_grows switch_true_div (init bw k))
    as (rA & rB & G & HA & HB & Hg & Hhead).
  unfold input_wires, gate_ids, circuit_of, entry_of, assemble in *.
  cbn [c_alice c_bob c_gates c_out] in *.
  destruct (chain (init bw k)) as [[[a b] alice] s0].
  destruct Hout as (Hout & _ & _).
  set (s := (assemble_with switch_true_div (init bw k)).2) in *. clearbody s.
  cbn [init inputs_alice inputs_bob gates gen get_next_id app] in HA, HB, Hg, Hhead.
  rewrite HA, HB, Hg, Hout, circuit_block_run.
  split; [done | split; [done | split; [done | split; [done |]]]].
  intros Hbw. split.
  - assert (2 * bw + 1 = 1 ∨ 2 * bw + 1 = 3 ∨ 2 * bw + 1 = 5 ∨ 2 * bw + 1 = 7) as Hcases by lia.
    rewrite elem_of_app, !elem_of_cons.
    destruct Hcases as [-> | [-> | [-> | ->]]]; tauto.
  - destruct G as [| g G]; [done |]. cbn in Hhead. injection Hhead as ->.
    cbn. apply list_elem_of_here.
Qed.

Lemma bits_argument_witness :
  2 * 2 + 1 ∈ input_wires (circuit_of 2 3) ∧ 2 * 2 + 1 ∈ gate_ids (circuit_of 2 3).
Proof.
  refine (proj2 (proj2 (proj2 (proj2 (bits_argument 2 3)))) _). lia.
Defined.

End CircuitSpec.

(** * format.py: inputs, side effects and the report *)

Module VerificationSpec.

Import Boolean Format BooleanSpec FormatSpec Circuit Verification CircuitSpec.

(** ** Normalisation, value by value *)

Lemma groups4_app l1 l2 :
  (length l1 mod 4 = 0)%nat → groups4 (l1 ++ l2) = groups4 l1 ++ groups4 l2.
Proof.
  revert l2. induction l1 as [l1 IH] using (induction_ltof1 _ (@length Z)).
  unfold ltof in IH. intros l2 Hmod.
  destruct l1 as [| x3 [| x2 [| x1 [| x0 l1]]]]; try done.
  cbn [app groups4]. rewrite IH; [done | cbn; lia |].
  cbn [length] in Hmod.
  replace (S (S (S (S (length l1))))) with (length l1 + 1 * 4)%nat in Hmod by lia.
  by rewrite Nat.Div0.mod_add in Hmod.
Qed.

Lemma group_values_app l1 l2 :
  (length l1 mod 4 = 0)%nat →
  group_values (l1 ++ l2) = group_values l1 ++ group_values l2.
Proof. intros H. unfold group_values. by rewrite groups4_app, fmap_app. Qed.

Lemma group_values_zeros m :
  group_values (replicate (4 * m) 0) = replicate m 0.
Proof.
  induction m as [| m IH]; [done |].
  replace (4 * S m)%nat with (4 + 4 * m)%nat by lia.
  rewrite replicate_add. unfold group_values in *. cbn [replicate app groups4 fmap list_fmap].
  by rewrite IH.
Qed.

Lemma length_group_values l :
  (length l mod 4 = 0)%nat → (4 * length (group_values l) = length l)%nat.
Proof.
  induction l as [l IH] using (induction_ltof1 _ (@length Z)).
  unfold ltof in IH. intros Hmod.
  destruct l as [| x3 [| x2 [| x1 [| x0 l]]]]; try done.
  unfold group_values in *. cbn [groups4 fmap list_fmap length].
  cbn [length] in Hmod.
  replace (S (S (S (S (length l))))) with (length l + 1 * 4)%nat in Hmod by lia.
  rewrite Nat.Div0.mod_add in Hmod.
  specialize (IH l ltac:(cbn; lia) Hmod). lia.
Qed.

Lemma group_values_take m l :
  group_values (take (4 * m) l) = take m (group_values l).
Proof.
  revert l. induction m as [| m IH]; intros l; [done |].
  replace (4 * S m)%nat with (S (S (S (S (4 * m))))) by lia.
  destruct l as [| x3 [| x2 [| x1 [| x0 l]]]]; try done.
  unfold group_values in *. cbn [take groups4 fmap list_fmap]. by rewrite IH.
Qed.

Lemma group_values_normalised bs k :
  0 ≤ k → Z.of_nat (length bs) mod 4 = 0 →
  group_values (normalised bs (k * 4)) = kept_values k bs.
Proof.
  intros Hk Hmod. unfold normalised, kept_values.
  assert (length bs mod 4 = 0)%nat as Hmod'.
  { apply Nat2Z.inj. by rewrite Nat2Z.inj_mod. }
  pose proof (length_group_values bs Hmod') as Hlen.
  case_decide as Hle.
  - rewrite group_values_app by done.
    replace (Z.to_nat (k * 4 - Z.of_nat (length bs)))
      with (4 * (Z.to_nat k - length (group_values bs)))%nat by lia.
    rewrite group_values_zeros.
    rewrite take_app_ge by lia. f_equal.
    rewrite take_replicate. f_equal. lia.
  - replace (Z.to_nat (k * 4)) with (4 * Z.to_nat k)%nat by lia.
    rewrite group_values_take. by rewrite take_app_le by lia.
Qed.

Lemma group_values_range bs :
  Forall bit bs → Forall (λ v, 0 ≤ v < 16) (group_values bs).
Proof.
  induction bs as [bs IH] using (induction_ltof1 _ (@length Z)).
  unfold ltof in IH. intros Hbits.
  destruct bs as [| x3 [| x2 [| x1 [| x0 bs]]]]; try by constructor.
  repeat match goal with H : Forall bit (_ :: _) |- _ => apply Forall_cons in H as [? H] end.
  unfold group_values in *. cbn [groups4 fmap list_fmap]. constructor.
  - by destruct (group_parse x3 x2 x1 x0).
  - apply IH; [cbn; lia | done].
Qed.

Lemma is_max_unique m m' l : is_max m l → is_max m' l → m = m'.
Proof.
  intros [Hin Hall] [Hin' Hall']. rewrite Forall_forall in Hall, Hall'.
  specialize (Hall _ Hin'). specialize (Hall' _ Hin). lia.
Qed.

Lemma is_max_equiv m l l' : (∀ x, x ∈ l ↔ x ∈ l') → is_max m l → is_max m l'.
Proof.
  intros Heq [Hin Hall]. split; [by apply Heq |].
  apply Forall_forall. intros x Hx%Heq. rewrite Forall_forall in Hall. auto.
Qed.

(** X8. [main] with bit width 4 and a set size [k] from 1 to [2^52], when
    the circuit stage does not raise (the circuit file is there, or the
    directory [circuits] is) and both input paths name files that hold a
    multiple of four binary digits: it reaches the protocol with the
    circuit file [max_4bits_{k}items.json] of that directory, the two
    normalised bit vectors, and as expected result the four digits,
    separated by spaces, of the maximum of the first [k] values of each
    file (zeros where a file has fewer). *)
Theorem main_reaches_protocol (json_text : json_doc → string) (k : Z)
    (alice bob cwd : string) (fs : file_system) (fa fb : file) :
  let fs1 := (circuit_stage cwd 4 k fs).2 in
  let sa := significant (file_text json_text fa) in
  let sb := significant (file_text json_text fb) in
  1 ≤ k ≤ 2 ^ 52 →
  is_Some (fs !! circuit_path cwd 4 k) ∨ fs !! circuits_dir cwd = Some Dir →
  fs1 !! alice = Some (File fa) → fs1 !! bob = Some (File fb) →
  Z.of_nat (length sa) mod 4 = 0 → Z.of_nat (length sb) mod 4 = 0 →
  ∃ m, is_max m (kept_values k sa ++ kept_values k sb) ∧
       main json_text 4 k alice bob cwd fs
       = (Run (circuit_path cwd 4 k) (normalised sa (k * 4)) (normalised sb (k * 4))
              (spaced (bin4_string m)), fs1).
Proof.
  intros fs1 sa sb [Hk Hk2] Hok Ha Hb Hma Hmb.
  destruct (normalise_loops sa (k * 4)) as [Hla Hlena]; [lia |].
  destruct (normalise_loops sb (k * 4)) as [Hlb Hlenb]; [lia |].
  destruct (traditional_compute_groups k (normalised sa (k * 4)) (normalised sb (k * 4)))
    as (m & Hmax & _ & Hrun & _);
    [done | done | done
     | apply normalised_bits, significant_bits
     | apply normalised_bits, significant_bits |].
  rewrite !group_values_normalised in Hmax by (done || lia).
  exists m. split; [done |].
  assert (circuit_stage cwd 4 k fs = (Some (circuit_path cwd 4 k), fs1)) as Hstage.
  { subst fs1.
    destruct (circuit_stage_cases cwd 4 k fs ltac:(lia))
      as [[_ H] | [(_ & _ & H) | (Hnone & Hdir & _)]];
      [by rewrite H | by rewrite H |].
    destruct Hok as [[n Hn] | Hd]; congruence. }
  clearbody fs1. unfold main. rewrite Hstage.
  unfold path_exists. rewrite !bool_decide_eq_true_2 by eauto. cbn [negb].
  unfold read_input. rewrite !lookup_files_of, Ha, Hb.
  change (4 =? 0) with false. cbn iota.
  rewrite !read_bits_significant. fold sa sb. rewrite Hma, Hmb. cbn [Z.eqb negb].
  rewrite Hla, Hlb, Hrun. done.
Qed.

Lemma main_reaches_protocol_witness :
  ∃ m, is_max m (kept_values 1 (significant "0101, 11x10")
                 ++ kept_values 1 (significant "0011")) ∧
       main (λ _, EmptyString) 4 1 "Alice.txt" "Bob.txt" "/home/yao" fs_home
       = (Run (circuit_path "/home/yao" 4 1)
              (normalised (significant "0101, 11x10") (1 * 4))
              (normalised (significant "0011") (1 * 4))
              (spaced (bin4_string m)),
          (circuit_stage "/home/yao" 4 1 fs_home).2).
Proof.
  refine (main_reaches_protocol (λ _, EmptyString) 1 "Alice.txt" "Bob.txt" "/home/yao"
            fs_home (TextFile "0101, 11x10") (TextFile "0011") _ _ _ _ _ _).
  - lia.
  - right. reflexivity.
  - vm_compute. reflexivity.
  - vm_compute. reflexivity.
  - reflexivity.
  - reflexivity.
Defined.

(** Padding with zeros keeps the maximum of the values; bits beyond the
    first [k] values do not count; no value stands for [k] zeros. *)
Lemma kept_values_facts (k : Z) (ba bb : list Z) :
  0 ≤ k →
  Forall bit ba → Forall bit bb →
  Z.of_nat (length ba) mod 4 = 0 → Z.of_nat (length bb) mod 4 = 0 →
  (∀ m, Z.of_nat (length ba) ≤ k * 4 → Z.of_nat (length bb) ≤ k * 4 →
        group_values ba ++ group_values bb ≠ [] →
        is_max m (kept_values k ba ++ kept_values k bb) →
        is_max m (group_values ba ++ group_values bb)) ∧
  (∀ extra, Z.of_nat (length ba) = k * 4 →
        kept_values k (ba ++ extra) = group_values ba) ∧
  (ba = [] → kept_values k ba = replicate (Z.to_nat k) 0).
Proof.
  intros Hk Hba Hbb Hma Hmb.
  assert (length ba mod 4 = 0)%nat as Hma' by (apply Nat2Z.inj; by rewrite Nat2Z.inj_mod).
  assert (length bb mod 4 = 0)%nat as Hmb' by (apply Nat2Z.inj; by rewrite Nat2Z.inj_mod).
  pose proof (length_group_values ba Hma') as Hla.
  pose proof (length_group_values bb Hmb') as Hlb.
  pose proof (group_values_range ba Hba) as Hra.
  pose proof (group_values_range bb Hbb) as Hrb.
  split; [| split].
  - intros m Hlea Hleb Hne [Hin Hall].
    unfold kept_values in *.
    rewrite !take_app_ge, !take_replicate in * by lia.
    remember (replicate ((Z.to_nat k - length (group_values ba)) `min` Z.to_nat k) 0) as za eqn:Eza.
    remember (replicate ((Z.to_nat k - length (group_values bb)) `min` Z.to_nat k) 0) as zb eqn:Ezb.
    assert (∀ x, x ∈ za → x = 0) as Hza by (intros x; rewrite Eza; by intros [-> _]%elem_of_replicate).
    assert (∀ x, x ∈ zb → x = 0) as Hzb by (intros x; rewrite Ezb; by intros [-> _]%elem_of_replicate).
    clear Eza Ezb.
    assert (∀ x, x ∈ group_values ba ++ group_values bb → 0 ≤ x) as Hpos.
    { intros x [Hx | Hx]%elem_of_app;
        [rewrite Forall_forall in Hra; specialize (Hra x Hx)
        | rewrite Forall_forall in Hrb; specialize (Hrb x Hx)]; lia. }
    rewrite Forall_forall in Hall.
    assert (∀ x, x ∈ group_values ba ++ group_values bb → x ≤ m) as Hle.
    { intros x Hx. apply Hall. rewrite !elem_of_app in *. tauto. }
    split; [| by apply Forall_forall].
    assert (m ∈ group_values ba ++ group_values bb ∨ m = 0) as [? | ->].
    { rewrite !elem_of_app in *.
      destruct Hin as [[? | Hz] | [? | Hz]]; auto. }
    + done.
    + destruct (group_values ba ++ group_values bb) as [| x l] eqn:El; [done |].
      assert (x = 0) as ->.
      { specialize (Hle x ltac:(apply list_elem_of_here)).
        specialize (Hpos x ltac:(apply list_elem_of_here)). lia. }
      apply list_elem_of_here.
  - intros extra Hlen. unfold kept_values.
    rewrite group_values_app by done.
    rewrite <- app_assoc, take_app_le by lia. by rewrite take_ge by lia.
  - intros ->. unfold kept_values. cbn. by rewrite take_replicate, Nat.min_id.
Qed.

(** X9. What the pad and truncate loops of [main] do to the result: for
    two input files that hold a multiple of four binary digits each,
    [read_input] hands on the output of the two loops, and
    [traditional_compute] on the two vectors returns the four digits of a
    number [m]. When neither file has more than [k] values and one has a
    value at all, [m] is the maximum of the values in the files: padding
    with zeros does not change the output. A file with [k] values or more
    contributes exactly its first [k] values, and a file without values
    contributes [k] zeros. *)
Theorem padding_and_truncation (json_text : json_doc → string)
    (fs : gmap string file) (pa pb : string) (fa fb : file) (k : Z) :
  let sa := read_bits (file_text json_text fa) in
  let sb := read_bits (file_text json_text fb) in
  1 ≤ k →
  fs !! pa = Some fa → fs !! pb = Some fb →
  Z.of_nat (length sa) mod 4 = 0 → Z.of_nat (length sb) mod 4 = 0 →
  ∃ na nb m,
    trunc_loop (pad_loop sa (k * 4)) (k * 4) = Some na ∧
    trunc_loop (pad_loop sb (k * 4)) (k * 4) = Some nb ∧
    read_input json_text fs pa 4 k = inr na ∧
    read_input json_text fs pb 4 k = inr nb ∧
    traditional_compute na nb 4 = Some (bin4_string m) ∧
    (Z.of_nat (length sa) ≤ k * 4 → Z.of_nat (length sb) ≤ k * 4 →
     sa ++ sb ≠ [] → is_max m (group_values sa ++ group_values sb)) ∧
    (k * 4 ≤ Z.of_nat (length sa) →
     group_values na = take (Z.to_nat k) (group_values sa)) ∧
    (sa = [] → group_values na = replicate (Z.to_nat k) 0).
Proof.
  intros sa sb Hk Hfa Hfb Hma Hmb.
  assert (Forall bit sa) as Hba
    by (subst sa; rewrite read_bits_significant; apply significant_bits).
  assert (Forall bit sb) as Hbb
    by (subst sb; rewrite read_bits_significant; apply significant_bits).
  destruct (normalise_loops sa (k * 4)) as [Hla Hlena]; [lia |].
  destruct (normalise_loops sb (k * 4)) as [Hlb Hlenb]; [lia |].
  destruct (traditional_compute_groups k (normalised sa (k * 4)) (normalised sb (k * 4)))
    as (m & Hmax & _ & Hrun & _);
    [done | done | done | by apply normalised_bits | by apply normalised_bits |].
  rewrite !group_values_normalised in Hmax by (done || lia).
  destruct (kept_values_facts k sa sb ltac:(lia) Hba Hbb Hma Hmb) as (Hpad & _ & Hnil).
  assert (length sa mod 4 = 0)%nat as Hma' by (apply Nat2Z.inj; by rewrite Nat2Z.inj_mod).
  assert (length sb mod 4 = 0)%nat as Hmb' by (apply Nat2Z.inj; by rewrite Nat2Z.inj_mod).
  pose proof (length_group_values sa Hma') as Hga.
  pose proof (length_group_values sb Hmb') as Hgb.
  exists (normalised sa (k * 4)), (normalised sb (k * 4)), m.
  split; [done | split; [done |]].
  assert (∀ path f, fs !! path = Some f →
            Z.of_nat (length (read_bits (file_text json_text f))) mod 4 = 0 →
            read_input json_text fs path 4 k
            = inr (normalised (read_bits (file_text json_text f)) (k * 4))) as Hread.
  { intros path f Hf Hm. unfold read_input. rewrite Hf.
    change (4 =? 0) with false. cbn iota. rewrite Hm. cbn [Z.eqb negb].
    by destruct (normalise_loops (read_bits (file_text json_text f)) (k * 4))
      as [-> _]; [lia |]. }
  split; [by apply Hread | split; [by apply Hread |]].
  split; [done |]. split; [| split].
  - intros Hlea Hleb Hne. apply Hpad; [done | done | | done].
    intros Hnil'. apply app_eq_nil in Hnil' as [Ha0 Hb0].
    rewrite Ha0 in Hga. rewrite Hb0 in Hgb. cbn in Hga, Hgb.
    apply Hne. destruct sa; [| cbn in Hga; lia]. destruct sb; [done | cbn in Hgb; lia].
  - intros Hge. rewrite group_values_normalised by (done || lia).
    unfold kept_values. by rewrite take_app_le by lia.
  - intros Hnil'. rewrite group_values_normalised by (done || lia). by apply Hnil.
Qed.

Lemma padding_and_truncation_witness :
  ∃ na nb m,
    trunc_loop (pad_loop (read_bits "0101, 11x10") (2 * 4)) (2 * 4) = Some na ∧
    trunc_loop (pad_loop (read_bits "0011") (2 * 4)) (2 * 4) = Some nb ∧
    read_input (λ _, EmptyString) fs_example "Alice.txt" 4 2 = inr na ∧
    read_input (λ _, EmptyString) fs_example "Bob.txt" 4 2 = inr nb ∧
    traditional_compute na nb 4 = Some (bin4_string m) ∧
    (Z.of_nat (length (read_bits "0101, 11x10")) ≤ 2 * 4 →
     Z.of_nat (length (read_bits "0011")) ≤ 2 * 4 →
     read_bits "0101, 11x10" ++ read_bits "0011" ≠ [] →
     is_max m (group_values (read_bits "0101, 11x10")
               ++ group_values (read_bits "0011"))) ∧
    (2 * 4 ≤ Z.of_nat (length (read_bits "0101, 11x10")) →
     group_values na = take (Z.to_nat 2) (group_values (read_bits "0101, 11x10"))) ∧
    (read_bits "0101, 11x10" = [] → group_values na = replicate (Z.to_nat 2) 0).
Proof.
  refine (padding_and_truncation (λ _, EmptyString) fs_example "Alice.txt" "Bob.txt"
            (TextFile "0101, 11x10") (TextFile "0011") 2 _ _ _ _ _).
  - lia.
  - vm_compute. reflexivity.
  - vm_compute. reflexivity.
  - reflexivity.
  - reflexivity.
Defined.

(** ** A file without binary digits *)

Lemma significant_none content :
  Forall (λ ch : ascii, ch ≠ "0"%char ∧ ch ≠ "1"%char) (list_ascii_of_string content) →
  significant content = [].
Proof.
  unfold significant. intros Hall.
  induction Hall as [| ch l [H0 H1] Hl IH]; [done |].
  rewrite filter_cons_False; [done |]. intros [? | ?]; congruence.
Qed.

(** X10. An input file without any binary digit (the empty file too) is
    accepted by [main]: its bit vector is [4k] zeros, that is [k] values
    0. *)
Theorem digit_free_file (json_text : json_doc → string)
    (fs : gmap string file) (path content : string) (k : Z) :
  0 ≤ k →
  fs !! path = Some (TextFile content) →
  Forall (λ ch : ascii, ch ≠ "0"%char ∧ ch ≠ "1"%char) (list_ascii_of_string content) →
  read_input json_text fs path 4 k = inr (replicate (Z.to_nat (k * 4)) 0)
  ∧ group_values (replicate (Z.to_nat (k * 4)) 0) = replicate (Z.to_nat k) 0.
Proof.
  intros Hk Hfile Hnone. apply significant_none in Hnone.
  split.
  - unfold read_input. rewrite Hfile. cbn [file_text].
    rewrite read_bits_significant, Hnone. cbn.
    destruct (normalise_loops [] (k * 4)) as [-> _]; [lia |].
    unfold normalised. rewrite decide_True by (cbn; lia). cbn.
    do 3 f_equal. lia.
  - replace (Z.to_nat (k * 4)) with (4 * Z.to_nat k)%nat by lia.
    apply group_values_zeros.
Qed.

Lemma digit_free_file_witness :
  read_input (λ _, EmptyString) fs_blank "Alice.txt" 4 2 = inr [0; 0; 0; 0; 0; 0; 0; 0].
Proof.
  refine (proj1 (digit_free_file (λ _, EmptyString) fs_blank "Alice.txt"
                   "no digits here" 2 _ _ _)).
  - lia.
  - vm_compute. reflexivity.
  - repeat constructor; discriminate.
Defined.

(** ** The reference function and the length of its second argument *)

Lemma for_opt_ext {A St} (xs : list A) (f g : A → St → option St) st :
  (∀ x st', x ∈ xs → f x st' = g x st') → for_opt xs f st = for_opt xs g st.
Proof.
  revert st. induction xs as [| x xs IH]; intros st Hfg; [done |].
  cbn. rewrite Hfg by apply list_elem_of_here.
  destruct (g x st) as [st' |]; cbn; [| done].
  apply IH. intros y st'' Hy. apply Hfg. by apply list_elem_of_further.
Qed.

Lemma for_opt_fail {A St} (xs : list A) (body : A → St → option St) x :
  x ∈ xs → (∀ st, body x st = None) → ∀ st, for_opt xs body st = None.
Proof.
  intros Hx Hfail. induction xs as [| y xs IH]; intros st; [by apply elem_of_nil in Hx |].
  cbn. apply elem_of_cons in Hx as [<- | Hx].
  - by rewrite Hfail.
  - destruct (body y st); cbn; [by apply IH | done].
Qed.

Lemma elem_of_range_step n bits i :
  0 < bits →
  i ∈ range_step n bits
  ↔ ∃ j : nat, i = Z.of_nat j * bits ∧ Z.of_nat j < (n + bits - 1) / bits.
Proof.
  intros Hbits. unfold range_step.
  rewrite (proj2 (Z.ltb_ge bits 0)) by lia.
  change (map ?f) with (fmap (M := list) f).
  rewrite list_elem_of_fmap. split.
  - intros (j & -> & Hj%elem_of_seq). exists j. split; [done | lia].
  - intros (j & -> & Hj). exists j. split; [done |]. apply elem_of_seq. lia.
Qed.

(** X11. [traditional_compute] is driven by the length of its first
    argument alone: with an empty [a] it raises whatever [b] and [bits]
    are; the bits of [b] from the end of the last group of [a] on, that is
    from position [ceil(len(a) / bits) * bits] (which is [len(a)] when
    [len(a)] is a multiple of [bits]), are never read; a [b] that ends at
    or before the start of a group of [a] makes it raise. *)
Theorem traditional_compute_second_argument (a b : list Z) (bits : Z) :
  traditional_compute [] b bits = None ∧
  (∀ extra,
     (Z.of_nat (length a) + bits - 1) / bits * bits ≤ Z.of_nat (length b) →
     traditional_compute a (b ++ extra) bits = traditional_compute a b bits) ∧
  (∀ j, 0 < bits → 0 ≤ j →
     j * bits < Z.of_nat (length a) → Z.of_nat (length b) ≤ j * bits →
     traditional_compute a b bits = None).
Proof.
  split; [| split].
  - unfold traditional_compute.
    destruct (Z.eqb_spec bits 0) as [-> | Hne]; [done |].
    unfold range_step. destruct (Z.ltb_spec bits 0); [done |].
    cbn [length]. replace ((Z.of_nat 0 + bits - 1) / bits) with 0; [done |].
    symmetry. apply Z.div_small. lia.
  - intros extra Hlen. unfold traditional_compute.
    destruct (Z.eqb_spec bits 0) as [-> | Hne]; [done |].
    destruct (Z.ltb_spec bits 0) as [Hneg | Hpos].
    { unfold range_step. by rewrite (proj2 (Z.ltb_lt bits 0) Hneg). }
    f_equal. apply for_opt_ext. intros i ss (j & -> & Hj)%elem_of_range_step; [| lia].
    unfold collect, slice. do 2 f_equal.
    assert ((Z.of_nat j + 1) * bits ≤ Z.of_nat (length b)) as Hend by nia.
    rewrite drop_app_le by nia. rewrite take_app_le; [done |].
    rewrite length_drop. nia.
  - intros j Hbits Hj Hja Hjb. unfold traditional_compute.
    rewrite (proj2 (Z.eqb_neq bits 0)) by lia.
    rewrite (for_opt_fail _ _ (j * bits)); [done | |].
    + apply elem_of_range_step; [done |]. exists (Z.to_nat j).
      split; [lia |].
      assert (j + 1 ≤ (Z.of_nat (length a) + bits - 1) / bits); [| lia].
      apply Z.div_le_lower_bound; lia.
    + intros ss. unfold collect, slice.
      rewrite (drop_ge b) by lia. rewrite take_nil. cbn.
      by destruct (int_base2 _).
Qed.

Lemma traditional_compute_second_argument_witness :
  traditional_compute [0; 1; 0; 1; 1; 1] ([0; 0; 1; 1; 0; 1; 1; 0] ++ [1; 1; 1; 1]) 4
  = traditional_compute [0; 1; 0; 1; 1; 1] [0; 0; 1; 1; 0; 1; 1; 0] 4.
Proof.
  refine (proj1 (proj2 (traditional_compute_second_argument
                          [0; 1; 0; 1; 1; 1] [0; 0; 1; 1; 0; 1; 1; 0] 4))
            [1; 1; 1; 1] _).
  vm_compute. discriminate.
Defined.

(** ** The file system after a run *)



(** ** The verification report *)

Lemma remove_spaces_spaced (r : string) :
  Forall (λ ch : ascii, ch ≠ " "%char) (list_ascii_of_string r) →
  remove_spaces (spaced r) = r.
Proof.
  unfold spaced, remove_spaces.
  rewrite <- (string_of_list_ascii_of_string r) at 3.
  generalize (list_ascii_of_string r) as l. clear r.
  induction l as [| c l IH]; intros Hall; [done |].
  apply Forall_cons in Hall as [Hc Hall]. specialize (IH Hall).
  destruct l as [| c' l].
  - cbn [fmap list_fmap join_space list_ascii_of_string].
    by rewrite filter_cons_True, filter_nil by done.
  - cbn [fmap list_fmap join_space] in *.
    change (String c EmptyString +:+ " " +:+ ?s) with (String c (String " " s)).
    cbn [list_ascii_of_string].
    rewrite filter_cons_True by done. rewrite filter_cons_False by (intros H; by apply H).
    cbn [string_of_list_ascii]. by rewrite IH.
Qed.

Lemma bin4_string_parse m :
  0 ≤ m < 16 →
  int_base2 (remove_spaces (spaced (bin4_string m))) = Some m.
Proof.
  intros Hm.
  assert (m ∈ Z.of_nat <$> seq 0 16) as Hin.
  { apply list_elem_of_fmap. exists (Z.to_nat m). split; [lia |].
    apply elem_of_seq. lia. }
  cbn in Hin.
  repeat (apply elem_of_cons in Hin as [-> | Hin]; [vm_compute; reflexivity |]).
  by apply elem_of_nil in Hin.
Qed.

(** X13. The verification report for two four-bit results [m] (expected)
    and [n] (actual), each rendered as four digits separated by spaces:
    both [int(.., 2)] calls succeed and give back [m] and [n], the third
    line says [True] exactly when [n = m], and [verify_output] on the two
    strings is the comparison of the two numbers. Removing the spaces of
    [" ".join(r)] gives back any space-free [r]. *)
Theorem verification_report (m n : Z) :
  0 ≤ m < 16 → 0 ≤ n < 16 →
  let expected := spaced (bin4_string m) in
  let actual := spaced (bin4_string n) in
  verification_lines expected actual
  = Some [ "Expected output: " +:+ expected +:+ " (" +:+ pretty m +:+ ")"
             +:+ String newline EmptyString;
           "Actual output: " +:+ actual +:+ " (" +:+ pretty n +:+ ")"
             +:+ String newline EmptyString;
           "Correct: " +:+ str_bool (bool_decide (n = m))
             +:+ String newline EmptyString ]
  ∧ (verify_output actual expected = true ↔ n = m)
  ∧ (∀ r, Forall (λ ch : ascii, ch ≠ " "%char) (list_ascii_of_string r) →
          remove_spaces (spaced r) = r).
Proof.
  intros Hm Hn expected actual.
  assert (verify_output actual expected = bool_decide (n = m)) as Hv.
  { unfold verify_output. apply bool_decide_ext. split; [| by intros ->].
    intros Heq. apply (f_equal (λ s, int_base2 (remove_spaces s))) in Heq.
    subst expected actual. rewrite !bin4_string_parse in Heq by done. congruence. }
  split.
  - unfold verification_lines. subst expected actual.
    rewrite !bin4_string_parse by done. cbn [mbind option_bind].
    by rewrite Hv.
  - split; [| apply remove_spaces_spaced].
    rewrite Hv. apply bool_decide_eq_true.
Qed.

Lemma verification_report_witness :
  verify_output (spaced (bin4_string 9)) (spaced (bin4_string 9)) = true ↔ 9 = 9.
Proof. apply (proj1 (proj2 (verification_report 9 9 ltac:(lia) ltac:(lia)))). Defined.

End VerificationSpec.

(** * main.py: input dictionaries and the verification step *)

Module MainSpec.

Import Boolean Format BooleanSpec FormatSpec Circuit Verification Main.
Import CircuitSpec VerificationSpec.

Lemma for_opt_seq_inv {St} (I : nat → St → Prop) (body : nat → St → option St) (n : nat) :
  (∀ j st st', (j < n)%nat → I j st → body j st = Some st' → I (S j) st') →
  ∀ m a st r, (a + m = n)%nat → I a st →
    for_opt (seq a m) body st = Some r → I n r.
Proof.
  intros Hstep m. induction m as [| m IH]; intros a st r Ham HI.
  - cbn. intros [= <-]. by replace n with a by lia.
  - cbn [seq for_opt]. destruct (body a st) as [st' |] eqn:Hb; cbn; [| done].
    apply IH; [lia |]. apply (Hstep a st st'); [lia | done | done].
Qed.

Lemma for_opt_is_Some {A St} (xs : list A) (body : A → St → option St) :
  (∀ x st, x ∈ xs → is_Some (body x st)) → ∀ st, is_Some (for_opt xs body st).
Proof.
  induction xs as [| x xs IH]; intros Hb st; [by eexists |].
  cbn. destruct (Hb x st) as [st' ->]; [apply list_elem_of_here |]. cbn.
  apply IH. intros y st'' Hy. apply Hb. by apply list_elem_of_further.
Qed.

(** ** Masking with the permutation bit *)

(** X14. [_get_encr_bits] for a permutation bit [p] and a clear bit [x]:
    the entry for [x] is the key of [x] with the masked bit [p xor x];
    xor-ing the masked bit with [p] gives [x] back; the masked bit is a
    bit; the two entries carry different masked bits. *)
Theorem get_encr_bits_unmask {Key} (p x : Z) (key0 key1 : Key) :
  bit p → bit x →
  entry_for x (get_encr_bits p key0 key1) = (entry_for x (key0, key1), Z.lxor p x)
  ∧ Z.lxor (entry_for x (get_encr_bits p key0 key1)).2 p = x
  ∧ bit (entry_for x (get_encr_bits p key0 key1)).2
  ∧ (get_encr_bits p key0 key1).1.2 ≠ (get_encr_bits p key0 key1).2.2.
Proof.
  intros [-> | ->] [-> | ->]; cbn; repeat split; (done || (by left) || (by right)).
Qed.

Lemma get_encr_bits_unmask_witness :
  Z.lxor (entry_for 1 (get_encr_bits 1 "k0"%string "k1"%string)).2 1 = 1.
Proof.
  refine (proj1 (proj2 (get_encr_bits_unmask 1 1 "k0"%string "k1"%string _ _))).
  - by right.
  - by right.
Defined.

(** ** Dictionaries built index by index *)

Lemma build_last_wins {V} (ws : list Z) (val : nat → option V) (m : gmap Z V) :
  for_opt (seq 0 (length ws))
          (λ i acc, w ← ws !! i; v ← val i; Some (<[w := v]> acc)) ∅ = Some m →
  (∀ i, (i < length ws)%nat → is_Some (val i)) ∧ last_wins m ws val.
Proof.
  set (body := λ (i : nat) (acc : gmap Z V), w ← ws !! i; v ← val i; Some (<[w := v]> acc)).
  set (I := λ (j : nat) (acc : gmap Z V),
         (∀ i, (i < j)%nat → is_Some (val i))
         ∧ (∀ i w, (i < j)%nat → ws !! i = Some w →
              (∀ j', (i < j' < j)%nat → ws !! j' ≠ Some w) → acc !! w = val i)
         ∧ (∀ w, w ∉ take j ws → acc !! w = None)).
  intros Hrun.
  assert (I (length ws) m) as (H1 & H2 & H3).
  { apply (for_opt_seq_inv I body (length ws)) with (m := length ws) (a := 0%nat) (st := ∅);
      [| lia | | done].
    - intros j acc acc' Hj (IH1 & IH2 & IH3) Hstep. unfold body in Hstep.
      destruct (ws !! j) as [wj |] eqn:Hwj; [| done].
      destruct (val j) as [v |] eqn:Hv; [| done].
      cbn in Hstep. injection Hstep as <-.
      split; [| split].
      + intros i Hi. destruct (decide (i = j)) as [-> | Hne]; [by rewrite Hv |].
        apply IH1. lia.
      + intros i w Hi Hw Hlast. destruct (decide (i = j)) as [-> | Hne].
        * assert (w = wj) as -> by congruence. by rewrite lookup_insert_eq, Hv.
        * assert (w ≠ wj) as Hwne.
          { intros ->. apply (Hlast j); [lia | done]. }
          rewrite lookup_insert_ne by done.
          apply IH2; [lia | done |]. intros j' Hj'. apply Hlast. lia.
      + intros w Hw. rewrite (take_S_r _ _ wj) in Hw by done.
        rewrite elem_of_app, list_elem_of_singleton in Hw.
        rewrite lookup_insert_ne by (intros ->; tauto).
        apply IH3. tauto.
    - split; [intros; lia | split; [intros; lia |]]. intros w _. apply lookup_empty. }
  split; [done | split].
  - intros i w Hw Hlast. apply H2; [by eapply lookup_lt_Some | done |].
    intros j' Hj'. apply Hlast. lia.
  - intros w Hw. apply H3. by rewrite take_ge.
Qed.

Lemma build_is_Some {V} (ws : list Z) (val : nat → option V) :
  (∀ i, (i < length ws)%nat → is_Some (val i)) →
  is_Some (for_opt (seq 0 (length ws))
                   (λ i (acc : gmap Z V), w ← ws !! i; v ← val i; Some (<[w := v]> acc))
                   ∅).
Proof.
  intros Hval. apply for_opt_is_Some. intros i acc Hi%elem_of_seq.
  destruct (lookup_lt_is_Some_2 ws i ltac:(lia)) as [w ->].
  destruct (Hval i ltac:(lia)) as [v ->]. by eexists.
Qed.

(** ** Bob's clear inputs *)

(** X15. [b_inputs_clear] in [Bob.send_evaluation]: it raises exactly when
    Bob has fewer input bits than wires; otherwise each wire maps to the
    bit at the last position where it occurs in [b_wires], and no other
    wire is mapped. When no wire occurs twice this is the wire-by-wire
    pairing of the two lists, and bits beyond the wires make no
    difference. *)
Theorem b_inputs_clear_last_wins (b_wires in_bits : list Z) :
  (is_Some (b_inputs_clear b_wires in_bits) ↔ (length b_wires ≤ length in_bits)%nat) ∧
  (∀ m, b_inputs_clear b_wires in_bits = Some m →
     last_wins m b_wires (λ i, in_bits !! i) ∧
     (NoDup b_wires → ∀ extra,
        m = list_to_map (zip b_wires in_bits) ∧
        b_inputs_clear b_wires (in_bits ++ extra) = Some m)).
Proof.
  unfold b_inputs_clear. split.
  - split.
    + intros [m Hm]. apply build_last_wins in Hm as [Hval _].
      destruct (length b_wires) as [| n] eqn:Hn; [lia |].
      destruct (Hval n ltac:(lia)) as [x Hx]. apply lookup_lt_Some in Hx. lia.
    + intros Hlen. apply build_is_Some. intros i Hi. apply lookup_lt_is_Some_2. lia.
  - intros m Hm. pose proof Hm as Hrun. apply build_last_wins in Hm as [Hval [Hlast Hout]].
    split; [done |]. intros Hnd extra.
    assert (length b_wires ≤ length in_bits)%nat as Hlen.
    { destruct (length b_wires) as [| n] eqn:Hn; [lia |].
      destruct (Hval n ltac:(lia)) as [x Hx]. apply lookup_lt_Some in Hx. lia. }
    assert (m = list_to_map (zip b_wires in_bits)) as Heq.
    { apply map_eq. intros w.
      destruct (decide (w ∈ b_wires)) as [Hin | Hnin].
      - apply list_elem_of_lookup in Hin as [i Hi].
        rewrite (Hlast i w Hi).
        2:{ intros j Hj Hw. rewrite NoDup_alt in Hnd. specialize (Hnd i j w Hi Hw). lia. }
        destruct (Hval i ltac:(by eapply lookup_lt_Some)) as [x Hx].
        rewrite Hx. symmetry. apply elem_of_list_to_map_1.
        + by rewrite fst_zip.
        + apply list_elem_of_lookup. exists i. rewrite lookup_zip_with, Hi. cbn. by rewrite Hx.
      - rewrite (Hout w Hnin). symmetry. apply not_elem_of_list_to_map_1.
        by rewrite fst_zip. }
    split; [done |].
    rewrite <- Hrun. apply for_opt_ext. intros i acc Hi%elem_of_seq.
    by rewrite lookup_app_l by lia.
Qed.

Lemma b_inputs_clear_last_wins_witness :
  last_wins {[ 5 := 1; 6 := 0 ]} [5; 6; 5] (λ i, [0; 0; 1] !! i).
Proof.
  refine (proj1 (proj2 (b_inputs_clear_last_wins [5; 6; 5] [0; 0; 1]) _ _)).
  vm_compute. reflexivity.
Defined.

(** ** Alice's inputs and the table she offers Bob *)

Lemma a_inputs_step_val {Key} (keys : gmap Z (Key * Key)) pbits a_wires in_bits i acc :
  a_inputs_step keys pbits a_wires in_bits i acc
  = w ← a_wires !! i;
    v ← (w ← a_wires !! i; ks ← keys !! w; x ← in_bits !! i;
         key ← tuple_get ks x; p ← pbits !! w; Some (key, Z.lxor p x));
    Some (<[w := v]> acc).
Proof.
  unfold a_inputs_step. destruct (a_wires !! i) as [w |]; [| done]. cbn.
  destruct (keys !! w) as [ks |]; [| done]. cbn.
  destruct (in_bits !! i) as [x |]; [| done]. cbn.
  destruct (tuple_get ks x) as [key |]; [| done]. cbn.
  by destruct (pbits !! w).
Qed.

(** X16. The loop of [Alice.print] that builds [a_inputs], when it does
    not raise: Alice has at least as many input bits as wires (bits beyond
    the wires are ignored); no wire outside [a_wires] gets an entry; a
    wire gets the key picked by the bit at its last position in [a_wires]
    and that bit masked with the wire's permutation bit. For bits 0 and 1
    this is the entry [_get_encr_bits] computes for the same wire, and
    unmasking gives the clear bit back. *)
Theorem a_inputs_masked {Key} (keys : gmap Z (Key * Key)) (pbits : gmap Z Z)
    (a_wires in_bits : list Z) (m : gmap Z (Key * Z)) :
  a_inputs keys pbits a_wires in_bits = Some m →
  (length a_wires ≤ length in_bits)%nat ∧
  (∀ w, w ∉ a_wires → m !! w = None) ∧
  (∀ i w, a_wires !! i = Some w → (∀ j, (i < j)%nat → a_wires !! j ≠ Some w) →
     ∃ key0 key1 p x key,
       keys !! w = Some (key0, key1) ∧ pbits !! w = Some p ∧ in_bits !! i = Some x ∧
       tuple_get (key0, key1) x = Some key ∧
       m !! w = Some (key, Z.lxor p x) ∧
       (bit p → bit x →
          m !! w = Some (entry_for x (get_encr_bits p key0 key1))
          ∧ Z.lxor (Z.lxor p x) p = x)).
Proof.
  unfold a_inputs. intros Hrun.
  rewrite (for_opt_ext _ _ _ _ (λ i acc _, a_inputs_step_val keys pbits a_wires in_bits i acc))
    in Hrun.
  apply build_last_wins in Hrun as [Hval [Hlast Hout]].
  split; [| split; [done |]].
  - destruct (length a_wires) as [| n] eqn:Hn; [lia |].
    destruct (Hval n ltac:(lia)) as [v Hv].
    destruct (a_wires !! n) as [w |]; [| done]. cbn in Hv.
    destruct (keys !! w) as [ks |]; [| done]. cbn in Hv.
    destruct (in_bits !! n) as [x |] eqn:Hx; [| done].
    apply lookup_lt_Some in Hx. lia.
  - intros i w Hw Hlater. rewrite (Hlast i w Hw Hlater).
    destruct (Hval i ltac:(by eapply lookup_lt_Some)) as [v Hv]. rewrite Hv.
    rewrite Hw in Hv. cbn in Hv.
    destruct (keys !! w) as [[key0 key1] |]; [| done]. cbn in Hv.
    destruct (in_bits !! i) as [x |]; [| done]. cbn in Hv.
    destruct (tuple_get (key0, key1) x) as [key |] eqn:Hkey; [| done]. cbn in Hv.
    destruct (pbits !! w) as [p |]; [| done]. cbn in Hv. injection Hv as <-.
    exists key0, key1, p, x, key.
    repeat (split; [done |]).
    intros [-> | ->] [-> | ->]; cbn in Hkey; injection Hkey as <-; done.
Qed.

Lemma a_inputs_masked_witness :
  (length [1; 2] ≤ length [1; 0; 1])%nat.
Proof.
  refine (proj1 (a_inputs_masked
                   {[ 1 := ("a0", "a1"); 2 := ("b0", "b1") ]} {[ 1 := 1; 2 := 0 ]}
                   [1; 2] [1; 0; 1]
                   {[ 1 := ("a1", 0); 2 := ("b0", 0) ]} _)).
  vm_compute. reflexivity.
Defined.

(** X17. The comprehension of [Alice.print] that builds [b_keys]: it
    raises exactly when a wire of [b_wires] has keys but no permutation
    bit; otherwise the table has an entry for exactly the wires of
    [b_wires] that have keys, the pair [_get_encr_bits] computes from the
    wire's permutation bit and keys. *)
Theorem b_keys_table {Key} (keys : gmap Z (Key * Key)) (pbits : gmap Z Z)
    (b_wires : list Z) :
  (is_Some (b_keys keys pbits b_wires) ↔
     ∀ w, w ∈ b_wires → is_Some (keys !! w) → is_Some (pbits !! w)) ∧
  (∀ m, b_keys keys pbits b_wires = Some m →
     ∀ w, m !! w =
          if decide (w ∈ b_wires)
          then ks ← keys !! w; p ← pbits !! w; Some (get_encr_bits p ks.1 ks.2)
          else None).
Proof.
  unfold b_keys. split.
  - split.
    + intros [m Hm] w Hw [[key0 key1] Hks].
      destruct (pbits !! w) as [p |] eqn:Hp; [by eexists |].
      rewrite (for_opt_fail _ _ (w, (key0, key1))) in Hm; [done | |].
      * by apply elem_of_map_to_list.
      * intros acc. cbn. by rewrite bool_decide_eq_true_2, Hp by done.
    + intros Hall. apply for_opt_is_Some.
      intros [w [key0 key1]] acc Hin%elem_of_map_to_list. cbn.
      case_bool_decide as Hw; [| by eexists].
      destruct (Hall w Hw ltac:(by eexists)) as [p ->]. by eexists.
  - intros m Hm w.
    assert (∀ l acc m, NoDup l.*1 →
              for_opt l (b_keys_item pbits b_wires) acc = Some m →
              m !! w = match (list_to_map l : gmap Z (Key * Key)) !! w with
                       | Some ks =>
                           if decide (w ∈ b_wires)
                           then p ← pbits !! w; Some (get_encr_bits p ks.1 ks.2)
                           else acc !! w
                       | None => acc !! w
                       end) as Hgen.
    { clear m Hm. induction l as [| [w0 [key0 key1]] l IH]; intros acc m Hnd Hrun.
      - cbn in Hrun. injection Hrun as <-. cbn [list_to_map foldr]. by rewrite lookup_empty.
      - cbn [fmap list_fmap fst] in Hnd. apply NoDup_cons in Hnd as [Hw0 Hnd].
        cbn [for_opt b_keys_item] in Hrun. cbn [list_to_map foldr].
        destruct (decide (w = w0)) as [-> | Hne].
        + rewrite lookup_insert_eq. cbn [fst snd].
          case_bool_decide as Hin.
          * destruct (pbits !! w0) as [p |] eqn:Hp; [| done]. cbn in Hrun.
            rewrite (IH _ _ Hnd Hrun), (not_elem_of_list_to_map_1 _ _ Hw0).
            rewrite lookup_insert_eq. by rewrite decide_True by done.
          * cbn in Hrun. rewrite (IH _ _ Hnd Hrun), (not_elem_of_list_to_map_1 _ _ Hw0).
            by rewrite decide_False by done.
        + rewrite lookup_insert_ne by done.
          case_bool_decide as Hin.
          * destruct (pbits !! w0) as [p |] eqn:Hp; [| done]. cbn in Hrun.
            rewrite (IH _ _ Hnd Hrun). by rewrite lookup_insert_ne by done.
          * cbn in Hrun. by rewrite (IH _ _ Hnd Hrun). }
    rewrite (Hgen _ _ _ (NoDup_fst_map_to_list keys) Hm).
    rewrite list_to_map_to_list.
    destruct (keys !! w) as [ks |]; cbn; case_decide; done.
Qed.

Lemma b_keys_table_witness :
  ({[ 5 := (("b0", 1), ("b1", 0)) ]} : gmap Z ((string * Z) * (string * Z))) !! 5
  = if decide (5 ∈ [5; 6])
    then ks ← ({[ 1 := ("a0", "a1"); 5 := ("b0", "b1") ]} : gmap Z (string * string)) !! 5;
         p ← ({[ 1 := 0; 5 := 1 ]} : gmap Z Z) !! 5;
         Some (get_encr_bits p ks.1 ks.2)
    else None.
Proof.
  refine (proj2 (b_keys_table {[ 1 := ("a0", "a1"); 5 := ("b0", "b1") ]}
                   {[ 1 := 0; 5 := 1 ]} [5; 6])
            {[ 5 := (("b0", 1), ("b1", 0)) ]} _ 5).
  vm_compute. reflexivity.
Defined.

(** ** The verification step: circuit against plaintext reference *)

Lemma input_env_lookup (c : circuit_entry) (ba bb : list bool) :
  NoDup (c_alice c ++ c_bob c) →
  length (c_alice c) = length ba → length (c_bob c) = length bb →
  (∀ i w v, c_alice c !! i = Some w → ba !! i = Some v → input_env c ba bb !! w = Some v)
  ∧ (∀ i w v, c_bob c !! i = Some w → bb !! i = Some v → input_env c ba bb !! w = Some v).
Proof.
  intros Hnd Hla Hlb. unfold input_env.
  assert (NoDup (zip (c_alice c) ba ++ zip (c_bob c) bb).*1) as Hfst.
  { by rewrite fmap_app, !fst_zip by lia. }
  split; intros i w v Hw Hv; apply elem_of_list_to_map_1; try done;
    apply elem_of_app; [left | right];
    apply list_elem_of_lookup; exists i; rewrite lookup_zip_with, Hw; cbn; by rewrite Hv.
Qed.

Lemma read_values_lookup (E : gmap Z bool) (ws vs : list Z) :
  length ws = length vs → (length ws mod 4 = 0)%nat → Forall bit vs →
  (∀ i w v, ws !! i = Some w → vs !! i = Some v → E !! w = Some (bool_decide (v = 1))) →
  read_values E ws = Some (group_values vs).
Proof.
  revert vs. induction ws as [ws IH] using (induction_ltof1 _ (@length Z)).
  unfold ltof in IH. intros vs Hlen Hmod Hbits HE.
  destruct ws as [| w3 [| w2 [| w1 [| w0 ws]]]]; try done.
  { by destruct vs. }
  destruct vs as [| x3 [| x2 [| x1 [| x0 vs]]]]; try done.
  repeat match goal with H : Forall bit (_ :: _) |- _ => apply Forall_cons in H as [? H] end.
  assert (read_values E ws = Some (group_values vs)) as Hrest.
  { apply IH; [cbn; lia | cbn in Hlen; lia | | done |].
    - cbn [length] in Hmod.
      replace (S (S (S (S (length ws))))) with (length ws + 1 * 4)%nat in Hmod by lia.
      by rewrite Nat.Div0.mod_add in Hmod.
    - intros i w v Hw Hv. by apply (HE (S (S (S (S i))))). }
  unfold read_values in *. cbn [chunks4].
  destruct (chunks4 ws) as [G |]; [| done]. cbn in Hrest |- *.
  rewrite (HE 0%nat w3 x3), (HE 1%nat w2 x2), (HE 2%nat w1 x1), (HE 3%nat w0 x0) by done.
  cbn. destruct (mapM (read4 E) G) as [vs4 |]; [| done]. cbn in Hrest |- *.
  injection Hrest as Hrest. unfold group_values in *. cbn [groups4 fmap list_fmap].
  rewrite <- Hrest. do 2 f_equal.
  repeat match goal with H : bit _ |- _ => destruct H as [-> | ->] end; reflexivity.
Qed.

Lemma mapM_fmap_Some {A B C} (f : A → option B) (g : B → C) (l : list A) (k : list B) :
  mapM f l = Some k → mapM (λ x, g <$> f x) l = Some (g <$> k).
Proof.
  revert k. induction l as [| x l IH]; intros k; cbn.
  - by intros [= <-].
  - destruct (f x) as [y |]; [| done]. cbn.
    destruct (mapM f l) as [k' |]; [| done]. cbn. intros [= <-].
    by rewrite (IH k' eq_refl).
Qed.

Lemma str_result_bits4 m :
  join_space (pretty <$> (Z.b2z <$> bits4 m)) = spaced (bin4_string m).
Proof.
  unfold bin4_string, bits4.
  generalize (Z.testbit m 3), (Z.testbit m 2), (Z.testbit m 1), (Z.testbit m 0).
  intros [] [] [] []; vm_compute; reflexivity.
Qed.

(** X18. The circuit against the plaintext reference, for every set size
    [k] from 1 to [2^52] and all bit vectors of [4k] bits: feeding bit [i]
    of each vector to wire [i] of the party's list and running the gates
    in list order puts on the 'out' wires the digits of the maximum [m]
    of the [2k] values; [traditional_compute] returns the same four
    digits; so when the protocol reports these wire values, the string
    [Alice.print] builds from them equals the expected string and
    [verify_output] is [True]. *)
Theorem verification_passes (k : Z) (bits_a bits_b : list Z) :
  1 ≤ k ≤ 2 ^ 52 → Forall bit bits_a → Forall bit bits_b →
  Z.of_nat (length bits_a) = k * 4 → Z.of_nat (length bits_b) = k * 4 →
  ∃ m, is_max m (group_values bits_a ++ group_values bits_b) ∧
       scenario k bits_a bits_b = Some (bits4 m) ∧
       traditional_compute bits_a bits_b 4 = Some (bin4_string m) ∧
       ∀ result : gmap Z Z,
         mapM (λ w, result !! w) (c_out (circuit_of 4 k)) = Some (Z.b2z <$> bits4 m) →
         ∃ s, str_result result (c_out (circuit_of 4 k)) = Some s
              ∧ verify_output s (spaced (bin4_string m)) = true.
Proof.
  intros [Hk _] Hba Hbb Hla Hlb.
  destruct (circuit_of_partitioned k Hk) as [(_ & HlA & HlB & _) Hnd].
  destruct (traditional_compute_groups k bits_a bits_b Hk Hla Hlb Hba Hbb)
    as (m & Hmax & _ & Href & _).
  set (c := circuit_of 4 k) in *.
  set (E := input_env c (bools bits_a) (bools bits_b)).
  destruct (input_env_lookup c (bools bits_a) (bools bits_b)) as [HEa HEb];
    [done | unfold bools; rewrite length_fmap; lia
     | unfold bools; rewrite length_fmap; lia |].
  assert (∀ n : nat, Z.of_nat n = k * 4 → (n mod 4 = 0)%nat) as Hmod4.
  { intros n Hn. apply Nat2Z.inj. rewrite Nat2Z.inj_mod, Hn. cbn. by rewrite Z.mod_mul. }
  assert (read_values E (c_alice c) = Some (group_values bits_a)) as Hva.
  { apply read_values_lookup; [lia | apply Hmod4; lia | done |].
    intros i w v Hw Hv. apply (HEa i); [done |].
    unfold bools. by rewrite list_lookup_fmap, Hv. }
  assert (read_values E (c_bob c) = Some (group_values bits_b)) as Hvb.
  { apply read_values_lookup; [lia | apply Hmod4; lia | done |].
    intros i w v Hw Hv. apply (HEb i); [done |].
    unfold bools. by rewrite list_lookup_fmap, Hv. }
  destruct (circuit_of_sem k E _ _ Hva Hvb) as (_ & _ & (m' & Hmax' & Hrun) & _).
  assert (m' = m) as -> by (by eapply is_max_unique).
  exists m. split; [done | split; [done | split; [done |]]].
  intros result Hres. unfold str_result.
  rewrite (mapM_fmap_Some _ pretty _ _ Hres). cbn [fmap option_fmap option_map].
  eexists. split; [done |].
  unfold verify_output. apply bool_decide_eq_true_2. apply str_result_bits4.
Qed.

Lemma verification_passes_witness :
  ∃ m, is_max m (group_values [0; 1; 0; 1] ++ group_values [0; 0; 1; 1]) ∧
       scenario 1 [0; 1; 0; 1] [0; 0; 1; 1] = Some (bits4 m) ∧
       traditional_compute [0; 1; 0; 1] [0; 0; 1; 1] 4 = Some (bin4_string m) ∧
       ∀ result : gmap Z Z,
         mapM (λ w, result !! w) (c_out (circuit_of 4 1)) = Some (Z.b2z <$> bits4 m) →
         ∃ s, str_result result (c_out (circuit_of 4 1)) = Some s
              ∧ verify_output s (spaced (bin4_string m)) = true.
Proof.
  refine (verification_passes 1 [0; 1; 0; 1] [0; 0; 1; 1] _ _ _ _ _).
  - lia.
  - repeat constructor; (by left) || (by right).
  - repeat constructor; (by left) || (by right).
  - reflexivity.
  - reflexivity.
Defined.

End MainSpec.
